(** * FolderBackup: one-way directory mirroring with a trash area

    A shallow embedding of the two programs of the repository,
    [src/main.go] (the incremental variant, module [Incremental]) and
    [src/unnamed/part_000] (the earlier variant that compares modification
    times, module [Simple]), together with the parts of the Go standard
    library they call ([path/filepath], [strings], [time]).

    The file system is a parameter: a tree snapshot for [filepath.Walk]
    and an interface of system calls for everything else.  The programs
    run in a small monad that threads the world, records the calls they
    make in a trace, and stops at [os.Exit]. *)

From Stdlib Require Import ZArith Ascii String List Lia Bool.
From stdpp Require Import base option list strings gmap.

#[local] Set Warnings "-clear-no-such-hyp".

(** * Go strings as byte sequences *)

Abbreviation chars := (list ascii).

(** Go's [error] values, as far as the programs tell them apart: the two
    sentinels of [filepath.Walk], the two conditions [os.IsNotExist] and
    permission checks distinguish, and any other error with its text. *)
Inductive error : Type :=
| SkipDir
| SkipAll
| ErrNotExist
| ErrPermission
| ErrOther (msg : string).

Global Instance error_eq_dec : EqDecision error.
Proof. solve_decision. Defined.

(** [os.IsNotExist(err)] for a possibly nil [err]. *)
Definition IsNotExist (err : option error) : bool :=
  match err with Some ErrNotExist => true | _ => false end.

Definition isSep (c : ascii) : bool := Ascii.eqb c "/"%char.

(** [strings.Split(s, "/")]: the pieces between separators, one more than
    the number of separators. *)
Fixpoint splitSep (cs : chars) : list chars :=
  match cs with
  | [] => [[]]
  | c :: cs' =>
      if isSep c then [] :: splitSep cs'
      else match splitSep cs' with
           | [] => [[c]]
           | w :: ws => (c :: w) :: ws
           end
  end.

(** [strings.Join(elems, "/")]. *)
Fixpoint joinSep (ws : list chars) : chars :=
  match ws with
  | [] => []
  | [w] => w
  | w :: ws' => w ++ "/"%char :: joinSep ws'
  end.

(** [strings.HasSuffix] and [strings.TrimSuffix]. *)
Definition HasSuffix (s suffix : string) : bool :=
  let n := String.length s in
  let k := String.length suffix in
  (k <=? n)%nat && String.eqb (String.substring (n - k) k s) suffix.

Definition TrimSuffix (s suffix : string) : string :=
  if HasSuffix s suffix
  then String.substring 0 (String.length s - String.length suffix) s
  else s.

(** * [path/filepath] on a Unix system (separator [/], no volume names) *)

Module filepath.

(** One path element pushed on the stack of [Clean] (top first):
    empty elements and [.] are dropped, [..] removes the element before
    it, or is dropped at the root, or is kept in front of a relative
    path. *)
Definition cleanStep (rooted : bool) (stack : list chars) (c : chars)
  : list chars :=
  if decide (c = []) then stack
  else if decide (c = ["."%char]) then stack
  else if decide (c = ["."%char; "."%char]) then
    match stack with
    | top :: below =>
        if decide (top = ["."%char; "."%char]) then c :: stack else below
    | [] => if rooted then stack else [c]
    end
  else c :: stack.

Definition cleanChars (path : chars) : chars :=
  match path with
  | [] => ["."%char]
  | c0 :: _ =>
      let rooted := isSep c0 in
      let body := joinSep (rev (fold_left (cleanStep rooted) (splitSep path) [])) in
      if rooted then "/"%char :: body
      else match body with [] => ["."%char] | _ => body end
  end.

(** [filepath.Clean]. *)
Definition Clean (path : string) : string :=
  string_of_list_ascii (cleanChars (list_ascii_of_string path)).

(** [filepath.Join]: leading empty elements are ignored, the rest is
    joined with the separator and cleaned; all empty gives the empty
    string. *)
Fixpoint Join (elem : list string) : string :=
  match elem with
  | [] => ""
  | e :: rest =>
      if decide (e = "") then Join rest
      else Clean (string_of_list_ascii
                    (joinSep (list_ascii_of_string <$> elem)))
  end.

(** The bytes before the first separator. *)
Fixpoint takeElem (r : chars) : chars :=
  match r with
  | [] => []
  | c :: r' => if isSep c then [] else c :: takeElem r'
  end.

(** The bytes after the first separator. *)
Fixpoint afterElem (r : chars) : chars :=
  match r with
  | [] => []
  | c :: r' => if isSep c then r' else afterElem r'
  end.

Fixpoint dropSeps (r : chars) : chars :=
  match r with
  | [] => []
  | c :: r' => if isSep c then dropSeps r' else r
  end.

Definition baseChars (path : chars) : chars :=
  match path with
  | [] => ["."%char]
  | _ =>
      (* strip trailing slashes, then find the last element *)
      match rev (takeElem (dropSeps (rev path))) with
      | [] => ["/"%char]            (* it had only slashes *)
      | b => b
      end
  end.

(** [filepath.Base]. *)
Definition Base (path : string) : string :=
  string_of_list_ascii (baseChars (list_ascii_of_string path)).

(** [filepath.Ext]: scanning from the end up to the last separator, the
    suffix that starts at the first dot met. *)
Fixpoint extRev (r : chars) (acc : chars) : chars :=
  match r with
  | [] => []
  | c :: r' =>
      if isSep c then []
      else if Ascii.eqb c "."%char then c :: acc
      else extRev r' (c :: acc)
  end.

Definition Ext (path : string) : string :=
  string_of_list_ascii (extRev (rev (list_ascii_of_string path)) []).

(** What is left of a reversed path from its first separator on. *)
Fixpoint fromSepRev (r : chars) : chars :=
  match r with
  | [] => []
  | c :: r' => if isSep c then r else fromSepRev r'
  end.

(** [filepath.Dir]: everything up to and including the last separator,
    cleaned. *)
Definition Dir (path : string) : string :=
  string_of_list_ascii
    (cleanChars (rev (fromSepRev (rev (list_ascii_of_string path))))).

(** The loop of [filepath.Rel]: [base] and [targ] are what is left of
    the two cleaned paths ([base[b0:]] and [targ[t0:]]); it stops at the
    first elements that differ, or when one path is used up, and gives
    [base[b0:bi]], [base[b0:]] and [targ[t0:]]. *)
Fixpoint relLoop (fuel : nat) (base targ : chars) : chars * chars * chars :=
  match fuel with
  | O => ([], base, targ)
  | S fuel' =>
      match base, targ with
      | [], _ | _, [] => ([], base, targ)
      | _, _ =>
          if decide (takeElem targ = takeElem base)
          then relLoop fuel' (afterElem base) (afterElem targ)
          else (takeElem base, base, targ)
      end
  end.

Definition startsWithSep (cs : chars) : bool :=
  match cs with c :: _ => isSep c | [] => false end.

(** [filepath.Rel]: the path and the error; the path is empty when the
    error is not nil. *)
Definition Rel (basepath targpath : string) : string * option error :=
  let cant := ErrOther ("Rel: can't make " +:+ targpath +:+
                        " relative to " +:+ basepath) in
  let base := cleanChars (list_ascii_of_string basepath) in
  let targ := cleanChars (list_ascii_of_string targpath) in
  if decide (targ = base) then (".", None)
  else
    let base := if decide (base = ["."%char]) then [] else base in
    if negb (Bool.eqb (startsWithSep base) (startsWithSep targ))
    then ("", Some cant)
    else
      let '(eb, brest, trest) := relLoop (S (length base)) base targ in
      if decide (eb = ["."%char; "."%char]) then ("", Some cant)
      else
        match brest with
        | [] => (string_of_list_ascii trest, None)
        | _ =>
            (* base elements left: go up before going down *)
            let seps := length (filter (λ c, isSep c = true) brest) in
            let ups := ["."%char; "."%char] ++
                       concat (replicate seps ["/"%char; "."%char; "."%char]) in
            (string_of_list_ascii
               (ups ++ match trest with [] => [] | _ => "/"%char :: trest end),
             None)
        end.

End filepath.

Global Arguments filepath.Clean : simpl never.
Global Arguments filepath.Join : simpl never.
Global Arguments filepath.Base : simpl never.
Global Arguments filepath.Ext : simpl never.
Global Arguments filepath.Dir : simpl never.
Global Arguments filepath.Rel : simpl never.

(** * [time.Time]

    A time is the instant it denotes, in nanoseconds since the Unix epoch,
    and the offset of its location east of UTC at that instant, in
    seconds.  [After] compares instants; [Format] prints the civil reading
    in the location. *)

Record Time : Type := mkTime { unixNano : Z; zoneOffset : Z }.

Global Instance Time_eq_dec : EqDecision Time.
Proof. solve_decision. Defined.

Module time.
Local Open Scope Z_scope.

(** The zero [time.Time]: January 1, year 1, 00:00:00 UTC. *)
Definition zero : Time := mkTime (-62135596800000000000) 0.

(** [t.After(u)]. *)
Definition After (t u : Time) : bool := unixNano u <? unixNano t.

Definition digit (d : Z) : ascii := ascii_of_nat (48 + Z.to_nat d).

(** The decimal digits of [u], most significant first; none for 0. *)
Fixpoint digits (fuel : nat) (u : Z) (acc : chars) : chars :=
  match fuel with
  | O => acc
  | S fuel' =>
      if u <=? 0 then acc
      else digits fuel' (u / 10) (digit (u mod 10) :: acc)
  end.

(** [appendInt(b, x, width)]: a sign for negative [x], zero padding up
    to [width] digits, the digits. *)
Definition appendInt (x : Z) (width : nat) : chars :=
  let u := Z.abs x in
  let ds := if u =? 0 then ["0"%char] else digits (Z.to_nat u) u [] in
  (if x <? 0 then ["-"%char] else []) ++
  replicate (width - length ds) "0"%char ++ ds.

(** The civil date of a day number counted from 1970-01-01
    (proleptic Gregorian calendar). *)
Definition civilFromDays (days : Z) : Z * Z * Z :=
  let z := days + 719468 in
  let era := z / 146097 in
  let doe := z - era * 146097 in
  let yoe := (doe - doe / 1460 + doe / 36524 - doe / 146096) / 365 in
  let doy := doe - (365 * yoe + yoe / 4 - yoe / 100) in
  let mp := (5 * doy + 2) / 153 in
  let d := doy - (153 * mp + 2) / 5 + 1 in
  let m := if mp <? 10 then mp + 3 else mp - 9 in
  let y := yoe + era * 400 + (if m <=? 2 then 1 else 0) in
  (y, m, d).

(** Year, month, day, hour, minute, second of [t] in its location. *)
Definition civil (t : Time) : Z * Z * Z * Z * Z * Z :=
  let secs := unixNano t / 1000000000 + zoneOffset t in
  let '(y, m, d) := civilFromDays (secs / 86400) in
  let rem := secs mod 86400 in
  (y, m, d, rem / 3600, rem mod 3600 / 60, rem mod 60).

(** [t.Format("20060102150405")]. *)
Definition Format_20060102150405 (t : Time) : string :=
  let '(y, m, d, hh, mm, ss) := civil t in
  string_of_list_ascii
    (appendInt y 4 ++ appendInt m 2 ++ appendInt d 2 ++
     appendInt hh 2 ++ appendInt mm 2 ++ appendInt ss 2).

(** [t.Format(time.RFC3339)], layout [2006-01-02T15:04:05Z07:00]. *)
Definition Format_RFC3339 (t : Time) : string :=
  let '(y, m, d, hh, mm, ss) := civil t in
  let zone := Z.quot (zoneOffset t) 60 in
  string_of_list_ascii
    (appendInt y 4 ++ "-"%char :: appendInt m 2 ++ "-"%char :: appendInt d 2 ++
     "T"%char :: appendInt hh 2 ++ ":"%char :: appendInt mm 2 ++
     ":"%char :: appendInt ss 2 ++
     (if zoneOffset t =? 0 then ["Z"%char]
      else (if zone <? 0 then "-"%char else "+"%char) ::
           appendInt (Z.quot (Z.abs zone) 60) 2 ++
           ":"%char :: appendInt (Z.rem (Z.abs zone) 60) 2)).

End time.

(** * What a run does that can be observed

    The calls a program makes and the lines it prints, in order. *)

Inductive event : Type :=
| Printf_FailedAccessing (path : string) (err : error)
    (* fmt.Printf("Failed accessing the path %q: %v\n", path, err) *)
| Log_Print (msg : string) (err : option error)
    (* the standard logger: log.Println and the text of log.Fatal *)
| Logger_Println (msg : string) (name : string)
    (* logger.Println(msg, name) into file_error.log *)
| Call_MkdirAll (dir : string) (r : option error)
| Call_Rename (src dest : string) (r : option error)
| Call_copyFile (src dest : string) (r : option error)
| Call_WriteFile (name data : string) (r : option error).

Global Instance event_eq_dec : EqDecision event.
Proof. solve_decision. Defined.

(** * The tree below a scanned root

    What [os.Lstat] and the directory listing show of a root for the time
    of one walk: an entry that cannot be examined, a file that is not a
    directory, or a directory with the error of reading it, if any, and
    its entries by name in the order of the listing. *)

#[local] Set Warnings "-register-all".

Inductive node : Type :=
| NoStat (err : error)
| File (modTime : Time)
| Dir (modTime : Time) (readErr : option error) (entries : list (string * node)).

Definition isDirNode (n : node) : bool :=
  match n with Dir _ _ _ => true | _ => false end.

Definition isFileNode (n : node) : bool :=
  match n with File _ => true | _ => false end.

(** A name a directory listing can hold: not empty, no separator, neither
    [.] nor [..]. *)
Definition validChars (cs : chars) : bool :=
  negb (bool_decide (cs = [])) && forallb (λ c, negb (isSep c)) cs &&
  negb (bool_decide (cs = ["."%char])) &&
  negb (bool_decide (cs = ["."%char; "."%char])).

Definition validName (name : string) : bool :=
  validChars (list_ascii_of_string name).

Fixpoint wfNode (n : node) : bool :=
  match n with
  | Dir _ _ ents => forallb (λ p, validName p.1 && wfNode p.2) ents
  | _ => true
  end.

(** [os.FileInfo], the three methods the programs call. *)
Record FileInfo : Type := mkFileInfo {
  info_Name : string;
  info_ModTime : Time;
  info_IsDir : bool
}.

(** The result of [os.Lstat(path)] on a node: the name of the info is the
    last element of the path. *)
Definition Lstat (path : string) (n : node) : option FileInfo * option error :=
  match n with
  | NoStat e => (None, Some e)
  | File mt => (Some (mkFileInfo (filepath.Base path) mt false), None)
  | Dir mt _ _ => (Some (mkFileInfo (filepath.Base path) mt true), None)
  end.

(** * [filepath.Walk] *)

Section Walk.
Context {S : Type}.

(** [filepath.WalkFunc], with the variables the closure updates as an
    explicit state. *)
Definition WalkFunc : Type :=
  string → option FileInfo → option error → S → S * option error.

Variable walkFn : WalkFunc.

(** [walk]: a non-directory is handed to the function; a directory is
    handed to it with the error of reading its names and then, unless
    either error is set, its entries are walked in order.  An entry
    whose [Lstat] fails is handed to the function with that error (the
    first case below, reached through the loop), and only an error
    other than [SkipDir] stops the loop; the error of walking an entry
    stops the loop unless the entry is a directory and the error is
    [SkipDir]. *)
Fixpoint walk (path : string) (n : node) (s : S) {struct n} : S * option error :=
  match n with
  | NoStat e => walkFn path None (Some e) s
  | File _ => walkFn path (Lstat path n).1 None s
  | Dir _ readErr names =>
      let '(s1, err1) := walkFn path (Lstat path n).1 readErr s in
      match readErr, err1 with
      | None, None =>
          (fix walkNames (names : list (string * node)) (s : S) : S * option error :=
             match names with
             | [] => (s, None)
             | (name, child) :: rest =>
                 let filename := filepath.Join [path; name] in
                 let '(s', err) := walk filename child s in
                 match err with
                 | None => walkNames rest s'
                 | Some e =>
                     match child with
                     | NoStat _ =>
                         if decide (e = SkipDir) then walkNames rest s'
                         else (s', Some e)
                     | _ =>
                         if negb (isDirNode child) || negb (bool_decide (e = SkipDir))
                         then (s', Some e)
                         else walkNames rest s'
                     end
                 end
             end) names s1
      | _, _ => (s1, err1)
      end
  end.

(** The loop over the names of a directory, as a function of its own. *)
Fixpoint walkNames (path : string) (names : list (string * node)) (s : S)
  : S * option error :=
  match names with
  | [] => (s, None)
  | (name, child) :: rest =>
      let filename := filepath.Join [path; name] in
      let '(s', err) := walk filename child s in
      match err with
      | None => walkNames path rest s'
      | Some e =>
          match child with
          | NoStat _ =>
              if decide (e = SkipDir) then walkNames path rest s'
              else (s', Some e)
          | _ =>
              if negb (isDirNode child) || negb (bool_decide (e = SkipDir))
              then (s', Some e)
              else walkNames path rest s'
          end
      end
  end.

(** [filepath.Walk]: the root is examined with [Lstat]; [SkipDir] and
    [SkipAll] coming out of the walk are not errors. *)
Definition Walk (root : string) (tree : node) (s : S) : S * option error :=
  let '(s', err) :=
    match Lstat root tree with
    | (_, Some e) => walkFn root None (Some e) s
    | (_, None) => walk root tree s
    end in
  (s', match err with
       | Some SkipDir | Some SkipAll => None
       | _ => err
       end).

End Walk.

(** * The operating system and the libraries with side effects *)

(** A Go result [(value, err)]. *)
Inductive res (A : Type) : Type :=
| Ok (a : A)
| Failed (err : error).
Arguments Ok {A} a.
Arguments Failed {A} err.

(** [pathsConfig]. *)
Record pathsConfig : Type := mkPathsConfig {
  InputPath : string;
  OutputPath : string
}.

(** The system calls and library functions the programs use, over a type
    of worlds and a type of open files.  Nothing is assumed of them. *)
Class OS (World Handle : Type) : Type := {
  time_Now : World → Time;
  os_ReadFile : string → World → res string;
  os_WriteFile : string → string → N → World → World * option error;
  os_Stat : string → World → option error;
  os_MkdirAll : string → N → World → World * option error;
  os_Rename : string → string → World → World * option error;
  os_Open : string → World → World * res Handle;
  os_Create : string → World → World * res Handle;
  os_OpenFile_append : string → N → World → World * res Handle;
  io_Copy : Handle → Handle → World → World * option error;
  file_Close : Handle → World → World;
  file_WriteLine : Handle → string → World → World;
  (** the tree [filepath.Walk] finds below a root *)
  fs_tree : string → World → node;
  json_Unmarshal : string → res pathsConfig;
  time_Parse_RFC3339 : string → res Time
}.

Definition perm0755 : N := 493.
Definition perm0644 : N := 420.

(** ** The monad of a run *)

Inductive outcome (A : Type) : Type :=
| Returned (a : A)
| Exited (code : Z).
Arguments Returned {A} a.
Arguments Exited {A} code.

Record result (World A : Type) : Type := mkResult {
  outcome_of : outcome A;
  world_of : World;
  trace_of : list event
}.
Arguments mkResult {World A}.
Arguments outcome_of {World A}.
Arguments world_of {World A}.
Arguments trace_of {World A}.

Definition M (World A : Type) : Type := World → result World A.

Section Monad.
Context {World : Type}.

Definition ret {A} (a : A) : M World A := λ w, mkResult (Returned a) w [].

Definition bind {A B} (m : M World A) (k : A → M World B) : M World B :=
  λ w,
    let r := m w in
    match outcome_of r with
    | Returned a =>
        let r' := k a (world_of r) in
        mkResult (outcome_of r') (world_of r') (trace_of r ++ trace_of r')
    | Exited code => mkResult (Exited code) (world_of r) (trace_of r)
    end.

(** [os.Exit(code)]: nothing after it runs, deferred calls included. *)
Definition exit {A} (code : Z) : M World A := λ w, mkResult (Exited code) w [].

Definition emit (e : event) : M World unit := λ w, mkResult (Returned tt) w [e].

(** A call that reads the world. *)
Definition reads {A} (f : World → A) : M World A :=
  λ w, mkResult (Returned (f w)) w [].

(** A call that changes the world. *)
Definition calls {A} (f : World → World * A) : M World A :=
  λ w, let '(w', a) := f w in mkResult (Returned a) w' [].

Definition modifies (f : World → World) : M World unit :=
  λ w, mkResult (Returned tt) (f w) [].

End Monad.

Declare Scope run_scope.
Delimit Scope run_scope with run.
Notation "'let*' x ':=' m 'in' k" := (bind m (λ x, k))
  (at level 10, x pattern, m at level 100, k at level 200) : run_scope.
Notation "m ';;;' k" := (bind m (λ _, k))
  (at level 100, k at level 200, right associativity) : run_scope.
Local Open Scope run_scope.

Section Programs.
Context {World Handle : Type} `{os : OS World Handle}.

(** A call recorded in the trace with its result. *)
Definition traced {A} (ev : A → event) (m : M World A) : M World A :=
  let* a := m in emit (ev a) ;;; ret a.

(** [log.Fatal(msg, err)]: print, then [os.Exit(1)]. *)
Definition log_Fatal {A} (msg : string) (err : error) : M World A :=
  emit (Log_Print msg (Some err)) ;;; exit 1.

(** A loop [for _, x := range l { body }]. *)
Fixpoint forRange {A} (l : list A) (body : A → M World unit) : M World unit :=
  match l with
  | [] => ret tt
  | x :: rest => body x ;;; forRange rest body
  end.

(** [copyFile] (the same in both programs); the deferred [Close] calls
    run last opened first. *)
Definition copyFile (src dest : string) : M World (option error) :=
  let* in_ := calls (os_Open src) in
  match in_ with
  | Failed err => ret (Some err)
  | Ok in_ =>
      let* out := calls (os_Create dest) in
      match out with
      | Failed err => modifies (file_Close in_) ;;; ret (Some err)
      | Ok out =>
          let* err := calls (io_Copy out in_) in
          modifies (file_Close out) ;;;
          modifies (file_Close in_) ;;;
          ret err
      end
  end.

(** [createIfNotExist] (the same in both programs). *)
Definition createIfNotExist (dir : string) : M World unit :=
  let* err := reads (os_Stat dir) in
  if IsNotExist err then
    let* errDir := traced (Call_MkdirAll dir) (calls (os_MkdirAll dir perm0755)) in
    match errDir with
    | Some e => emit (Log_Print "Error creating directory" (Some e)) ;;; exit 1
    | None => ret tt
    end
  else ret tt.

(** [moveToTrash] (the same in both programs). *)
Definition moveToTrash (src dest : string) : M World (option error) :=
  traced (Call_Rename src dest) (calls (os_Rename src dest)).

(** [logger.Println(msg, name)] on the logger of file_error.log. *)
Definition logger_Println (f : Handle) (msg name : string) : M World unit :=
  emit (Logger_Println msg name) ;;;
  modifies (file_WriteLine f (msg +:+ " " +:+ name)).

End Programs.

(** * The incremental program, [src/main.go] *)

Module Incremental.

(** [filesData]. *)
Record filesData : Type := mkFilesData {
  Name : string;
  Location : string;
  ModTime : Time;
  New : bool
}.

Global Instance filesData_eq_dec : EqDecision filesData.
Proof. solve_decision. Defined.

(** [filesData{}]. *)
Definition zeroFilesData : filesData := mkFilesData "" "" time.zero false.

(** [visitFileInfos]: the line printed, if any, and the two results.
    [filepath.Walk] passes a nil [info] only together with an error, so
    the last case, where Go would call a method of a nil [info], is never
    reached from [gatherFiles]. *)
Definition visitFileInfos (path : string) (info : option FileInfo)
    (err : option error) (lastRun : option Time)
  : list event * (filesData * bool) :=
  match err, info with
  | Some e, _ => ([Printf_FailedAccessing path e], (zeroFilesData, false))
  | None, Some info =>
      if info_IsDir info then ([], (zeroFilesData, false))
      else
        let new :=
          match lastRun with
          | None => true
          | Some lastRun => time.After (info_ModTime info) lastRun
          end in
        ([], (mkFilesData (info_Name info) path (info_ModTime info) new, true))
  | None, None => ([], (zeroFilesData, false))
  end.

(** The function literal handed to [filepath.Walk] in [gatherFiles];
    the state is the slice [files] and what was printed. *)
Definition gatherFn (lastRun : option Time)
  : WalkFunc (S := list filesData * list event) :=
  λ path info err '(files, printed),
    if decide (filepath.Base path = "trash")
    then ((files, printed), Some SkipDir)
         (* ignore the trash folder when walking through the directory *)
    else
      let '(out, (fileinfo, ok)) := visitFileInfos path info err lastRun in
      ((if ok then files ++ [fileinfo] else files, printed ++ out), None).

(** [gatherFiles], on the tree found below [path]: the files, the error,
    and the lines printed. *)
Definition gatherFiles (path : string) (tree : node) (lastRun : option Time)
  : list filesData * option error * list event :=
  let '((files, printed), err) := Walk (gatherFn lastRun) path tree ([], []) in
  (files, err, printed).

(** The timestamped name and the path in the trash of an output file
    with no input file (lines 145-149 of [main]). *)
Definition trashNewName (processStart : Time) (output : filesData) : string :=
  let fileExtension := filepath.Ext (Name output) in
  let fileName := TrimSuffix (Name output) fileExtension in
  let timeStamp := "." +:+ time.Format_20060102150405 processStart in
  fileName +:+ timeStamp +:+ fileExtension.

Definition trashNewPath (trashPath : string) (processStart : Time)
    (output : filesData) : string :=
  filepath.Join [trashPath; trashNewName processStart output].

(** The map of the input files by relative path (lines 128-133). *)
Definition buildInFilesMap (config : pathsConfig) (filesInInputPath : list filesData)
  : gmap string filesData :=
  fold_left
    (λ (m : gmap string filesData) file,
       let relativePath := (filepath.Rel (InputPath config) (Location file)).1 in
       <[relativePath := file]> m)
    filesInInputPath ∅.

Section Main.
Context {World Handle : Type} `{os : OS World Handle}.

(** [gatherFiles] run on the world. *)
Definition gatherFilesIn (path : string) (lastRun : option Time)
  : M World (list filesData * option error) :=
  λ w,
    let '(files, err, printed) := gatherFiles path (fs_tree path w) lastRun in
    mkResult (Returned (files, err)) w printed.

(** Lines 109-116: the time of the last run, nil when time.txt cannot
    be read or parsed. *)
Definition loadLastRun : M World (option Time) :=
  let* data := reads (os_ReadFile "./time.txt") in
  match data with
  | Ok data =>
      match time_Parse_RFC3339 data with
      | Ok date => ret (Some date)
      | Failed _ => ret None
      end
  | Failed _ => ret None
  end.

(** Lines 142-156: output files with no input file go to the trash. *)
Definition trashBody (config : pathsConfig) (trashPath : string)
    (processStart : Time) (inFilesMap : gmap string filesData)
    (logger : Handle) (output : filesData) : M World unit :=
  let relativePath := (filepath.Rel (OutputPath config) (Location output)).1 in
  match inFilesMap !! relativePath with
  | Some _ => ret tt
  | None =>
      let newPath := trashNewPath trashPath processStart output in
      createIfNotExist (filepath.Dir newPath) ;;;
      let* err := moveToTrash (Location output) newPath in
      match err with
      | Some _ => logger_Println logger "Failed moving file to trash: " (Name output)
      | None => ret tt
      end
  end.

(** Lines 158-171: new input files are copied. *)
Definition copyBody (config : pathsConfig) (logger : Handle)
    (input : filesData) : M World unit :=
  if New input then
    let relativePath := (filepath.Rel (InputPath config) (Location input)).1 in
    let source := filepath.Join [InputPath config; relativePath] in
    let destination := filepath.Join [OutputPath config; relativePath] in
    createIfNotExist (filepath.Dir destination) ;;;
    let* err := traced (Call_copyFile source destination)
                       (copyFile source destination) in
    match err with
    | Some _ => logger_Println logger "Failed copying file: " (Name input)
    | None => ret tt
    end
  else ret tt.

(** Lines 173-176: the start of this run is written to time.txt. *)
Definition saveRunTime (processStart : Time) : M World unit :=
  let data := time.Format_RFC3339 processStart in
  let* err := traced (Call_WriteFile "./time.txt" data)
                     (calls (os_WriteFile "./time.txt" data perm0644)) in
  match err with
  | Some e => log_Fatal "Failed updating time.txt: " e
  | None => ret tt
  end.

(** [main] from line 118 on, once the configuration, the trash path
    and the last run are known. *)
Definition mainFrom (processStart : Time) (config : pathsConfig)
    (trashPath : string) (lastRun : option Time) : M World unit :=
  let* (filesInInputPath, err) := gatherFilesIn (InputPath config) lastRun in
  match err with
  | Some e => log_Fatal "Unable to gather files from input path: " e
  | None =>
      let* (filesInOutputPath, err) := gatherFilesIn (OutputPath config) None in
      match err with
      | Some e => log_Fatal "Unable to gather files from output path: " e
      | None =>
          let inFilesMap := buildInFilesMap config filesInInputPath in
          let* f := calls (os_OpenFile_append "file_error.log" perm0644) in
          match f with
          | Failed e => log_Fatal "Failed opening file_error.log: " e
          | Ok f =>
              forRange filesInOutputPath
                (trashBody config trashPath processStart inFilesMap f) ;;;
              forRange filesInInputPath (copyBody config f) ;;;
              saveRunTime processStart ;;;
              modifies (file_Close f)       (* defer f.Close() *)
          end
      end
  end.

(** [main]. *)
Definition main : M World unit :=
  let* processStart := reads time_Now in
  let* data := reads (os_ReadFile "./path.json") in
  match data with
  | Failed e => log_Fatal "Failed reading path.json: " e
  | Ok data =>
      match json_Unmarshal data with
      | Failed e => log_Fatal "Failed parsing path.json: " e
      | Ok config =>
          createIfNotExist (OutputPath config) ;;;
          let trashPath := filepath.Join [OutputPath config; "trash"] in
          createIfNotExist trashPath ;;;
          let* lastRun := loadLastRun in
          mainFrom processStart config trashPath lastRun
      end
  end.

End Main.

(** ** Names for the statements about [main] *)

(** The key of an input file and of an output file: its path relative
    to its root, the error of [filepath.Rel] dropped as [main] does. *)
Definition relIn (config : pathsConfig) (file : filesData) : string :=
  (filepath.Rel (InputPath config) (Location file)).1.

Definition relOut (config : pathsConfig) (file : filesData) : string :=
  (filepath.Rel (OutputPath config) (Location file)).1.


(** An output file whose key is not in the map of the input files. *)
Definition isOrphan (config : pathsConfig) (inFilesMap : gmap string filesData)
    (output : filesData) : bool :=
  bool_decide (inFilesMap !! relOut config output = None).

(** The arguments of [moveToTrash] for an output file, and of [copyFile]
    for an input file. *)
Definition trashMove (trashPath : string) (processStart : Time)
    (output : filesData) : string * string :=
  (Location output, trashNewPath trashPath processStart output).

Definition copyArgs (config : pathsConfig) (input : filesData) : string * string :=
  (filepath.Join [InputPath config; relIn config input],
   filepath.Join [OutputPath config; relIn config input]).

(** The path in the trash as the specification words it: the trash root
    joined with the relative directory of the file and the new name. *)
Definition specTrashPath (config : pathsConfig) (trashPath : string)
    (processStart : Time) (output : filesData) : string :=
  filepath.Join [trashPath; filepath.Dir (relOut config output);
                 trashNewName processStart output].

End Incremental.

(** * The earlier program, [src/unnamed/part_000]

    No run state: every run compares the modification times of the two
    trees. *)

Module Simple.

(** [filesData]. *)
Record filesData : Type := mkFilesData {
  Name : string;
  Location : string;
  ModTime : Time
}.

Global Instance filesData_eq_dec : EqDecision filesData.
Proof. solve_decision. Defined.

Definition zeroFilesData : filesData := mkFilesData "" "" time.zero.

(** [visitFileInfos]; see [Incremental.visitFileInfos] for the last
    case. *)
Definition visitFileInfos (path : string) (info : option FileInfo)
    (err : option error) : list event * (filesData * bool) :=
  match err, info with
  | Some e, _ => ([Printf_FailedAccessing path e], (zeroFilesData, false))
  | None, Some info =>
      if info_IsDir info then ([], (zeroFilesData, false))
      else ([], (mkFilesData (info_Name info) path (info_ModTime info), true))
  | None, None => ([], (zeroFilesData, false))
  end.

Definition gatherFn : WalkFunc (S := list filesData * list event) :=
  λ path info err '(files, printed),
    if decide (filepath.Base path = "trash")
    then ((files, printed), Some SkipDir)
    else
      let '(out, (fileinfo, ok)) := visitFileInfos path info err in
      ((if ok then files ++ [fileinfo] else files, printed ++ out), None).

(** [gatherFiles]. *)
Definition gatherFiles (path : string) (tree : node)
  : list filesData * option error * list event :=
  let '((files, printed), err) := Walk gatherFn path tree ([], []) in
  (files, err, printed).

Definition trashNewName (processStart : Time) (output : filesData) : string :=
  let fileExtension := filepath.Ext (Name output) in
  let fileName := TrimSuffix (Name output) fileExtension in
  let timeStamp := "." +:+ time.Format_20060102150405 processStart in
  fileName +:+ timeStamp +:+ fileExtension.

Definition trashNewPath (trashPath : string) (processStart : Time)
    (output : filesData) : string :=
  filepath.Join [trashPath; trashNewName processStart output].

(** Lines 125-134: the two maps by relative path; a later file with the
    same key replaces an earlier one. *)
Definition buildFilesMap (root : string) (files : list filesData)
  : gmap string filesData :=
  fold_left
    (λ (m : gmap string filesData) file,
       let relativePath := (filepath.Rel root (Location file)).1 in
       <[relativePath := file]> m)
    files ∅.

Section Process.
Context {World Handle : Type} `{os : OS World Handle}.

Definition gatherFilesIn (path : string)
  : M World (list filesData * option error) :=
  λ w,
    let '(files, err, printed) := gatherFiles path (fs_tree path w) in
    mkResult (Returned (files, err)) w printed.

(** Lines 143-157. *)
Definition trashBody (config : pathsConfig) (trashPath : string)
    (processStart : Time) (inFilesMap : gmap string filesData)
    (logger : Handle) (output : filesData) : M World unit :=
  let relativePath := (filepath.Rel (OutputPath config) (Location output)).1 in
  match inFilesMap !! relativePath with
  | Some _ => ret tt
  | None =>
      let newPath := trashNewPath trashPath processStart output in
      createIfNotExist (filepath.Dir newPath) ;;;
      let* err := moveToTrash (Location output) newPath in
      match err with
      | Some _ => logger_Println logger "Failed moving file to trash: " (Name output)
      | None => ret tt
      end
  end.

(** Whether line 167 is reached: the file exists in the output
    directory and is newer there (lines 164-169). *)
Definition skipsCopy (outFilesMap : gmap string filesData)
    (relativePath : string) (input : filesData) : bool :=
  match outFilesMap !! relativePath with
  | Some output => time.After (ModTime output) (ModTime input)
  | None => false
  end.

(** Lines 159-176. *)
Definition copyBody (config : pathsConfig) (outFilesMap : gmap string filesData)
    (logger : Handle) (input : filesData) : M World unit :=
  let relativePath := (filepath.Rel (InputPath config) (Location input)).1 in
  let source := filepath.Join [InputPath config; relativePath] in
  let destination := filepath.Join [OutputPath config; relativePath] in
  if skipsCopy outFilesMap relativePath input then ret tt   (* continue *)
  else
    createIfNotExist (filepath.Dir destination) ;;;
    let* err := traced (Call_copyFile source destination)
                       (copyFile source destination) in
    match err with
    | Some _ => logger_Println logger "Failed copying file: " (Name input)
    | None => ret tt
    end.

(** [process]. *)
Definition process : M World unit :=
  let* processStart := reads time_Now in
  let* data := reads (os_ReadFile "./path.json") in
  match data with
  | Failed e => log_Fatal "Failed reading path.json: " e
  | Ok data =>
  match json_Unmarshal data with
  | Failed e => log_Fatal "Failed parsing path.json: " e
  | Ok config =>
      createIfNotExist (OutputPath config) ;;;
      let trashPath := filepath.Join [OutputPath config; "trash"] in
      createIfNotExist trashPath ;;;
      let* (filesInInputPath, err) := gatherFilesIn (InputPath config) in
      match err with
      | Some e => log_Fatal "Unable to gather files from input path: " e
      | None =>
      let* (filesInOutputPath, err) := gatherFilesIn (OutputPath config) in
      match err with
      | Some e => log_Fatal "Unable to gather files from output path: " e
      | None =>
          let inFilesMap := buildFilesMap (InputPath config) filesInInputPath in
          let outFilesMap := buildFilesMap (OutputPath config) filesInOutputPath in
          let* f := calls (os_OpenFile_append "file_error.log" perm0644) in
          match f with
          | Failed e => log_Fatal "Failed opening file_error.log: " e
          | Ok f =>
              forRange filesInOutputPath
                (trashBody config trashPath processStart inFilesMap f) ;;;
              forRange filesInInputPath (copyBody config outFilesMap f) ;;;
              modifies (file_Close f)       (* defer f.Close() *)
          end
      end
      end
  end
  end.

(** [main] runs [process] once and then again at every tick of a
    five-minute ticker, without end; here its first [ticks] ticks. *)
Fixpoint mainTicks (ticks : nat) : M World unit :=
  match ticks with
  | O => process
  | Datatypes.S n => mainTicks n ;;; process
  end.

End Process.

(** ** Names for the statements about [process] *)

Definition relIn (config : pathsConfig) (file : filesData) : string :=
  (filepath.Rel (InputPath config) (Location file)).1.

Definition copyArgs (config : pathsConfig) (input : filesData) : string * string :=
  (filepath.Join [InputPath config; relIn config input],
   filepath.Join [OutputPath config; relIn config input]).

End Simple.

(** * A small file system to run the programs on

    Files by path with their content, the directories [os.Stat] does not
    find, the directories [os.MkdirAll] is refused, the paths that cannot
    be written, and the tree below each root that can be scanned.  An open
    file is its path. *)

Module Sim.

Record World : Type := mkWorld {
  clock : Time;
  files : list (string * string);
  missingDirs : list string;
  deniedDirs : list string;
  readOnly : list string;
  trees : list (string * node)
}.

Fixpoint lookup {A} (k : string) (l : list (string * A)) : option A :=
  match l with
  | [] => None
  | (k', a) :: l' => if decide (k = k') then Some a else lookup k l'
  end.

Fixpoint remove {A} (k : string) (l : list (string * A)) : list (string * A) :=
  match l with
  | [] => []
  | (k', a) :: l' => if decide (k = k') then remove k l' else (k', a) :: remove k l'
  end.

Definition store (k data : string) (w : World) : World :=
  mkWorld (clock w) ((k, data) :: remove k (files w))
          (missingDirs w) (deniedDirs w) (readOnly w) (trees w).

Definition unlink (k : string) (w : World) : World :=
  mkWorld (clock w) (remove k (files w))
          (missingDirs w) (deniedDirs w) (readOnly w) (trees w).

Definition has (k : string) (l : list string) : bool := bool_decide (k ∈ l).

Definition ReadFile (name : string) (w : World) : res string :=
  match lookup name (files w) with
  | Some data => Ok data
  | None => Failed ErrNotExist
  end.

Definition WriteFile (name data : string) (perm : N) (w : World)
  : World * option error :=
  if has name (readOnly w) then (w, Some ErrPermission)
  else (store name data w, None).

Definition Stat (dir : string) (w : World) : option error :=
  if has dir (missingDirs w) then Some ErrNotExist else None.

Definition MkdirAll (dir : string) (perm : N) (w : World) : World * option error :=
  if has dir (deniedDirs w) then (w, Some ErrPermission)
  else (mkWorld (clock w) (files w)
                (filter (λ d, d ≠ dir) (missingDirs w))
                (deniedDirs w) (readOnly w) (trees w), None).

(** [rename(2)]: the destination is replaced if it exists. *)
Definition Rename (src dest : string) (w : World) : World * option error :=
  match lookup src (files w) with
  | Some data =>
      if has dest (readOnly w) then (w, Some ErrPermission)
      else (store dest data (unlink src w), None)
  | None => (w, Some ErrNotExist)
  end.

Definition Open (name : string) (w : World) : World * res string :=
  match lookup name (files w) with
  | Some _ => (w, Ok name)
  | None => (w, Failed ErrNotExist)
  end.

Definition Create (name : string) (w : World) : World * res string :=
  if has name (readOnly w) then (w, Failed ErrPermission)
  else (store name "" w, Ok name).

Definition OpenFile_append (name : string) (perm : N) (w : World)
  : World * res string :=
  if has name (readOnly w) then (w, Failed ErrPermission)
  else match lookup name (files w) with
       | Some _ => (w, Ok name)
       | None => (store name "" w, Ok name)
       end.

Definition Copy (dst src : string) (w : World) : World * option error :=
  match lookup src (files w) with
  | Some data => (store dst data w, None)
  | None => (w, Some (ErrOther "read"))
  end.

Definition WriteLine (f line : string) (w : World) : World :=
  store f (default "" (lookup f (files w)) +:+ line +:+ String "010"%char "") w.

Definition tree (root : string) (w : World) : node :=
  default (NoStat ErrNotExist) (lookup root (trees w)).

(** A stand-in for the JSON decoder: the two paths, separated by white
    space. *)
Definition Unmarshal (data : string) : res pathsConfig :=
  match String.words data with
  | [i; o] => Ok (mkPathsConfig i o)
  | _ => Failed (ErrOther "unexpected end of JSON input")
  end.

(** A stand-in for [time.Parse]: it knows the whole minutes of the first
    days of 2024, in UTC. *)
Definition Parse (value : string) : res Time :=
  match
    List.find (λ t, bool_decide (time.Format_RFC3339 t = value))
              ((λ m : nat, mkTime ((1704067200 + 60 * Z.of_nat m) * 1000000000) 0)
                 <$> seq 0 3000)
  with
  | Some t => Ok t
  | None => Failed (ErrOther "parsing time: cannot parse")
  end.

Global Instance sim_os : OS World string := {|
  time_Now := clock;
  os_ReadFile := ReadFile;
  os_WriteFile := WriteFile;
  os_Stat := Stat;
  os_MkdirAll := MkdirAll;
  os_Rename := Rename;
  os_Open := Open;
  os_Create := Create;
  os_OpenFile_append := OpenFile_append;
  io_Copy := Copy;
  file_Close := λ _ w, w;
  file_WriteLine := WriteLine;
  fs_tree := tree;
  json_Unmarshal := Unmarshal;
  time_Parse_RFC3339 := Parse
|}.

End Sim.

(** * Sample worlds *)

Module Sample.
Import Sim.

(** 2024-01-02 03:04:05 UTC, the start of the sample runs, and five
    seconds before it. *)
Definition start : Time := mkTime 1704164645000000000 0.
Definition earlier : Time := mkTime 1704164640000000000 0.

Definition dir (entries : list (string * node)) : node := Dir earlier None entries.

Definition inputTree : node :=
  dir [("a.txt", File earlier); ("sub", dir [("b.txt", File start)])].

(** Two files named old.txt in two directories, and a file in the
    trash. *)
Definition outputTree : node :=
  dir [("sub", dir [("old.txt", File earlier)]);
       ("trash", dir [("z.txt", File earlier)]);
       ("x", dir [("old.txt", File earlier)])].

Definition world : World :=
  mkWorld start
    [("./path.json", "in out"); ("in/a.txt", "A"); ("in/sub/b.txt", "B");
     ("out/sub/old.txt", "first"); ("out/x/old.txt", "second");
     ("out/trash/z.txt", "Z")]
    [] [] []
    [("in", inputTree); ("out", outputTree)].


(** The input file a.txt is listed but cannot be opened. *)
Definition unreadableWorld : World :=
  mkWorld start
    [("./path.json", "in out"); ("in/sub/b.txt", "B")]
    ["out/sub"] [] []
    [("in", inputTree); ("out", dir [])].

(** time.txt cannot be written. *)
Definition readOnlyWorld : World :=
  mkWorld start
    [("./path.json", "in out"); ("in/a.txt", "A"); ("in/sub/b.txt", "B")]
    [] [] ["./time.txt"]
    [("in", inputTree); ("out", dir [])].

(** The input root does not exist. *)
Definition noInputWorld : World :=
  mkWorld start
    [("./path.json", "in out"); ("out/sub/old.txt", "first");
     ("out/x/old.txt", "second"); ("out/trash/z.txt", "Z")]
    [] [] []
    [("out", outputTree)].

(** A later run: time.txt holds the start of a run five seconds before. *)
Definition laterWorld : World :=
  mkWorld start
    [("./path.json", "in out"); ("./time.txt", "2024-01-02T03:04:00Z");
     ("in/a.txt", "A"); ("in/sub/b.txt", "B");
     ("out/a.txt", "A")]
    ["out/sub"] [] []
    [("in", inputTree); ("out", dir [("a.txt", File earlier)])].

Definition config : pathsConfig := mkPathsConfig "in" "out".

(** The scans of the two trees, the input tree with a last run five
    seconds before the start. *)
Definition inputs : list Incremental.filesData :=
  (Incremental.gatherFiles "in" inputTree (Some earlier)).1.1.

Definition outputs : list Incremental.filesData :=
  (Incremental.gatherFiles "out" outputTree None).1.1.

(** The records of the two files named old.txt. *)
Definition old1 : Incremental.filesData :=
  Incremental.mkFilesData "old.txt" "out/sub/old.txt" earlier true.

Definition old2 : Incremental.filesData :=
  Incremental.mkFilesData "old.txt" "out/x/old.txt" earlier true.



End Sample.

(** * Reading a trace *)

(** The source and destination of every [os.Rename] made, in order. *)
Definition renames (tr : list event) : list (string * string) :=
  omap (λ e, match e with Call_Rename src dest _ => Some (src, dest) | _ => None end) tr.

(** The source and destination of every [copyFile] call, in order,
    whatever it returned. *)
Definition copies (tr : list event) : list (string * string) :=
  omap (λ e, match e with Call_copyFile src dest _ => Some (src, dest) | _ => None end) tr.

(** The directories [os.MkdirAll] failed to create. *)
Definition mkdirFailures (tr : list event) : list string :=
  omap (λ e, match e with Call_MkdirAll dir (Some _) => Some dir | _ => None end) tr.

(** Every [os.WriteFile] made, with its result. *)
Definition writes (tr : list event) : list (string * string * option error) :=
  omap (λ e, match e with Call_WriteFile name data r => Some (name, data, r) | _ => None end) tr.

(** * Paths below a root *)

(** The path [filepath.Walk] builds for the entry reached from [root]
    through the names [names]. *)
Definition joinAll (root : string) (names : list string) : string :=
  fold_left (λ path name, filepath.Join [path; name]) names root.

(** [reaches tree names n]: following [names] through the directories of
    [tree] leads to [n]. *)
Inductive reaches : node → list string → node → Prop :=
| reaches_here n : reaches n [] n
| reaches_down mt rd ents name child names n :
    (name, child) ∈ ents →
    reaches child names n →
    reaches (Dir mt rd ents) (name :: names) n.

(** A tree with a hole: the directories from the root down to one entry,
    each with the entries before and after the one that is followed. *)
Record frame : Type := mkFrame {
  frame_modTime : Time;
  frame_readErr : option error;
  frame_before : list (string * node);
  frame_name : string;
  frame_after : list (string * node)
}.

Fixpoint plug (ctx : list frame) (n : node) : node :=
  match ctx with
  | [] => n
  | f :: ctx' =>
      Dir (frame_modTime f) (frame_readErr f)
          (frame_before f ++ (frame_name f, plug ctx' n) :: frame_after f)
  end.

(** The shape the function literals of the two [gatherFiles] share: skip
    at a path whose last element is "trash", otherwise append what the
    visit accepts. *)
Definition gatherWith {A}
    (visit : string → option FileInfo → option error → list event * (A * bool))
  : WalkFunc (S := list A * list event) :=
  λ path info err '(files, printed),
    if decide (filepath.Base path = "trash")
    then ((files, printed), Some SkipDir)
    else
      let '(out, (fileinfo, ok)) := visit path info err in
      ((if ok then files ++ [fileinfo] else files, printed ++ out), None).

(** * What a scan finds, read off the tree *)

(** The files a scan records below [path], with their paths and times, in
    the order of the walk: a directory that cannot be read and an entry
    that cannot be examined give none; an entry named "trash" is passed
    over if it is a directory (or cannot be examined) and ends the
    directory that holds it if it is a file. *)
Fixpoint filesBelow (path : string) (n : node) : list (string * Time) :=
  match n with
  | NoStat _ => []
  | File mt => [(path, mt)]
  | Dir _ (Some _) _ => []
  | Dir _ None names =>
      (fix below (names : list (string * node)) : list (string * Time) :=
         match names with
         | [] => []
         | (name, child) :: rest =>
             if decide (name = "trash")
             then if isFileNode child then [] else below rest
             else filesBelow (filepath.Join [path; name]) child ++ below rest
         end) names
  end.

Fixpoint filesBelowNames (path : string) (names : list (string * node))
  : list (string * Time) :=
  match names with
  | [] => []
  | (name, child) :: rest =>
      if decide (name = "trash")
      then if isFileNode child then [] else filesBelowNames path rest
      else filesBelow (filepath.Join [path; name]) child ++
           filesBelowNames path rest
  end.

(** The lines a scan prints below [path]: one for every entry it comes to
    that cannot be examined and every directory it comes to that cannot
    be read. *)
Fixpoint printedBelow (path : string) (n : node) : list event :=
  match n with
  | NoStat e => [Printf_FailedAccessing path e]
  | File _ => []
  | Dir _ (Some e) _ => [Printf_FailedAccessing path e]
  | Dir _ None names =>
      (fix below (names : list (string * node)) : list event :=
         match names with
         | [] => []
         | (name, child) :: rest =>
             if decide (name = "trash")
             then if isFileNode child then [] else below rest
             else printedBelow (filepath.Join [path; name]) child ++ below rest
         end) names
  end.

Fixpoint printedBelowNames (path : string) (names : list (string * node))
  : list event :=
  match names with
  | [] => []
  | (name, child) :: rest =>
      if decide (name = "trash")
      then if isFileNode child then [] else printedBelowNames path rest
      else printedBelow (filepath.Join [path; name]) child ++
           printedBelowNames path rest
  end.

(** The flag [new] of [visitFileInfos]. *)
Definition isNew (lastRun : option Time) (modTime : Time) : bool :=
  match lastRun with
  | None => true
  | Some lastRun => time.After modTime lastRun
  end.

(** The record [visitFileInfos] makes of a file at [path]. *)
Definition recordOf (lastRun : option Time) (file : string * Time)
  : Incremental.filesData :=
  Incremental.mkFilesData (filepath.Base file.1) file.1 file.2
                          (isNew lastRun file.2).

Definition simpleRecordOf (file : string * Time) : Simple.filesData :=
  Simple.mkFilesData (filepath.Base file.1) file.1 file.2.

(** [visible tree names mt]: a file with modification time [mt] is at
    [names] below [tree], through directories that can be read and by
    names other than trash, no file named trash being listed before the
    name followed in any of them. *)
Inductive visible : node → list string → Time → Prop :=
| visible_file mt : visible (File mt) [] mt
| visible_entry mtd before name child after names mt :
    name ≠ "trash" →
    Forall (λ p : string * node, ¬ (p.1 = "trash" ∧ isFileNode p.2 = true)) before →
    visible child names mt →
    visible (Dir mtd None (before ++ (name, child) :: after)) (name :: names) mt.

(** ** Names for the statements about [process], continued *)

Definition simpleRelOut (config : pathsConfig) (file : Simple.filesData) : string :=
  (filepath.Rel (OutputPath config) (Simple.Location file)).1.

(** An output file whose key is not in the map of the input files. *)
Definition simpleIsOrphan (config : pathsConfig)
    (inFilesMap : gmap string Simple.filesData) (output : Simple.filesData) : bool :=
  bool_decide (inFilesMap !! simpleRelOut config output = None).

(** The arguments of [moveToTrash] for an output file. *)
Definition simpleTrashMove (trashPath : string) (processStart : Time)
    (output : Simple.filesData) : string * string :=
  (Simple.Location output, Simple.trashNewPath trashPath processStart output).

(** * More to read in a trace *)

(** The lines written to file_error.log: message and file name. *)
Definition logged (tr : list event) : list (string * string) :=
  omap (λ e, match e with Logger_Println msg name => Some (msg, name) | _ => None end) tr.

(** For every [os.Rename] and [copyFile] call that returned an error, in
    order, the message [main] logs for it. *)
Definition failureMessages (tr : list event) : list string :=
  omap (λ e, match e with
             | Call_Rename _ _ (Some _) => Some "Failed moving file to trash: "
             | Call_copyFile _ _ (Some _) => Some "Failed copying file: "
             | _ => None
             end) tr.

(** The directories [os.MkdirAll] was called for. *)
Definition mkdirs (tr : list event) : list string :=
  omap (λ e, match e with Call_MkdirAll dir _ => Some dir | _ => None end) tr.

(** Lines 142-176 of [main] as one program: the two loops, the writing
    of time.txt and the deferred [Close]. *)
Definition mainPhases {World Handle : Type} `{os : OS World Handle}
    (config : pathsConfig) (trashPath : string) (processStart : Time)
    (inFilesMap : gmap string Incremental.filesData) (f : Handle)
    (filesInOutputPath filesInInputPath : list Incremental.filesData)
  : M World unit :=
  forRange filesInOutputPath
    (Incremental.trashBody config trashPath processStart inFilesMap f) ;;;
  forRange filesInInputPath (Incremental.copyBody config f) ;;;
  Incremental.saveRunTime processStart ;;;
  modifies (file_Close f).

(** * Cleaned paths *)

Definition dotdot : chars := ["."%char; "."%char].

(** A cleaned path written out from whether it is rooted and its
    elements. *)
Definition render (rooted : bool) (comps : list chars) : chars :=
  if rooted then "/"%char :: joinSep comps
  else match joinSep comps with [] => ["."%char] | _ => joinSep comps end.

(** Whether a path is rooted, and the elements [filepath.Clean] leaves of
    it. *)
Definition normalForm (path : chars) : bool * list chars :=
  match path with
  | [] => (false, [])
  | c0 :: _ =>
      (isSep c0,
       rev (fold_left (filepath.cleanStep (isSep c0)) (splitSep path) []))
  end.

(** The stack of [filepath.Clean] (top first) holds names, above [..]
    elements only, and no [..] element in a rooted path. *)
Definition normalStack (rooted : bool) (stack : list chars) : Prop :=
  ∃ k names,
    stack = names ++ replicate k dotdot ∧
    Forall (λ c, validChars c = true) names ∧
    (rooted = true → k = 0).

(** The names joined with the separator. *)
Definition joined (names : list string) : string :=
  string_of_list_ascii (joinSep (list_ascii_of_string <$> names)).

(** * Lemmas on paths *)

Section PathLemmas.
Import filepath.

Lemma validChars_spec cs :
  validChars cs = true →
  cs ≠ [] ∧ Forall (λ c, isSep c = false) cs ∧
  cs ≠ ["."%char] ∧ cs ≠ ["."%char; "."%char].
Proof.
  unfold validChars. rewrite !andb_true_iff, !negb_true_iff, !bool_decide_eq_false.
  intros [[[H1 H2] H3] H4]. repeat split; auto.
  apply Forall_forall. intros c Hc%list_elem_of_In.
  rewrite forallb_forall in H2. specialize (H2 c Hc).
  by apply negb_true_iff in H2.
Qed.

Lemma splitSep_nonempty cs : splitSep cs ≠ [].
Proof.
  destruct cs as [|c cs]; simpl; [done|].
  destruct (isSep c); [done|]. by destruct (splitSep cs).
Qed.

Lemma splitSep_nosep n :
  Forall (λ c, isSep c = false) n → splitSep n = [n].
Proof.
  induction 1 as [|c n Hc _ IH]; simpl; [done|]. by rewrite Hc, IH.
Qed.

Lemma splitSep_app_sep p n :
  Forall (λ c, isSep c = false) n →
  splitSep (p ++ "/"%char :: n) = splitSep p ++ [n].
Proof.
  intros Hn. induction p as [|c p IH]; simpl.
  - by rewrite splitSep_nosep.
  - destruct (isSep c); rewrite IH; [done|].
    pose proof (splitSep_nonempty p). by destruct (splitSep p).
Qed.

Lemma cleanStep_valid rooted stack n :
  validChars n = true → cleanStep rooted stack n = n :: stack.
Proof.
  intros (H1 & _ & H3 & H4)%validChars_spec. unfold cleanStep.
  repeat case_decide; congruence.
Qed.

Lemma joinSep_snoc ys n :
  joinSep (ys ++ [n]) =
  match ys with [] => n | _ => joinSep ys ++ "/"%char :: n end.
Proof.
  induction ys as [|y ys IH]; [done|].
  destruct ys as [|y' ys]; [done|].
  change (joinSep ((y :: y' :: ys) ++ [n]))
    with (y ++ "/"%char :: joinSep ((y' :: ys) ++ [n])).
  rewrite IH. change (joinSep (y :: y' :: ys))
    with (y ++ "/"%char :: joinSep (y' :: ys)).
  by rewrite <- app_assoc.
Qed.

Lemma takeElem_app_nosep n q :
  Forall (λ c, isSep c = false) n →
  (q = [] ∨ ∃ q', q = "/"%char :: q') →
  takeElem (n ++ q) = n.
Proof.
  intros Hn Hq. induction Hn as [|c n Hc _ IH]; simpl.
  - destruct Hq as [->|[q' ->]]; done.
  - by rewrite Hc, IH.
Qed.

(** The last element of a path that ends with a valid name after a
    separator, or is that name. *)
Lemma baseChars_snoc q n :
  validChars n = true →
  (q = [] ∨ ∃ q', q = q' ++ ["/"%char]) →
  baseChars (q ++ n) = n.
Proof.
  intros Hv Hq. destruct (validChars_spec _ Hv) as (Hne & Hsep & _ & _).
  unfold baseChars.
  destruct (q ++ n) as [|c0 rest] eqn:Hqn.
  { apply app_eq_nil in Hqn as [_ ->]. done. }
  rewrite <- Hqn, rev_app_distr.
  assert (Hrev : Forall (λ c, isSep c = false) (rev n)).
  { apply Forall_forall. intros c Hc%list_elem_of_In%in_rev%list_elem_of_In.
    rewrite Forall_forall in Hsep. auto. }
  assert (Hdrop : dropSeps (rev n ++ rev q) = rev n ++ rev q).
  { destruct (rev n) as [|c r] eqn:Hr.
    - apply (f_equal (@rev _)) in Hr. rewrite rev_involutive in Hr. done.
    - simpl. inversion Hrev as [|?? Hc _]; subst. by rewrite Hc. }
  rewrite Hdrop, takeElem_app_nosep; [|done|].
  - rewrite rev_involutive. by destruct n.
  - destruct Hq as [->|[q' ->]]; [by left|right].
    rewrite rev_app_distr. simpl. eauto.
Qed.

Lemma cleanChars_cons c0 rest :
  cleanChars (c0 :: rest) =
  let body := joinSep (rev (fold_left (cleanStep (isSep c0))
                                      (splitSep (c0 :: rest)) [])) in
  if isSep c0 then "/"%char :: body
  else match body with [] => ["."%char] | _ => body end.
Proof. reflexivity. Qed.

Lemma cleanChars_snoc p n :
  validChars n = true →
  ∃ q, (q = [] ∨ ∃ q', q = q' ++ ["/"%char]) ∧
       cleanChars (match p with [] => n | _ => p ++ "/"%char :: n end) = q ++ n.
Proof.
  intros Hv. destruct (validChars_spec _ Hv) as (Hne & Hsep & _ & _).
  assert (Hbody : ∀ stack : list chars,
    ∃ q, (q = [] ∨ ∃ q', q = q' ++ ["/"%char]) ∧
         joinSep (rev (n :: stack)) = q ++ n).
  { intros stack. simpl. rewrite joinSep_snoc.
    destruct (rev stack) as [|y ys] eqn:Hr.
    - exists []. by split; [left|].
    - exists (joinSep (y :: ys) ++ ["/"%char]).
      split; [right; eauto|]. by rewrite <- app_assoc. }
  destruct p as [|c0 p].
  - (* the name alone *)
    destruct n as [|c n]; [done|]. unfold cleanChars.
    rewrite splitSep_nosep by done. simpl.
    rewrite cleanStep_valid by done. simpl.
    inversion Hsep as [|?? Hc _]; subst. rewrite Hc.
    exists []. by split; [left|].
  - change ((c0 :: p) ++ "/"%char :: n) with (c0 :: (p ++ "/"%char :: n)).
    rewrite cleanChars_cons. cbv zeta.
    change (c0 :: p ++ "/"%char :: n) with ((c0 :: p) ++ "/"%char :: n).
    rewrite splitSep_app_sep by done.
    rewrite fold_left_app. cbn [fold_left].
    rewrite cleanStep_valid by done.
    destruct (Hbody (fold_left (cleanStep (isSep c0)) (splitSep (c0 :: p)) []))
      as (q & Hq & Heq).
    rewrite Heq. destruct (isSep c0).
    + exists ("/"%char :: q). split; [|done].
      right. destruct Hq as [->|[q' ->]]; [by exists []|by exists ("/"%char :: q')].
    + exists q. split; [done|].
      destruct (q ++ n) eqn:Hqn; [|done].
      apply app_eq_nil in Hqn as [_ ->]. done.
Qed.

Lemma chars_eq_empty s : list_ascii_of_string s = [] → s = "".
Proof. by destruct s. Qed.

(** The last element of a joined path is the name that was joined. *)
Lemma Base_Join path name :
  validName name = true → Base (Join [path; name]) = name.
Proof.
  intros Hv. unfold validName in Hv.
  destruct (validChars_spec _ Hv) as (Hne & _).
  assert (Hname : name ≠ "") by (intros ->; done).
  unfold Base.
  destruct (cleanChars_snoc (list_ascii_of_string path) _ Hv) as (q & Hq & Heq).
  assert (Hjoin : list_ascii_of_string (Join [path; name]) =
                  q ++ list_ascii_of_string name).
  { unfold Join. case_decide as Hp.
    - subst path. rewrite decide_False by done. unfold Clean. cbn [fmap list_fmap joinSep].
      rewrite list_ascii_of_string_of_list_ascii.
      rewrite list_ascii_of_string_of_list_ascii. exact Heq.
    - unfold Clean. cbn [fmap list_fmap joinSep].
      rewrite !list_ascii_of_string_of_list_ascii.
      destruct (list_ascii_of_string path) eqn:Hcs; [|exact Heq].
      apply chars_eq_empty in Hcs. done. }
  rewrite Hjoin, baseChars_snoc by done.
  apply string_of_list_ascii_of_string.
Qed.

End PathLemmas.

(** * Lemmas on the walk *)

Lemma node_ind' (P : node → Prop) :
  (∀ e, P (NoStat e)) →
  (∀ mt, P (File mt)) →
  (∀ mt rd ents, Forall (λ p, P p.2) ents → P (Dir mt rd ents)) →
  ∀ n, P n.
Proof.
  intros HN HF HD.
  fix IH 1. intros [e|mt|mt rd ents]; [apply HN|apply HF|].
  apply HD. induction ents as [|[name child] ents IHents].
  - constructor.
  - constructor; [exact (IH child)|exact IHents].
Qed.

Section WalkLemmas.
Context {S : Type} (walkFn : WalkFunc (S := S)).

Lemma walk_Dir path mt readErr names s :
  walk walkFn path (Dir mt readErr names) s =
  let '(s1, err1) := walkFn path (Lstat path (Dir mt readErr names)).1 readErr s in
  match readErr, err1 with
  | None, None => walkNames walkFn path names s1
  | _, _ => (s1, err1)
  end.
Proof.
  simpl. destruct (walkFn _ _ _ _) as [s1 err1].
  destruct readErr, err1; try reflexivity.
  revert s1. induction names as [|[name child] rest IH]; intros s1; [done|].
  simpl. destruct (walk _ _ child s1) as [s' [e|]]; [|apply IH].
  destruct child; repeat case_match; auto.
Qed.

(** One step of the loop over the names. *)
Lemma walkNames_cons path name child rest s :
  walkNames walkFn path ((name, child) :: rest) s =
  let '(s', err) := walk walkFn (filepath.Join [path; name]) child s in
  match err with
  | None => walkNames walkFn path rest s'
  | Some e =>
      if bool_decide (e = SkipDir) && negb (isFileNode child)
      then walkNames walkFn path rest s'
      else (s', Some e)
  end.
Proof.
  simpl. destruct (walk _ _ child s) as [s' [e|]]; [|done].
  destruct child as [e'|mt|mt rd ents]; simpl.
  - rewrite andb_true_r. by case_decide; case_bool_decide.
  - by rewrite andb_false_r.
  - rewrite andb_true_r. by case_bool_decide.
Qed.

(** What every call of the function keeps, the walk keeps. *)
Lemma walk_preserves (P : S → Prop) :
  (∀ path info err s, P s → P (walkFn path info err s).1) →
  ∀ n path s, P s → P (walk walkFn path n s).1.
Proof.
  intros Hfn. induction n as [e|mt|mt rd ents IH] using node_ind';
    intros path s Hs.
  - simpl. by apply Hfn.
  - simpl. by apply Hfn.
  - rewrite walk_Dir.
    pose proof (Hfn path (Lstat path (Dir mt rd ents)).1 rd s Hs) as H1.
    destruct (walkFn _ _ _ s) as [s1 err1]. simpl in H1.
    destruct rd, err1; try done.
    clear Hs. revert s1 H1.
    induction IH as [|[name child] rest Hchild _ IHrest]; intros s1 H1; [done|].
    rewrite walkNames_cons.
    pose proof (Hchild (filepath.Join [path; name]) s1 H1) as H2.
    simpl in H2. destruct (walk _ _ child s1) as [s' [e|]]; simpl in H2.
    + destruct (_ && _); [by apply IHrest|done].
    + by apply IHrest.
Qed.

Lemma Walk_preserves (P : S → Prop) :
  (∀ path info err s, P s → P (walkFn path info err s).1) →
  ∀ tree root s, P s → P (Walk walkFn root tree s).1.
Proof.
  intros Hfn tree root s Hs. unfold Walk.
  destruct (Lstat root tree) as [info [e|]] eqn:HL.
  - pose proof (Hfn root None (Some e) s Hs).
    by destruct (walkFn _ _ _ s).
  - pose proof (walk_preserves P Hfn tree root s Hs).
    by destruct (walk _ _ tree s).
Qed.

End WalkLemmas.

Lemma reaches_snoc tree names mt rd ents name child :
  reaches tree names (Dir mt rd ents) →
  (name, child) ∈ ents →
  reaches tree (names ++ [name]) child.
Proof.
  intros Hr Hin. remember (Dir mt rd ents) as d eqn:Hd.
  induction Hr as [n|mt' rd' ents' name' child' names n Hin' Hr IH]; subst.
  - simpl. eapply reaches_down; [done|constructor].
  - simpl. eapply reaches_down; [done|]. by apply IH.
Qed.

Lemma joinAll_snoc root names name :
  joinAll root (names ++ [name]) = filepath.Join [joinAll root names; name].
Proof. unfold joinAll. by rewrite fold_left_app. Qed.

Section GatherLemmas.
Context {A : Type}.
Variable visit :
  string → option FileInfo → option error → list event * (A * bool).

Lemma gatherWith_cases path info err files printed :
  (filepath.Base path = "trash" ∧
   gatherWith visit path info err (files, printed) =
     ((files, printed), Some SkipDir)) ∨
  (filepath.Base path ≠ "trash" ∧
   ∃ out a ok, visit path info err = (out, (a, ok)) ∧
     gatherWith visit path info err (files, printed) =
       ((if ok then files ++ [a] else files, printed ++ out), None)).
Proof.
  unfold gatherWith. case_decide as Hb; [by left|right].
  split; [done|]. destruct (visit path info err) as [out [a ok]]. eauto.
Qed.

(** The function never returns an error other than [SkipDir]. *)
Lemma gatherWith_err path info err s :
  (gatherWith visit path info err s).2 = None ∨
  (gatherWith visit path info err s).2 = Some SkipDir.
Proof.
  destruct s as [files printed].
  destruct (gatherWith_cases path info err files printed)
    as [[_ ->]|[_ (out & a & ok & _ & ->)]]; auto.
Qed.

Lemma walk_gather_err n :
  ∀ path s,
    (walk (gatherWith visit) path n s).2 = None ∨
    (walk (gatherWith visit) path n s).2 = Some SkipDir.
Proof.
  induction n as [e|mt|mt rd ents IH] using node_ind'; intros path s.
  - apply gatherWith_err.
  - apply gatherWith_err.
  - rewrite walk_Dir.
    pose proof (gatherWith_err path (Lstat path (Dir mt rd ents)).1 rd s) as H1.
    destruct (gatherWith _ _ _ _ s) as [s1 err1]. simpl in H1.
    destruct rd, err1; try done. clear H1. revert s1.
    induction IH as [|[name child] rest Hchild _ IHrest]; intros s1; [by left|].
    rewrite walkNames_cons.
    pose proof (Hchild (filepath.Join [path; name]) s1) as H2. simpl in H2.
    destruct (walk _ _ child s1) as [s' [e|]]; simpl in H2; [|apply IHrest].
    destruct (_ && _); [apply IHrest|done].
Qed.

(** So the walk as a whole never returns an error. *)
Lemma Walk_gather_err root tree s :
  (Walk (gatherWith visit) root tree s).2 = None.
Proof.
  unfold Walk. destruct (Lstat root tree) as [info [e|]].
  - pose proof (gatherWith_err root None (Some e) s) as H.
    destruct (gatherWith _ _ _ _ s) as [s' err]. simpl in *.
    by destruct H as [->| ->].
  - pose proof (walk_gather_err tree root s) as H.
    destruct (walk _ _ tree s) as [s' err]. simpl in *.
    by destruct H as [->| ->].
Qed.

(** ** Where the records of a scan come from *)

Variable Φ : string → FileInfo → A → Prop.
Hypothesis visit_ok :
  ∀ path info err out a,
    visit path info err = (out, (a, true)) →
    ∃ i, info = Some i ∧ err = None ∧ info_IsDir i = false ∧ Φ path i a.

Variable root : string.
Variable tree : node.

(** A record made from a file of the tree that is reached through names
    none of which is "trash". *)
Let found (a : A) : Prop :=
  ∃ names mt,
    reaches tree names (File mt) ∧ ("trash" ∉ names) ∧
    Φ (joinAll root names)
      (mkFileInfo (filepath.Base (joinAll root names)) mt false) a.

Lemma walk_gather_sound n :
  wfNode n = true →
  ∀ names s,
    reaches tree names n →
    (filepath.Base (joinAll root names) ≠ "trash" → "trash" ∉ names) →
    Forall found s.1 →
    Forall found (walk (gatherWith visit) (joinAll root names) n s).1.1.
Proof.
  induction n as [e|mt|mt rd ents IH] using node_ind';
    intros Hwf names [files printed] Hreach Hnames Hs; simpl in Hs.
  - (* an entry that cannot be examined *)
    cbn [walk]. destruct (gatherWith_cases (joinAll root names) None (Some e) files printed)
      as [[_ ->]|[_ (out & a & ok & Hv & ->)]]; [done|]. simpl.
    destruct ok; [|done]. apply visit_ok in Hv as (i & ? & _); done.
  - (* a file *)
    cbn [walk Lstat fst]. destruct (gatherWith_cases (joinAll root names)
                       (Some (mkFileInfo (filepath.Base (joinAll root names)) mt false))
                       None files printed)
      as [[_ ->]|[Hb (out & a & ok & Hv & ->)]]; [done|]. simpl.
    destruct ok; [|done]. apply Forall_app. split; [done|].
    apply Forall_singleton. exists names, mt.
    apply visit_ok in Hv as (i & [= <-] & _ & _ & HΦ). auto.
  - (* a directory *)
    rewrite walk_Dir. cbn [Lstat fst].
    destruct (gatherWith_cases (joinAll root names)
                (Some (mkFileInfo (filepath.Base (joinAll root names)) mt true))
                rd files printed)
      as [[_ ->]|[Hb (out & a & ok & Hv & ->)]].
    { by destruct rd. }
    assert (ok = false) as ->.
    { destruct ok; [|done]. apply visit_ok in Hv as (i & [= <-] & _ & Hd & _). done. }
    destruct rd; [done|].
    specialize (Hnames Hb).
    assert (Hloop : ∀ rest s,
      (∀ p, p ∈ rest → p ∈ ents) →
      Forall found s.1 →
      Forall found (walkNames (gatherWith visit) (joinAll root names) rest s).1.1).
    { clear Hs Hv. induction rest as [|[name child] rest IHrest];
        intros s Hsub Hs; [done|].
      rewrite walkNames_cons.
      assert (Hin : (name, child) ∈ ents) by (apply Hsub; left).
      assert (Hwfc : validName name = true ∧ wfNode child = true).
      { simpl in Hwf. rewrite forallb_forall in Hwf.
        apply list_elem_of_In in Hin. specialize (Hwf _ Hin).
        by apply andb_true_iff in Hwf. }
      destruct Hwfc as [Hvn Hwc].
      rewrite Forall_forall in IH. specialize (IH _ Hin Hwc (names ++ [name]) s).
      rewrite joinAll_snoc in IH. simpl in IH.
      assert (Hs' : Forall found
                (walk (gatherWith visit)
                   (filepath.Join [joinAll root names; name]) child s).1.1).
      { apply IH; [by eapply reaches_snoc|..|done].
        rewrite Base_Join by done. intros Hne.
        rewrite elem_of_app, list_elem_of_singleton. intros [?|?]; auto. }
      assert (Hrest : ∀ s', Forall found s'.1 →
                Forall found (walkNames (gatherWith visit) (joinAll root names) rest s').1.1).
      { intros s' ?. apply IHrest; [|done]. intros p Hp. apply Hsub. by right. }
      destruct (walk _ _ child s) as [s' [e|]]; simpl in Hs'.
      - destruct (_ && _); [by apply Hrest|done].
      - by apply Hrest. }
    by apply Hloop.
Qed.

Lemma Walk_gather_sound :
  wfNode tree = true →
  Forall found (Walk (gatherWith visit) root tree ([], [])).1.1.
Proof.
  intros Hwf. unfold Walk.
  destruct (Lstat root tree) as [info [e|]] eqn:HL.
  - destruct (gatherWith_cases root None (Some e) [] [])
      as [[_ ->]|[_ (out & a & ok & Hv & ->)]]; [done|]. simpl.
    destruct ok; [|done]. apply visit_ok in Hv as (i & ? & _); done.
  - pose proof (walk_gather_sound tree Hwf [] ([], [])) as H. simpl in H.
    destruct (walk _ _ tree _) as [s' err]. simpl in *.
    apply H; [constructor|intros _; apply not_elem_of_nil|done].
Qed.

End GatherLemmas.

(** ** A file named "trash" in a directory *)

Section TrashFile.
Context {S : Type} (walkFn : WalkFunc (S := S)).

(** The function answers [SkipDir] for a file named "trash" and leaves
    the state alone. *)
Hypothesis skips_trash :
  ∀ path mt s,
    walkFn (filepath.Join [path; "trash"])
           (Some (mkFileInfo (filepath.Base (filepath.Join [path; "trash"])) mt false))
           None s = (s, Some SkipDir).

(** Two results a directory above cannot tell apart: the same state, and
    the same error or [SkipDir] for nil. *)
Let alike (r' r : S * option error) : Prop :=
  r'.1 = r.1 ∧ (r'.2 = r.2 ∨ (r'.2 = Some SkipDir ∧ r.2 = None)).

Lemma walkNames_trash_file path before mt after s :
  alike (walkNames walkFn path (before ++ ("trash", File mt) :: after) s)
        (walkNames walkFn path before s).
Proof.
  revert s. induction before as [|[name child] before IH]; intros s.
  - cbn [app]. rewrite walkNames_cons. cbn [walk Lstat fst].
    rewrite skips_trash. cbn. split; [done|by right].
  - rewrite <- app_comm_cons, !walkNames_cons.
    destruct (walk _ _ child s) as [s' [e|]]; [|apply IH].
    destruct (_ && _); [apply IH|]. split; [done|by left].
Qed.

Lemma walk_trash_file path mtd rd before mt after s :
  alike (walk walkFn path (Dir mtd rd (before ++ ("trash", File mt) :: after)) s)
        (walk walkFn path (Dir mtd rd before) s).
Proof.
  rewrite !walk_Dir. cbn [Lstat fst].
  destruct (walkFn _ _ _ s) as [s1 err1].
  destruct rd, err1; try (split; [done|by left]).
  apply walkNames_trash_file.
Qed.

(** Replacing an entry that is not a file by one that is alike changes
    nothing for the directory that holds it. *)
Lemma walk_alike_entry n' n :
  isFileNode n' = false → isFileNode n = false →
  (∀ path s, alike (walk walkFn path n' s) (walk walkFn path n s)) →
  ∀ path mtd rd before name after s,
    walk walkFn path (Dir mtd rd (before ++ (name, n') :: after)) s =
    walk walkFn path (Dir mtd rd (before ++ (name, n) :: after)) s.
Proof.
  intros Hn' Hn Halike path mtd rd before name after s.
  rewrite !walk_Dir. cbn [Lstat fst].
  destruct (walkFn _ _ _ s) as [s1 err1].
  destruct rd, err1; try done. revert s1.
  induction before as [|[name0 child] before IH]; intros s1.
  - cbn [app]. rewrite !walkNames_cons.
    destruct (Halike (filepath.Join [path; name]) s1) as [H1 H2].
    destruct (walk _ _ n' s1) as [s' e'], (walk _ _ n s1) as [s0 e0].
    simpl in *. subst s0. rewrite Hn', Hn.
    destruct H2 as [->|[-> ->]]; [done|].
    by rewrite bool_decide_eq_true_2.
  - rewrite <- !app_comm_cons, !walkNames_cons.
    destruct (walk _ _ child s1) as [s' [e|]]; [|apply IH].
    destruct (_ && _); [apply IH|done].
Qed.

Lemma walk_plug_trash_file ctx mtd rd before mt after :
  ∀ path s,
    alike (walk walkFn path
             (plug ctx (Dir mtd rd (before ++ ("trash", File mt) :: after))) s)
          (walk walkFn path (plug ctx (Dir mtd rd before)) s).
Proof.
  induction ctx as [|f ctx IH]; intros path s.
  - apply walk_trash_file.
  - assert (Hd : ∀ n, isFileNode n = false → isFileNode (plug ctx n) = false)
      by (by destruct ctx).
    cbn [plug].
    rewrite (walk_alike_entry _ _
               (Hd (Dir mtd rd (before ++ ("trash", File mt) :: after)) eq_refl)
               (Hd (Dir mtd rd before) eq_refl) IH).
    split; [done|by left].
Qed.

Lemma Walk_plug_trash_file ctx mtd rd before mt after root s :
  Walk walkFn root
       (plug ctx (Dir mtd rd (before ++ ("trash", File mt) :: after))) s =
  Walk walkFn root (plug ctx (Dir mtd rd before)) s.
Proof.
  unfold Walk.
  assert (HL : ∀ n, isDirNode n = true → (Lstat root n).2 = None)
    by (by intros []).
  assert (Hd : ∀ n, isDirNode n = true → isDirNode (plug ctx n) = true)
    by (by destruct ctx).
  pose proof (HL _ (Hd (Dir mtd rd (before ++ ("trash", File mt) :: after)) eq_refl)) as H1.
  pose proof (HL _ (Hd (Dir mtd rd before) eq_refl)) as H2.
  destruct (Lstat root (plug ctx (Dir mtd rd (before ++ _)))) as [i1 e1].
  destruct (Lstat root (plug ctx (Dir mtd rd before))) as [i2 e2].
  simpl in H1, H2. subst e1 e2.
  destruct (walk_plug_trash_file ctx mtd rd before mt after root s) as [Hs He].
  destruct (walk _ _ (plug ctx (Dir mtd rd (before ++ _))) s) as [s' e'].
  destruct (walk _ _ (plug ctx (Dir mtd rd before)) s) as [s0 e0].
  simpl in *. subst s0. destruct He as [->|[-> ->]]; done.
Qed.

End TrashFile.

Lemma gatherWith_skips_trash {A}
    (visit : string → option FileInfo → option error → list event * (A * bool))
    path mt s :
  gatherWith visit (filepath.Join [path; "trash"])
    (Some (mkFileInfo (filepath.Base (filepath.Join [path; "trash"])) mt false))
    None s = (s, Some SkipDir).
Proof.
  destruct s as [files printed]. unfold gatherWith.
  rewrite Base_Join by done. by rewrite decide_True.
Qed.

(** * Lemmas on runs *)

Section RunLemmas.
Context {World Handle : Type} `{os : OS World Handle}.

Lemma bind_Returned {A B} (m : M World A) (k : A → M World B) w a :
  outcome_of (m w) = Returned a →
  bind m k w =
  mkResult (outcome_of (k a (world_of (m w))))
           (world_of (k a (world_of (m w))))
           (trace_of (m w) ++ trace_of (k a (world_of (m w)))).
Proof. intros H. unfold bind. by rewrite H. Qed.

Lemma bind_Exited {A B} (m : M World A) (k : A → M World B) w code :
  outcome_of (m w) = Exited code →
  bind m k w = mkResult (Exited code) (world_of (m w)) (trace_of (m w)).
Proof. intros H. unfold bind. by rewrite H. Qed.

Lemma calls_result {A} (f : World → World * A) w :
  calls f w = mkResult (Returned (f w).2) (f w).1 [].
Proof. unfold calls. by destruct (f w). Qed.

Lemma traced_returns {A} (ev : A → event) (m : M World A) w a :
  outcome_of (m w) = Returned a →
  outcome_of (traced ev m w) = Returned a ∧
  trace_of (traced ev m w) = trace_of (m w) ++ [ev a] ∧
  world_of (traced ev m w) = world_of (m w).
Proof.
  intros H. unfold traced. by rewrite (bind_Returned _ _ _ _ H).
Qed.

(** [createIfNotExist] returns, having created the directory or not, or
    fails to create it and exits with status 1. *)
Lemma createIfNotExist_cases dir w :
  let r := createIfNotExist dir w in
  (outcome_of r = Returned tt ∧
   (trace_of r = [] ∨ trace_of r = [Call_MkdirAll dir None])) ∨
  (∃ e, outcome_of r = Exited 1 ∧
        trace_of r = [Call_MkdirAll dir (Some e);
                      Log_Print "Error creating directory" (Some e)]).
Proof.
  unfold createIfNotExist, traced, bind, reads, calls, emit, ret, exit. simpl.
  destruct (IsNotExist (os_Stat dir w)); simpl; [|left; auto].
  destruct (os_MkdirAll dir perm0755 w) as [w' [e|]]; simpl; [right; eauto|left; auto].
Qed.

(** [copyFile] always returns, and records nothing itself. *)
Lemma copyFile_returns src dest w :
  ∃ err, outcome_of (copyFile src dest w) = Returned err ∧
         trace_of (copyFile src dest w) = [].
Proof.
  unfold copyFile, bind, calls, modifies, ret. simpl.
  destruct (os_Open src w) as [w1 [hin|e]]; simpl; [|eauto].
  destruct (os_Create dest w1) as [w2 [hout|e]]; simpl; [|eauto].
  destruct (io_Copy hout hin w2) as [w3 err]; simpl. eauto.
Qed.

Lemma moveToTrash_returns src dest w :
  ∃ err, outcome_of (moveToTrash src dest w) = Returned err ∧
         trace_of (moveToTrash src dest w) = [Call_Rename src dest err] ∧
         (os_Rename src dest w) = (world_of (moveToTrash src dest w), err).
Proof.
  unfold moveToTrash, traced, bind, calls, emit, ret. simpl.
  destruct (os_Rename src dest w) as [w' err]; simpl. eauto.
Qed.

Lemma logger_Println_returns f msg name w :
  outcome_of (logger_Println f msg name w) = Returned tt ∧
  trace_of (logger_Println f msg name w) = [Logger_Println msg name].
Proof. done. Qed.

End RunLemmas.

(** ** Loops whose body either returns or exits on a failed [MkdirAll] *)

Lemma renames_app t1 t2 : renames (t1 ++ t2) = renames t1 ++ renames t2.
Proof. apply omap_app. Qed.
Lemma copies_app t1 t2 : copies (t1 ++ t2) = copies t1 ++ copies t2.
Proof. apply omap_app. Qed.
Lemma mkdirFailures_app t1 t2 :
  mkdirFailures (t1 ++ t2) = mkdirFailures t1 ++ mkdirFailures t2.
Proof. apply omap_app. Qed.
Lemma writes_app t1 t2 : writes (t1 ++ t2) = writes t1 ++ writes t2.
Proof. apply omap_app. Qed.

Lemma bind_if_filter {A B} (p : A → bool) (f : A → B) (l : list A) :
  l ≫= (λ x, if p x then [f x] else []) = f <$> filter (λ x, p x = true) l.
Proof.
  induction l as [|x l IH]; [done|]. cbn [mbind list_bind].
  rewrite filter_cons. change (mbind ?g l) with (l ≫= g) in *. rewrite IH.
  destruct (p x) eqn:Hp.
  - by rewrite decide_True.
  - rewrite decide_False; [done|]. by intros ?.
Qed.

Section LoopLemmas.
Context {World Handle : Type} `{os : OS World Handle}.
Context {A : Type} (body : A → M World unit).
Variables rn cp : A → list (string * string).

Hypothesis body_cases :
  ∀ x w,
    let r := body x w in
    (outcome_of r = Returned tt ∧
     renames (trace_of r) = rn x ∧ copies (trace_of r) = cp x ∧
     mkdirFailures (trace_of r) = [] ∧ writes (trace_of r) = []) ∨
    (outcome_of r = Exited 1 ∧
     renames (trace_of r) = [] ∧ copies (trace_of r) = [] ∧
     mkdirFailures (trace_of r) ≠ [] ∧ writes (trace_of r) = []).

(** The loop returns after every round, or exits in the round in which a
    directory could not be created, the rounds before being complete. *)
Lemma forRange_cases l w :
  let r := forRange l body w in
  (outcome_of r = Returned tt ∧
   renames (trace_of r) = l ≫= rn ∧ copies (trace_of r) = l ≫= cp ∧
   mkdirFailures (trace_of r) = [] ∧ writes (trace_of r) = []) ∨
  (outcome_of r = Exited 1 ∧
   mkdirFailures (trace_of r) ≠ [] ∧ writes (trace_of r) = [] ∧
   ∃ before rest, l = before ++ rest ∧ rest ≠ [] ∧
     renames (trace_of r) = before ≫= rn ∧ copies (trace_of r) = before ≫= cp).
Proof.
  revert w. induction l as [|x l IH]; intros w.
  - left. done.
  - cbn [forRange].
    destruct (body_cases x w) as [(Hout & Hrn & Hcp & Hmk & Hwr)|
                                  (Hout & Hrn & Hcp & Hmk & Hwr)].
    + rewrite (bind_Returned _ _ _ _ Hout). cbn [outcome_of trace_of].
      rewrite renames_app, copies_app, mkdirFailures_app, writes_app.
      rewrite Hrn, Hcp, Hmk, Hwr. cbn [app].
      destruct (IH (world_of (body x w)))
        as [(Hout' & -> & -> & -> & ->)|
            (Hout' & Hmk' & -> & before & rest & -> & Hne & -> & ->)].
      * left. done.
      * right. repeat split; try done.
        exists (x :: before), rest. done.
    + rewrite (bind_Exited _ _ _ _ Hout). cbn [outcome_of trace_of].
      right. repeat split; try done.
      exists [], (x :: l). rewrite Hrn, Hcp. done.
Qed.

End LoopLemmas.

Module IncrementalLemmas.
Import Incremental.

Section Bodies.
Context {World Handle : Type} `{os : OS World Handle}.

(** What one round of the copy loop does. *)
Lemma copyBody_cases config logger input w :
  let relativePath := (filepath.Rel (InputPath config) (Location input)).1 in
  let source := filepath.Join [InputPath config; relativePath] in
  let destination := filepath.Join [OutputPath config; relativePath] in
  let r := copyBody config logger input w in
  if New input then
    (∃ e, outcome_of r = Exited 1 ∧
          trace_of r = [Call_MkdirAll (filepath.Dir destination) (Some e);
                        Log_Print "Error creating directory" (Some e)]) ∨
    (∃ mk err,
        outcome_of r = Returned tt ∧
        (mk = [] ∨ mk = [Call_MkdirAll (filepath.Dir destination) None]) ∧
        trace_of r =
          mk ++ Call_copyFile source destination err ::
                match err with
                | Some _ => [Logger_Println "Failed copying file: " (Name input)]
                | None => []
                end)
  else r = mkResult (Returned tt) w [].
Proof.
  intros relativePath source destination r. subst r. unfold copyBody.
  destruct (New input); [|done].
  fold relativePath. fold source. fold destination.
  destruct (createIfNotExist_cases (filepath.Dir destination) w)
    as [[Hout Htr]|(e & Hout & Htr)].
  - right. rewrite (bind_Returned _ _ _ _ Hout). cbn [outcome_of trace_of].
    generalize (world_of (createIfNotExist (filepath.Dir destination) w)).
    intros w1.
    destruct (copyFile_returns source destination w1) as (err & Hc & Hct).
    destruct (traced_returns (Call_copyFile source destination) _ _ _ Hc)
      as (Ht1 & Ht2 & _).
    exists (trace_of (createIfNotExist (filepath.Dir destination) w)), err.
    rewrite (bind_Returned _ _ _ _ Ht1). cbn [outcome_of trace_of].
    rewrite Ht2, Hct. destruct err; auto.
  - left. exists e. rewrite (bind_Exited _ _ _ _ Hout). auto.
Qed.

(** What one round of the trash loop does. *)
Lemma trashBody_cases config trashPath processStart inFilesMap logger output w :
  let relativePath := (filepath.Rel (OutputPath config) (Location output)).1 in
  let newPath := trashNewPath trashPath processStart output in
  let r := trashBody config trashPath processStart inFilesMap logger output w in
  match inFilesMap !! relativePath with
  | Some _ => r = mkResult (Returned tt) w []
  | None =>
      (∃ e, outcome_of r = Exited 1 ∧
            trace_of r = [Call_MkdirAll (filepath.Dir newPath) (Some e);
                          Log_Print "Error creating directory" (Some e)]) ∨
      (∃ mk err,
          outcome_of r = Returned tt ∧
          (mk = [] ∨ mk = [Call_MkdirAll (filepath.Dir newPath) None]) ∧
          trace_of r =
            mk ++ Call_Rename (Location output) newPath err ::
                  match err with
                  | Some _ => [Logger_Println "Failed moving file to trash: "
                                              (Name output)]
                  | None => []
                  end)
  end.
Proof.
  intros relativePath newPath r. subst r. unfold trashBody.
  fold relativePath. destruct (inFilesMap !! relativePath); [done|].
  fold newPath.
  destruct (createIfNotExist_cases (filepath.Dir newPath) w)
    as [[Hout Htr]|(e & Hout & Htr)].
  - right. rewrite (bind_Returned _ _ _ _ Hout). cbn [outcome_of trace_of].
    generalize (world_of (createIfNotExist (filepath.Dir newPath) w)).
    intros w1.
    destruct (moveToTrash_returns (Location output) newPath w1)
      as (err & Hm & Hmt & _).
    exists (trace_of (createIfNotExist (filepath.Dir newPath) w)), err.
    rewrite (bind_Returned _ _ _ _ Hm). cbn [outcome_of trace_of].
    rewrite Hmt. destruct err; auto.
  - left. exists e. rewrite (bind_Exited _ _ _ _ Hout). auto.
Qed.

Lemma trashBody_ok config trashPath processStart inFilesMap logger output w :
  let r := trashBody config trashPath processStart inFilesMap logger output w in
  (outcome_of r = Returned tt ∧
   renames (trace_of r) =
     (if isOrphan config inFilesMap output
      then [trashMove trashPath processStart output] else []) ∧
   copies (trace_of r) = [] ∧
   mkdirFailures (trace_of r) = [] ∧ writes (trace_of r) = []) ∨
  (outcome_of r = Exited 1 ∧
   renames (trace_of r) = [] ∧ copies (trace_of r) = [] ∧
   mkdirFailures (trace_of r) ≠ [] ∧ writes (trace_of r) = []).
Proof.
  pose proof (trashBody_cases config trashPath processStart inFilesMap
                logger output w) as H.
  cbv zeta in *. unfold isOrphan, relOut.
  destruct (inFilesMap !! _) as [x|].
  - rewrite H. left. done.
  - rewrite bool_decide_eq_true_2 by done.
    destruct H as [(e & -> & ->)|(mk & err & -> & Hmk & ->)].
    + right. done.
    + left. unfold trashMove.
      destruct Hmk as [-> | ->], err; done.
Qed.

Lemma copyBody_ok config logger input w :
  let r := copyBody config logger input w in
  (outcome_of r = Returned tt ∧
   renames (trace_of r) = [] ∧
   copies (trace_of r) = (if New input then [copyArgs config input] else []) ∧
   mkdirFailures (trace_of r) = [] ∧ writes (trace_of r) = []) ∨
  (outcome_of r = Exited 1 ∧
   renames (trace_of r) = [] ∧ copies (trace_of r) = [] ∧
   mkdirFailures (trace_of r) ≠ [] ∧ writes (trace_of r) = []).
Proof.
  pose proof (copyBody_cases config logger input w) as H.
  cbv zeta in *. destruct (New input).
  - destruct H as [(e & -> & ->)|(mk & err & -> & Hmk & ->)].
    + right. done.
    + left. unfold copyArgs, relIn.
      destruct Hmk as [-> | ->], err; done.
  - rewrite H. left. done.
Qed.

(** The two loops of [main]. *)
Lemma trashLoop_cases config trashPath processStart inFilesMap logger outputs w :
  let r := forRange outputs
             (trashBody config trashPath processStart inFilesMap logger) w in
  (outcome_of r = Returned tt ∧
   renames (trace_of r) =
     trashMove trashPath processStart <$>
       filter (λ o, isOrphan config inFilesMap o = true) outputs ∧
   copies (trace_of r) = [] ∧
   mkdirFailures (trace_of r) = [] ∧ writes (trace_of r) = []) ∨
  (outcome_of r = Exited 1 ∧
   mkdirFailures (trace_of r) ≠ [] ∧ writes (trace_of r) = [] ∧
   ∃ before rest, outputs = before ++ rest ∧ rest ≠ [] ∧
     renames (trace_of r) =
       trashMove trashPath processStart <$>
         filter (λ o, isOrphan config inFilesMap o = true) before ∧
     copies (trace_of r) = []).
Proof.
  pose proof (forRange_cases _ _ (λ _, [])
                (trashBody_ok config trashPath processStart inFilesMap logger)
                outputs w) as H.
  cbv zeta in *. rewrite <- !bind_if_filter.
  assert (Hnil : ∀ l : list filesData,
            l ≫= (λ _, @nil (string * string)) = []).
  { induction l; [done|]. cbn. done. }
  destruct H as [(? & ? & ? & ? & ?)|(? & ? & ? & before & rest & ? & ? & ? & ?)].
  - left. rewrite ?Hnil in *. done.
  - right. repeat split; try done. exists before, rest.
    rewrite <- bind_if_filter. rewrite ?Hnil in *. done.
Qed.

Lemma copyLoop_cases config logger inputs w :
  let r := forRange inputs (copyBody config logger) w in
  (outcome_of r = Returned tt ∧
   renames (trace_of r) = [] ∧
   copies (trace_of r) =
     copyArgs config <$> filter (λ i, New i = true) inputs ∧
   mkdirFailures (trace_of r) = [] ∧ writes (trace_of r) = []) ∨
  (outcome_of r = Exited 1 ∧
   mkdirFailures (trace_of r) ≠ [] ∧ writes (trace_of r) = [] ∧
   ∃ before rest, inputs = before ++ rest ∧ rest ≠ [] ∧
     renames (trace_of r) = [] ∧
     copies (trace_of r) =
       copyArgs config <$> filter (λ i, New i = true) before).
Proof.
  pose proof (forRange_cases _ (λ _, []) _ (copyBody_ok config logger)
                inputs w) as H.
  cbv zeta in *. rewrite <- !bind_if_filter.
  assert (Hnil : ∀ l : list filesData,
            l ≫= (λ _, @nil (string * string)) = []).
  { induction l; [done|]. cbn. done. }
  destruct H as [(? & ? & ? & ? & ?)|(? & ? & ? & before & rest & ? & ? & ? & ?)].
  - left. rewrite ?Hnil in *. done.
  - right. repeat split; try done. exists before, rest.
    rewrite <- bind_if_filter. rewrite ?Hnil in *. done.
Qed.

(** Writing time.txt: one call, and the exit if it fails. *)
Lemma saveRunTime_cases processStart w :
  let r := saveRunTime processStart w in
  ∃ res,
    os_WriteFile "./time.txt" (time.Format_RFC3339 processStart) perm0644 w =
      (world_of r, res) ∧
    outcome_of r = match res with None => Returned tt | Some _ => Exited 1 end ∧
    trace_of r =
      Call_WriteFile "./time.txt" (time.Format_RFC3339 processStart) res ::
      match res with
      | None => []
      | Some e => [Log_Print "Failed updating time.txt: " (Some e)]
      end.
Proof.
  unfold saveRunTime, traced, log_Fatal, bind, calls, emit, ret, exit. cbn.
  destruct (os_WriteFile _ _ _ w) as [w' [e|]]; cbn; eauto.
Qed.

End Bodies.
End IncrementalLemmas.


(** * Maps by relative path *)

Lemma dom_fold_insert {V} (key : V → string) (l : list V) (m0 : gmap string V) :
  dom (fold_left (λ (m : gmap string V) v, <[key v := v]> m) l m0) =
  list_to_set (key <$> l) ∪ dom m0.
Proof.
  revert m0. induction l as [|v l IH]; intros m0; cbn [fold_left fmap list_fmap].
  - set_solver.
  - rewrite IH, dom_insert_L. cbn [list_to_set]. set_solver.
Qed.

(** * The statements *)

Section IncrementalClaims.
Import Incremental IncrementalLemmas.
Context {World Handle : Type} `{os : OS World Handle}.



(** After a round of the trash loop in which the rename succeeded, the
    destination holds what the output file held, whatever was there
    before, on a system whose [rename] replaces the destination and whose
    [MkdirAll] leaves files alone. *)
Lemma trashBody_replaces config trashPath processStart inFilesMap logger output w :
  (∀ src dest w0 w', os_Rename src dest w0 = (w', None) →
                     os_ReadFile dest w' = os_ReadFile src w0) →
  (∀ dir perm w0 name, os_ReadFile name (os_MkdirAll dir perm w0).1 =
                       os_ReadFile name w0) →
  let dest := trashNewPath trashPath processStart output in
  let r := trashBody config trashPath processStart inFilesMap logger output w in
  isOrphan config inFilesMap output = true →
  Call_Rename (Location output) dest None ∈ trace_of r →
  os_ReadFile dest (world_of r) = os_ReadFile (Location output) w.
Proof.
  intros Hrename Hmkdir dest r Horph Hin. subst r.
  unfold isOrphan, relOut in Horph. apply bool_decide_eq_true in Horph.
  unfold trashBody in *. rewrite Horph in *. fold dest in Hin |- *.
  unfold createIfNotExist, moveToTrash, logger_Println, traced, bind, reads,
    calls, emit, ret, exit, modifies in *.
  cbn in Hin |- *.
  destruct (IsNotExist (os_Stat (filepath.Dir dest) w)); cbn in Hin |- *.
  - pose proof (Hmkdir (filepath.Dir dest) perm0755 w (Location output)) as Hkeep.
    destruct (os_MkdirAll (filepath.Dir dest) perm0755 w) as [w1 [e|]];
      cbn in Hin, Hkeep |- *.
    { set_solver. }
    pose proof (Hrename (Location output) dest w1) as Hr.
    destruct (os_Rename (Location output) dest w1) as [w2 [e|]]; cbn in Hin |- *.
    { set_solver. }
    rewrite (Hr w2 eq_refl). done.
  - pose proof (Hrename (Location output) dest w) as Hr.
    destruct (os_Rename (Location output) dest w) as [w2 [e|]]; cbn in Hin |- *.
    { set_solver. }
    by rewrite (Hr w2 eq_refl).
Qed.

(** C10.  The path in the trash is made of the trash path, the name of
    the file and the start of the run only, so two output files with the
    same name in different directories get the same path.  When both
    have no input file, the loop renames the first to that path and then
    the second to the same path; on a system whose [rename] replaces the
    destination, what the first left there is replaced by the content of
    the second.  The path is made the same way in the earlier program. *)
Theorem same_name_orphans_share_one_trash_path
    config trashPath processStart inFilesMap logger (o1 o2 : filesData) (w : World) :
  Name o1 = Name o2 →
  isOrphan config inFilesMap o1 = true →
  isOrphan config inFilesMap o2 = true →
  (∀ src dest w0 w', os_Rename src dest w0 = (w', None) →
                     os_ReadFile dest w' = os_ReadFile src w0) →
  (∀ dir perm w0 name, os_ReadFile name (os_MkdirAll dir perm w0).1 =
                       os_ReadFile name w0) →
  let dest := trashNewPath trashPath processStart o1 in
  let body := trashBody config trashPath processStart inFilesMap logger in
  let r1 := body o1 w in
  let r := forRange [o1; o2] body w in
  trashNewPath trashPath processStart o2 = dest ∧
  (∀ s1 s2 : Simple.filesData,
      Simple.Name s1 = Simple.Name s2 →
      Simple.trashNewPath trashPath processStart s1 =
      Simple.trashNewPath trashPath processStart s2) ∧
  (outcome_of r = Returned tt →
   renames (trace_of r) = [(Location o1, dest); (Location o2, dest)] ∧
   (Call_Rename (Location o1) dest None ∈ trace_of r1 →
    os_ReadFile dest (world_of r1) = os_ReadFile (Location o1) w) ∧
   (Call_Rename (Location o2) dest None ∈ trace_of (body o2 (world_of r1)) →
    os_ReadFile dest (world_of r) = os_ReadFile (Location o2) (world_of r1))).
Proof.
  intros Hname Ho1 Ho2 Hrename Hmkdir dest body r1 r.
  assert (Hdest : trashNewPath trashPath processStart o2 = dest).
  { unfold dest, trashNewPath, trashNewName. by rewrite Hname. }
  split; [done|]. split.
  { intros s1 s2 Hs. unfold Simple.trashNewPath, Simple.trashNewName.
    by rewrite Hs. }
  intros Hret.
  assert (Hr1 : outcome_of r1 = Returned tt).
  { subst r. cbn [forRange] in Hret. unfold bind at 1 in Hret. fold r1 in Hret.
    by destruct (outcome_of r1) as [[]|]. }
  assert (Hworld : world_of r = world_of (body o2 (world_of r1))).
  { subst r. cbn [forRange]. rewrite (bind_Returned _ _ _ _ Hr1).
    cbn [world_of]. fold r1. unfold bind, ret.
    by destruct (outcome_of (body o2 (world_of r1))). }
  repeat split.
  - destruct (trashLoop_cases config trashPath processStart inFilesMap logger
                [o1; o2] w) as [(_ & Hrn & _)|(Hout & _)].
    + fold body in Hrn. fold r in Hrn. rewrite Hrn.
      rewrite !filter_cons, filter_nil, !decide_True by done.
      cbn. unfold trashMove. by rewrite Hdest.
    + fold body in Hout. fold r in Hout. congruence.
  - intros Hin. by apply trashBody_replaces.
  - intros Hin. rewrite Hworld. rewrite <- Hdest in Hin |- *.
    by apply trashBody_replaces.
Qed.

End IncrementalClaims.


(** * The scan *)

Section ScanClaims.
Import Incremental.

Lemma gatherFn_shape lastRun :
  gatherFn lastRun = gatherWith (λ path info err, visitFileInfos path info err lastRun).
Proof. reflexivity. Qed.

Lemma Simple_gatherFn_shape :
  Simple.gatherFn = gatherWith Simple.visitFileInfos.
Proof. reflexivity. Qed.

(** What [visitFileInfos] accepts is a file that is not a directory and
    was examined without error; the record is made from its info. *)
Lemma visitFileInfos_ok path info err lastRun out f :
  visitFileInfos path info err lastRun = (out, (f, true)) →
  ∃ i, info = Some i ∧ err = None ∧ info_IsDir i = false ∧
       f = mkFilesData (info_Name i) path (info_ModTime i)
             (match lastRun with
              | None => true
              | Some t => time.After (info_ModTime i) t
              end).
Proof.
  unfold visitFileInfos. destruct err as [e|], info as [i|]; try done.
  destruct (info_IsDir i) eqn:Hd; [done|]. intros [= <- <-]. eauto.
Qed.

Lemma Simple_visitFileInfos_ok path info err out f :
  Simple.visitFileInfos path info err = (out, (f, true)) →
  ∃ i, info = Some i ∧ err = None ∧ info_IsDir i = false ∧
       f = Simple.mkFilesData (info_Name i) path (info_ModTime i).
Proof.
  unfold Simple.visitFileInfos. destruct err as [e|], info as [i|]; try done.
  destruct (info_IsDir i) eqn:Hd; [done|]. intros [= <- <-]. eauto.
Qed.

(** [gatherFiles] never returns an error: the function handed to
    [filepath.Walk] returns nil or [SkipDir] only. *)
Lemma gatherFiles_err_nil path tree lastRun :
  (gatherFiles path tree lastRun).1.2 = None.
Proof.
  unfold gatherFiles. rewrite gatherFn_shape.
  pose proof (Walk_gather_err
                (λ path info err, visitFileInfos path info err lastRun)
                path tree ([], [])) as H.
  destruct (Walk _ _ _ _) as [[files printed] err]. done.
Qed.

Lemma Simple_gatherFiles_err_nil path tree :
  (Simple.gatherFiles path tree).1.2 = None.
Proof.
  unfold Simple.gatherFiles. rewrite Simple_gatherFn_shape.
  pose proof (Walk_gather_err Simple.visitFileInfos path tree ([], [])) as H.
  destruct (Walk _ _ _ _) as [[files printed] err]. done.
Qed.

(** C1.  When the root cannot be examined, [gatherFiles] returns no file
    and a nil error, in both programs: the function is called once with
    the error of [os.Lstat], prints it (or answers [SkipDir] when the
    root is named "trash") and returns nil, and that is what
    [filepath.Walk] returns.  No scan of any tree returns an error, so
    the tests of that error in [main] and [process] never stop a run. *)
Theorem scan_of_unreadable_root_is_empty_and_nil path e lastRun :
  let printed :=
    if decide (filepath.Base path = "trash") then []
    else [Printf_FailedAccessing path e] in
  gatherFiles path (NoStat e) lastRun = ([], None, printed) ∧
  Simple.gatherFiles path (NoStat e) = ([], None, printed) ∧
  (∀ tree, (gatherFiles path tree lastRun).1.2 = None) ∧
  (∀ tree, (Simple.gatherFiles path tree).1.2 = None).
Proof.
  intros printed. repeat split.
  - unfold gatherFiles, Walk, gatherFn, printed. cbn [Lstat]. by case_decide.
  - unfold Simple.gatherFiles, Walk, Simple.gatherFn, printed. cbn [Lstat].
    by case_decide.
  - intros tree. apply gatherFiles_err_nil.
  - intros tree. apply Simple_gatherFiles_err_nil.
Qed.

(** The flag of a record, from the last run and the time of the file. *)
Lemma New_of_scan root tree lastRun f :
  f ∈ (gatherFiles root tree lastRun).1.1 →
  New f = match lastRun with
          | None => true
          | Some t => time.After (ModTime f) t
          end.
Proof.
  intros Hin. unfold gatherFiles in Hin.
  pose proof (Walk_preserves (gatherFn lastRun)
    (λ s, Forall (λ f, New f = match lastRun with
                               | None => true
                               | Some t => time.After (ModTime f) t
                               end) s.1)) as HW.
  cbv beta in HW.
  assert (Hfn : ∀ path info err (s : list filesData * list event),
    Forall (λ f, New f = match lastRun with
                         | None => true
                         | Some t => time.After (ModTime f) t
                         end) s.1 →
    Forall (λ f, New f = match lastRun with
                         | None => true
                         | Some t => time.After (ModTime f) t
                         end) (gatherFn lastRun path info err s).1.1).
  { intros path info err [files printed] Hs. cbn in Hs.
    rewrite gatherFn_shape.
    destruct (gatherWith_cases
                (λ path info err, visitFileInfos path info err lastRun)
                path info err files printed)
      as [[_ ->]|[_ (out & a & ok & Hv & ->)]]; [done|]. cbn.
    destruct ok; [|done]. apply Forall_app. split; [done|].
    apply Forall_singleton.
    apply visitFileInfos_ok in Hv as (i & _ & _ & _ & ->). done. }
  specialize (HW Hfn tree root ([], []) ltac:(constructor)).
  destruct (Walk _ _ _ _) as [[files printed] err]. cbn in Hin, HW.
  rewrite Forall_forall in HW. by apply HW.
Qed.

(** C4.  Every record of a scan is flagged new exactly when there is no
    last run or the file was modified strictly after it: a file modified
    at the instant of the last run is not new, one modified a nanosecond
    later is. *)
Theorem new_iff_modified_after_last_run root tree lastRun f :
  f ∈ (gatherFiles root tree lastRun).1.1 →
  (New f = true ↔
     lastRun = None ∨
     ∃ t, lastRun = Some t ∧ (unixNano t < unixNano (ModTime f))%Z) ∧
  (∀ t, lastRun = Some t → unixNano (ModTime f) = unixNano t → New f = false) ∧
  (∀ t, lastRun = Some t → unixNano (ModTime f) = (unixNano t + 1)%Z →
        New f = true).
Proof.
  intros Hin. pose proof (New_of_scan root tree lastRun f Hin) as Hnew.
  rewrite Hnew. unfold time.After. repeat split.
  - destruct lastRun as [t|]; [|by left].
    intros Hlt%Z.ltb_lt. right. eauto.
  - intros [->|(t & -> & Hlt)]; [done|]. by apply Z.ltb_lt.
  - intros t -> Heq. apply Z.ltb_ge. lia.
  - intros t -> Heq. apply Z.ltb_lt. lia.
Qed.

(** In a tree whose names are names of directory entries, every record
    of a scan is made from a file reached from the root through names
    none of which is "trash". *)
Lemma scan_records_outside_trash root tree lastRun :
  wfNode tree = true →
  (∀ f, f ∈ (gatherFiles root tree lastRun).1.1 →
        ∃ names mt,
          reaches tree names (File mt) ∧ ("trash" ∉ names) ∧
          Location f = joinAll root names ∧ ModTime f = mt) ∧
  (∀ f, f ∈ (Simple.gatherFiles root tree).1.1 →
        ∃ names mt,
          reaches tree names (File mt) ∧ ("trash" ∉ names) ∧
          Simple.Location f = joinAll root names ∧ Simple.ModTime f = mt).
Proof.
  intros Hwf. split; intros f Hin.
  - unfold gatherFiles in Hin. rewrite gatherFn_shape in Hin.
    pose proof (Walk_gather_sound
      (λ path info err, visitFileInfos path info err lastRun)
      (λ path i f, Location f = path ∧ ModTime f = info_ModTime i)) as HW.
    cbv beta in HW.
    assert (Hv : ∀ path info err out a,
      visitFileInfos path info err lastRun = (out, (a, true)) →
      ∃ i, info = Some i ∧ err = None ∧ info_IsDir i = false ∧
           Location a = path ∧ ModTime a = info_ModTime i).
    { intros ????? (i & ? & ? & ? & ->)%visitFileInfos_ok. exists i. done. }
    specialize (HW Hv root tree Hwf).
    destruct (Walk _ _ _ _) as [[files printed] err]. cbn in Hin, HW.
    rewrite Forall_forall in HW.
    destruct (HW f Hin) as (names & mt & ? & ? & ? & ?). eauto 10.
  - unfold Simple.gatherFiles in Hin. rewrite Simple_gatherFn_shape in Hin.
    pose proof (Walk_gather_sound Simple.visitFileInfos
      (λ path i f, Simple.Location f = path ∧
                   Simple.ModTime f = info_ModTime i)) as HW.
    cbv beta in HW.
    assert (Hv : ∀ path info err out a,
      Simple.visitFileInfos path info err = (out, (a, true)) →
      ∃ i, info = Some i ∧ err = None ∧ info_IsDir i = false ∧
           Simple.Location a = path ∧ Simple.ModTime a = info_ModTime i).
    { intros ????? (i & ? & ? & ? & ->)%Simple_visitFileInfos_ok. exists i. done. }
    specialize (HW Hv root tree Hwf).
    destruct (Walk _ _ _ _) as [[files printed] err]. cbn in Hin, HW.
    rewrite Forall_forall in HW.
    destruct (HW f Hin) as (names & mt & ? & ? & ? & ?). eauto 10.
Qed.

(** C9.  A file named "trash" in a directory ends the walk of that
    directory: the scan of a tree in which some directory holds such a
    file is the scan of the tree in which that directory ends just
    before it, so neither the file nor the entries listed after it
    yield a record, in both programs. *)
Theorem file_named_trash_ends_its_directory
    root ctx mtd rd before mt after lastRun :
  gatherFiles root
    (plug ctx (Dir mtd rd (before ++ ("trash", File mt) :: after))) lastRun =
  gatherFiles root (plug ctx (Dir mtd rd before)) lastRun ∧
  Simple.gatherFiles root
    (plug ctx (Dir mtd rd (before ++ ("trash", File mt) :: after))) =
  Simple.gatherFiles root (plug ctx (Dir mtd rd before)).
Proof.
  split.
  - unfold gatherFiles. rewrite gatherFn_shape.
    by rewrite (Walk_plug_trash_file _ (gatherWith_skips_trash _)).
  - unfold Simple.gatherFiles. rewrite Simple_gatherFn_shape.
    by rewrite (Walk_plug_trash_file _ (gatherWith_skips_trash _)).
Qed.

End ScanClaims.

(** * [main] from the scans on *)

Section MainLemmas.
Import Incremental IncrementalLemmas.
Context {World Handle : Type} `{os : OS World Handle}.

(** A scan prints and does nothing else. *)
Lemma gatherFiles_printed path tree lastRun :
  Forall (λ e, ∃ p err, e = Printf_FailedAccessing p err)
         (gatherFiles path tree lastRun).2.
Proof.
  unfold gatherFiles.
  pose proof (Walk_preserves (gatherFn lastRun)
    (λ s, Forall (λ e, ∃ p err, e = Printf_FailedAccessing p err) s.2)) as HW.
  cbv beta in HW.
  assert (Hfn : ∀ path info err (s : list filesData * list event),
    Forall (λ e, ∃ p err, e = Printf_FailedAccessing p err) s.2 →
    Forall (λ e, ∃ p err, e = Printf_FailedAccessing p err)
           (gatherFn lastRun path info err s).1.2).
  { intros p info err [files printed] Hs. cbn in Hs. rewrite gatherFn_shape.
    destruct (gatherWith_cases
                (λ path info err, visitFileInfos path info err lastRun)
                p info err files printed)
      as [[_ ->]|[_ (out & a & ok & Hv & ->)]]; [done|]. cbn.
    apply Forall_app. split; [done|].
    unfold visitFileInfos in Hv.
    destruct err as [e|], info as [i|]; try destruct (info_IsDir i);
      injection Hv as <- _ _; repeat constructor; eauto. }
  specialize (HW Hfn tree path ([], []) ltac:(constructor)).
  by destruct (Walk _ _ _ _) as [[files printed] err].
Qed.

Lemma printed_silent (printed : list event) :
  Forall (λ e, ∃ p err, e = Printf_FailedAccessing p err) printed →
  renames printed = [] ∧ copies printed = [] ∧
  mkdirFailures printed = [] ∧ writes printed = [].
Proof.
  induction 1 as [|e l (p & err & ->) _ IH]; [done|].
  destruct IH as (? & ? & ? & ?). done.
Qed.

Lemma gatherFilesIn_result path lastRun w :
  gatherFilesIn path lastRun w =
  mkResult (Returned ((gatherFiles path (fs_tree path w) lastRun).1.1, None)) w
           (gatherFiles path (fs_tree path w) lastRun).2.
Proof.
  unfold gatherFilesIn.
  pose proof (gatherFiles_err_nil path (fs_tree path w) lastRun) as H.
  destruct (gatherFiles _ _ _) as [[files err] printed]. cbn in *. by subst.
Qed.

(** In every run of [main] from the scans on, the files moved are the
    orphans of a first part of the output scan and the files copied the
    new files of a first part of the input scan; the parts are the whole
    scans unless the run exits before. *)
Lemma mainFrom_moves_and_copies processStart config trashPath lastRun w :
  let filesInInputPath :=
    (gatherFiles (InputPath config) (fs_tree (InputPath config) w) lastRun).1.1 in
  let filesInOutputPath :=
    (gatherFiles (OutputPath config) (fs_tree (OutputPath config) w) None).1.1 in
  let inFilesMap := buildInFilesMap config filesInInputPath in
  let r := mainFrom processStart config trashPath lastRun w in
  ∃ outputs inputs,
    outputs `prefix_of` filesInOutputPath ∧
    inputs `prefix_of` filesInInputPath ∧
    renames (trace_of r) =
      trashMove trashPath processStart <$>
        filter (λ o, isOrphan config inFilesMap o = true) outputs ∧
    copies (trace_of r) =
      copyArgs config <$> filter (λ i, New i = true) inputs.
Proof.
  intros filesInInputPath filesInOutputPath inFilesMap r.
  remember (trace_of r) as tr eqn:Htr. subst r. unfold mainFrom in Htr.
  destruct (printed_silent _ (gatherFiles_printed (InputPath config)
              (fs_tree (InputPath config) w) lastRun)) as (Hi1 & Hi2 & _).
  destruct (printed_silent _ (gatherFiles_printed (OutputPath config)
              (fs_tree (OutputPath config) w) None)) as (Ho1 & Ho2 & _).
  unfold bind at 1 in Htr. rewrite !gatherFilesIn_result in Htr.
  cbn [outcome_of world_of trace_of] in Htr.
  unfold bind at 1 in Htr. rewrite !gatherFilesIn_result in Htr.
  cbn [outcome_of world_of trace_of] in Htr.
  fold filesInInputPath in Htr. fold filesInOutputPath in Htr.
  fold inFilesMap in Htr.
  assert (Hsilent : ∀ t,
    renames (((gatherFiles (InputPath config) (fs_tree (InputPath config) w)
                 lastRun).2 ++
              (gatherFiles (OutputPath config) (fs_tree (OutputPath config) w)
                 None).2 ++ t)) = renames t ∧
    copies (((gatherFiles (InputPath config) (fs_tree (InputPath config) w)
                 lastRun).2 ++
              (gatherFiles (OutputPath config) (fs_tree (OutputPath config) w)
                 None).2 ++ t)) = copies t).
  { intros t. by rewrite !renames_app, !copies_app, Hi1, Hi2, Ho1, Ho2. }
  unfold bind at 1 in Htr.
  rewrite (calls_result (os_OpenFile_append "file_error.log" perm0644) w) in Htr.
  cbn [outcome_of world_of trace_of app] in Htr.
  destruct (os_OpenFile_append "file_error.log" perm0644 w) as [w1 [f|e]];
    cbn [fst snd] in Htr.
  2:{ exists [], []. subst tr.
      match goal with |- context [renames (_ ++ _ ++ ?t)] =>
        destruct (Hsilent t) as [-> ->] end.
      repeat split; try apply prefix_nil; done. }
  unfold bind at 1 in Htr.
  destruct (trashLoop_cases config trashPath processStart inFilesMap f
              filesInOutputPath w1)
    as [(Hout & Hrn & Hcp & _)|
        (Hout & _ & _ & before & rest & Heq & _ & Hrn & Hcp)];
    rewrite Hout in Htr; cbn [outcome_of world_of trace_of] in Htr.
  2:{ exists before, []. subst tr.
      match goal with |- context [renames (_ ++ _ ++ ?t)] =>
        destruct (Hsilent t) as [-> ->] end.
      rewrite Hrn, Hcp.
      repeat split; try apply prefix_nil; try done. by exists rest. }
  set (w2 := world_of _) in Htr. unfold bind at 1 in Htr.
  destruct (copyLoop_cases config f filesInInputPath w2)
    as [(Hout' & Hrn' & Hcp' & _)|
        (Hout' & _ & _ & before & rest & Heq & _ & Hrn' & Hcp')];
    rewrite Hout' in Htr; cbn [outcome_of world_of trace_of] in Htr.
  2:{ exists filesInOutputPath, before. subst tr.
      match goal with |- context [renames (_ ++ _ ++ ?t)] =>
        destruct (Hsilent t) as [-> ->] end.
      rewrite renames_app, copies_app, Hrn, Hcp, Hrn', Hcp', app_nil_r.
      repeat split; try done. by exists rest. }
  set (w3 := world_of _) in Htr.
  destruct (saveRunTime_cases processStart w3) as (res & _ & Hso & Hst).
  cbv zeta in Hso, Hst. unfold bind at 1 in Htr. rewrite Hso, Hst in Htr.
  exists filesInOutputPath, filesInInputPath. subst tr.
  match goal with |- context [renames (_ ++ _ ++ ?t)] =>
    destruct (Hsilent t) as [-> ->] end.
  rewrite !renames_app, !copies_app, Hrn, Hcp, Hrn', Hcp'.
  destruct res; cbn; rewrite !app_nil_r; done.
Qed.

End MainLemmas.

Section MainClaims.
Import Incremental IncrementalLemmas.
Context {World Handle : Type} `{os : OS World Handle}.

(** C7.  In a tree whose names are names of directory entries, every
    record of a scan is made from a file reached from the root through
    names none of which is "trash", and its location is the root joined
    with those names, in both programs.  In a run of [main] from the
    scans on, every file moved to the trash is such a file of the output
    tree and every file copied is such a file of the input tree: nothing
    below a directory named "trash" is scanned, moved or copied. *)
Theorem nothing_below_trash_is_scanned_moved_or_copied
    root tree scanLastRun processStart config trashPath lastRun (w : World) :
  wfNode tree = true →
  wfNode (fs_tree (InputPath config) w) = true →
  wfNode (fs_tree (OutputPath config) w) = true →
  let r := mainFrom processStart config trashPath lastRun w in
  (∀ f, f ∈ (gatherFiles root tree scanLastRun).1.1 →
        ∃ names mt,
          reaches tree names (File mt) ∧ ("trash" ∉ names) ∧
          Location f = joinAll root names ∧ ModTime f = mt) ∧
  (∀ f, f ∈ (Simple.gatherFiles root tree).1.1 →
        ∃ names mt,
          reaches tree names (File mt) ∧ ("trash" ∉ names) ∧
          Simple.Location f = joinAll root names ∧ Simple.ModTime f = mt) ∧
  (∀ src dest, (src, dest) ∈ renames (trace_of r) →
        ∃ names mt,
          reaches (fs_tree (OutputPath config) w) names (File mt) ∧
          ("trash" ∉ names) ∧
          src = joinAll (OutputPath config) names) ∧
  (∀ src dest, (src, dest) ∈ copies (trace_of r) →
        ∃ names mt,
          reaches (fs_tree (InputPath config) w) names (File mt) ∧
          ("trash" ∉ names) ∧
          src = filepath.Join
                  [InputPath config;
                   (filepath.Rel (InputPath config)
                      (joinAll (InputPath config) names)).1]).
Proof.
  intros Hwf Hwfi Hwfo r.
  destruct (scan_records_outside_trash root tree scanLastRun Hwf) as [H1 H2].
  split; [exact H1|]. split; [exact H2|].
  destruct (mainFrom_moves_and_copies processStart config trashPath lastRun w)
    as (outputs & inputs & [ko Hko] & [ki Hki] & Hrn & Hcp).
  fold r in Hrn, Hcp. split.
  - intros src dest Hin. rewrite Hrn in Hin.
    apply list_elem_of_fmap in Hin as (o & [= -> ->] & Ho).
    apply list_elem_of_filter in Ho as [_ Ho].
    destruct (scan_records_outside_trash (OutputPath config)
                (fs_tree (OutputPath config) w) None Hwfo) as [Hscan _].
    destruct (Hscan o) as (names & mt & ? & ? & ? & _).
    { rewrite Hko. apply elem_of_app. by left. }
    exists names, mt. done.
  - intros src dest Hin. rewrite Hcp in Hin.
    apply list_elem_of_fmap in Hin as (i & [= -> ->] & Hi).
    apply list_elem_of_filter in Hi as [_ Hi].
    destruct (scan_records_outside_trash (InputPath config)
                (fs_tree (InputPath config) w) lastRun Hwfi) as [Hscan _].
    destruct (Hscan i) as (names & mt & ? & ? & Hloc & _).
    { rewrite Hki. apply elem_of_app. by left. }
    exists names, mt. unfold relIn. rewrite Hloc. done.
Qed.

(** C6.  When time.txt cannot be read, or what it holds cannot be
    parsed, the last run is nil and nothing is printed or changed, so
    [main] goes on as with no last run, and every record of a scan with
    no last run is flagged new.  When writing time.txt at the end fails,
    the process exits with status 1. *)
Theorem missing_run_state_is_no_prior_run_and_failed_save_is_fatal
    processStart config trashPath (w : World) :
  ((∃ e, os_ReadFile "./time.txt" w = Failed e) ∨
   (∃ data e, os_ReadFile "./time.txt" w = Ok data ∧
              time_Parse_RFC3339 data = Failed e)) →
  loadLastRun w = mkResult (Returned None) w [] ∧
  (let* lastRun := loadLastRun in
   mainFrom processStart config trashPath lastRun) w =
    mainFrom processStart config trashPath None w ∧
  (∀ root tree f, f ∈ (gatherFiles root tree None).1.1 → New f = true) ∧
  (∀ w' e,
      (os_WriteFile "./time.txt" (time.Format_RFC3339 processStart)
                    perm0644 w').2 = Some e →
      outcome_of (saveRunTime processStart w') = Exited 1 ∧
      writes (trace_of (saveRunTime processStart w')) =
        [("./time.txt", time.Format_RFC3339 processStart, Some e)]).
Proof.
  intros Hstate.
  assert (Hload : loadLastRun w = mkResult (Returned None) w []).
  { unfold loadLastRun, bind, reads, ret. cbn.
    destruct Hstate as [[e ->]|(data & e & -> & ->)]; done. }
  repeat split.
  - done.
  - unfold bind at 1. rewrite Hload. cbn.
    by destruct (mainFrom processStart config trashPath None w).
  - intros root tree f Hin.
    by rewrite (New_of_scan root tree None f Hin).
  - destruct (saveRunTime_cases processStart w') as (res & Hw & Hout & _).
    cbv zeta in *. rewrite Hw in H. cbn in H. subst res. done.
  - destruct (saveRunTime_cases processStart w') as (res & Hw & _ & Htr).
    cbv zeta in *. rewrite Hw in H. cbn in H. subst res. by rewrite Htr.
Qed.

End MainClaims.

(** * The earlier program *)

Section SimpleClaims.
Import Simple.
Context {World Handle : Type} `{os : OS World Handle}.

(** What one round of the copy loop of [process] does. *)
Lemma Simple_copyBody_ok config outFilesMap logger input w :
  let r := copyBody config outFilesMap logger input w in
  (outcome_of r = Returned tt ∧
   renames (trace_of r) = [] ∧
   copies (trace_of r) =
     (if negb (skipsCopy outFilesMap (relIn config input) input)
      then [copyArgs config input] else []) ∧
   mkdirFailures (trace_of r) = [] ∧ writes (trace_of r) = []) ∨
  (outcome_of r = Exited 1 ∧
   renames (trace_of r) = [] ∧ copies (trace_of r) = [] ∧
   mkdirFailures (trace_of r) ≠ [] ∧ writes (trace_of r) = []).
Proof.
  intros r. subst r. unfold copyBody, copyArgs, relIn.
  set (relativePath := (filepath.Rel (InputPath config) (Location input)).1).
  set (source := filepath.Join [InputPath config; relativePath]).
  set (destination := filepath.Join [OutputPath config; relativePath]).
  destruct (skipsCopy outFilesMap relativePath input); [left; done|].
  destruct (createIfNotExist_cases (filepath.Dir destination) w)
    as [[Hout Htr]|(e & Hout & Htr)].
  - left. rewrite (bind_Returned _ _ _ _ Hout). cbn [outcome_of trace_of].
    generalize (world_of (createIfNotExist (filepath.Dir destination) w)).
    intros w1.
    destruct (copyFile_returns source destination w1) as (err & Hc & Hct).
    destruct (traced_returns (Call_copyFile source destination) _ _ _ Hc)
      as (Ht1 & Ht2 & _).
    rewrite (bind_Returned _ _ _ _ Ht1). cbn [outcome_of trace_of].
    rewrite Ht2, Hct. destruct Htr as [-> | ->], err; done.
  - right. rewrite (bind_Exited _ _ _ _ Hout). cbn [outcome_of trace_of].
    rewrite Htr. done.
Qed.


End SimpleClaims.

(** * The path in the trash *)

Lemma string_app_cons (c : ascii) (a b : string) :
  String c a +:+ b = String c (a +:+ b).
Proof. reflexivity. Qed.

Lemma string_length_app (a b : string) :
  String.length (a +:+ b) = String.length a + String.length b.
Proof.
  induction a as [|c a IH]; [done|]. rewrite string_app_cons. cbn. by rewrite IH.
Qed.

Lemma substring_whole (s : string) : String.substring 0 (String.length s) s = s.
Proof. induction s as [|c s IH]; [done|]. cbn. by rewrite IH. Qed.

Lemma substring_app_r (stem ext : string) :
  String.substring (String.length stem) (String.length ext) (stem +:+ ext) = ext.
Proof.
  induction stem as [|c stem IH]; [apply substring_whole|].
  rewrite string_app_cons. exact IH.
Qed.

Lemma substring_app_l (stem ext : string) :
  String.substring 0 (String.length stem) (stem +:+ ext) = stem.
Proof.
  induction stem as [|c stem IH]; [by destruct ext|].
  rewrite string_app_cons. cbn. by rewrite IH.
Qed.

Lemma string_of_chars_app (a b : chars) :
  string_of_list_ascii (a ++ b) = string_of_list_ascii a +:+ string_of_list_ascii b.
Proof.
  induction a as [|c a IH]; [done|]. cbn [app string_of_list_ascii].
  by rewrite string_app_cons, IH.
Qed.

Lemma string_app_assoc (a b c : string) : (a +:+ b) +:+ c = a +:+ b +:+ c.
Proof.
  induction a as [|x a IH]; [done|]. by rewrite !string_app_cons, IH.
Qed.

(** [strings.TrimSuffix] takes off a suffix that is there. *)
Lemma TrimSuffix_app (stem ext : string) : TrimSuffix (stem +:+ ext) ext = stem.
Proof.
  unfold TrimSuffix, HasSuffix. rewrite string_length_app.
  replace (String.length stem + String.length ext - String.length ext)
    with (String.length stem) by lia.
  rewrite substring_app_r, String.eqb_refl, substring_app_l.
  replace (String.length ext <=? String.length stem + String.length ext)%nat
    with true; [done|]. symmetry. apply Nat.leb_le. lia.
Qed.

(** [filepath.Ext] is a suffix of its argument. *)
Lemma extRev_suffix (r acc : chars) :
  ∃ stem, rev r ++ acc = stem ++ filepath.extRev r acc.
Proof.
  revert acc. induction r as [|c r IH]; intros acc; cbn [filepath.extRev].
  - exists (rev [] ++ acc). by rewrite app_nil_r.
  - destruct (isSep c); [exists (rev (c :: r) ++ acc); by rewrite app_nil_r|].
    destruct (Ascii.eqb c "."%char).
    + exists (rev r). cbn [rev]. by rewrite <- app_assoc.
    + destruct (IH (c :: acc)) as [stem Hstem]. exists stem.
      cbn [rev]. by rewrite <- app_assoc.
Qed.

Lemma Ext_suffix (name : string) : ∃ stem, name = stem +:+ filepath.Ext name.
Proof.
  unfold filepath.Ext.
  destruct (extRev_suffix (rev (list_ascii_of_string name)) []) as [stem Hstem].
  rewrite rev_involutive, app_nil_r in Hstem.
  exists (string_of_list_ascii stem).
  rewrite <- string_of_chars_app, <- Hstem.
  by rewrite string_of_list_ascii_of_string.
Qed.

(** The new name: the name with a dot and the timestamp before its
    extension. *)
Lemma trashNewName_shape processStart (output : Incremental.filesData) :
  ∃ stem,
    Incremental.Name output = stem +:+ filepath.Ext (Incremental.Name output) ∧
    Incremental.trashNewName processStart output =
      stem +:+ "." +:+ time.Format_20060102150405 processStart +:+
      filepath.Ext (Incremental.Name output).
Proof.
  destruct (Ext_suffix (Incremental.Name output)) as [stem Hstem].
  exists stem. split; [done|]. unfold Incremental.trashNewName.
  rewrite Hstem at 1. rewrite TrimSuffix_app. by rewrite string_app_assoc.
Qed.

(** C2.  The path in the trash of every output file is the trash path
    joined with the new name alone, the new name being the name with a dot
    and the timestamp of the start of the run before its extension; the
    relative directory of the file is not part of it.  For the output file
    out/sub/old.txt with no input file, in a run started on 2024-01-02 at
    03:04:05, [main] renames the file to out/trash/old.20240102030405.txt;
    the path of the specification, with the relative directory sub, is
    another one. *)
Theorem trash_path_drops_the_relative_directory :
  let output :=
    Incremental.mkFilesData "old.txt" "out/sub/old.txt" Sample.earlier true in
  (∀ trashPath processStart (o : Incremental.filesData),
      ∃ stem,
        Incremental.Name o = stem +:+ filepath.Ext (Incremental.Name o) ∧
        Incremental.trashNewPath trashPath processStart o =
          filepath.Join
            [trashPath;
             stem +:+ "." +:+ time.Format_20060102150405 processStart +:+
             filepath.Ext (Incremental.Name o)]) ∧
  Incremental.trashNewName Sample.start output = "old.20240102030405.txt" ∧
  Incremental.trashNewPath "out/trash" Sample.start output =
    "out/trash/old.20240102030405.txt" ∧
  Incremental.specTrashPath Sample.config "out/trash" Sample.start output =
    "out/trash/sub/old.20240102030405.txt" ∧
  Simple.trashNewPath "out/trash" Sample.start
    (Simple.mkFilesData "old.txt" "out/sub/old.txt" Sample.earlier) =
    "out/trash/old.20240102030405.txt" ∧
  renames (trace_of (Incremental.main Sample.world)) =
    [("out/sub/old.txt", "out/trash/old.20240102030405.txt");
     ("out/x/old.txt", "out/trash/old.20240102030405.txt")].
Proof.
  split.
  - intros trashPath processStart o.
    destruct (trashNewName_shape processStart o) as (stem & Hname & Hnew).
    exists stem. split; [done|]. unfold Incremental.trashNewPath. by rewrite Hnew.
  - vm_compute. repeat split; reflexivity.
Qed.

(** * The statements on the sample worlds *)

Module Witnesses.
Import Sim Sample.

(** The simulated [rename] replaces the destination, and the simulated
    [MkdirAll] leaves the files alone. *)
Lemma Sim_rename_replaces src dest (w0 w' : World) :
  Rename src dest w0 = (w', None) → ReadFile dest w' = ReadFile src w0.
Proof.
  unfold Rename, ReadFile.
  destruct (lookup src (files w0)) as [data|] eqn:Hsrc; [|done].
  destruct (has dest (readOnly w0)); [done|].
  intros [= <-]. cbn. by rewrite decide_True.
Qed.

Lemma Sim_mkdir_keeps_files dir perm (w0 : World) name :
  ReadFile name (MkdirAll dir perm w0).1 = ReadFile name w0.
Proof. unfold MkdirAll. by destruct (has dir (deniedDirs w0)). Qed.

(** The scans of the sample trees: the file in the trash is not in the
    output scan; a.txt, modified at the instant of the last run, is not
    new, b.txt, modified later, is. *)
Example sample_scans :
  inputs = [Incremental.mkFilesData "a.txt" "in/a.txt" earlier false;
            Incremental.mkFilesData "b.txt" "in/sub/b.txt" start true] ∧
  outputs = [old1; old2].
Proof. vm_compute. split; reflexivity. Qed.

(** A run on the world whose input root does not exist: the scan of the
    input prints and is empty, the run goes on, both output files are
    moved to the trash, and the run ends normally with time.txt written. *)
Example run_without_input_root :
  let r := Incremental.main noInputWorld in
  Incremental.gatherFiles "in" (tree "in" noInputWorld) None =
    ([], None, [Printf_FailedAccessing "in" ErrNotExist]) ∧
  outcome_of r = Returned tt ∧
  trace_of r =
    [Printf_FailedAccessing "in" ErrNotExist;
     Call_Rename "out/sub/old.txt" "out/trash/old.20240102030405.txt" None;
     Call_Rename "out/x/old.txt" "out/trash/old.20240102030405.txt" None;
     Call_WriteFile "./time.txt" "2024-01-02T03:04:05Z" None].
Proof. vm_compute. repeat split; reflexivity. Qed.

(** A run in which one input file cannot be opened: the failure is
    logged, the other file is copied, time.txt is written. *)
Example run_with_unreadable_file :
  let r := Incremental.main unreadableWorld in
  outcome_of r = Returned tt ∧
  trace_of r =
    [Call_copyFile "in/a.txt" "out/a.txt" (Some ErrNotExist);
     Logger_Println "Failed copying file: " "a.txt";
     Call_MkdirAll "out/sub" None;
     Call_copyFile "in/sub/b.txt" "out/sub/b.txt" None;
     Call_WriteFile "./time.txt" "2024-01-02T03:04:05Z" None] ∧
  ReadFile "out/sub/b.txt" (world_of r) = Ok "B".
Proof. vm_compute. repeat split; reflexivity. Qed.

(** A run in which time.txt cannot be written: both files are copied and
    the process exits with status 1. *)
Example run_with_read_only_state :
  let r := Incremental.main readOnlyWorld in
  outcome_of r = Exited 1 ∧
  copies (trace_of r) =
    [("in/a.txt", "out/a.txt"); ("in/sub/b.txt", "out/sub/b.txt")] ∧
  writes (trace_of r) =
    [("./time.txt", "2024-01-02T03:04:05Z", Some ErrPermission)].
Proof. vm_compute. repeat split; reflexivity. Qed.

(** A later run: a.txt was modified at the instant of the last run and is
    left alone, b.txt was modified after it and is copied. *)
Example later_run :
  let r := Incremental.main laterWorld in
  outcome_of r = Returned tt ∧
  copies (trace_of r) = [("in/sub/b.txt", "out/sub/b.txt")] ∧
  renames (trace_of r) = [].
Proof. vm_compute. repeat split; reflexivity. Qed.

(** C4 on the sample input tree. *)
Lemma new_iff_modified_after_last_run_witness :
  let f := Incremental.mkFilesData "a.txt" "in/a.txt" earlier false in
  f ∈ (Incremental.gatherFiles "in" inputTree (Some earlier)).1.1 ∧
  (Incremental.New f = true ↔
     Some earlier = None ∨
     ∃ t, Some earlier = Some t ∧
          (unixNano t < unixNano (Incremental.ModTime f))%Z).
Proof.
  assert (Hin : Incremental.mkFilesData "a.txt" "in/a.txt" earlier false
                ∈ (Incremental.gatherFiles "in" inputTree (Some earlier)).1.1).
  { refine (bool_decide_unpack _ _). vm_compute. exact I. }
  split; [exact Hin|].
  exact (proj1 (new_iff_modified_after_last_run "in" inputTree (Some earlier) _ Hin)).
Defined.


(** C6 on the sample world, which has no time.txt. *)
Lemma missing_run_state_witness :
  ((∃ e, ReadFile "./time.txt" world = Failed e) ∨
   (∃ data e, ReadFile "./time.txt" world = Ok data ∧ Parse data = Failed e)) ∧
  Incremental.loadLastRun world = mkResult (Returned None) world [].
Proof.
  assert (H : (∃ e, ReadFile "./time.txt" world = Failed e) ∨
              (∃ data e, ReadFile "./time.txt" world = Ok data ∧
                         Parse data = Failed e)).
  { left. exists ErrNotExist. vm_compute. reflexivity. }
  split; [exact H|].
  exact (proj1 (missing_run_state_is_no_prior_run_and_failed_save_is_fatal
                  start config "out/trash" world H)).
Defined.

(** C7 on the sample world. *)
Lemma nothing_below_trash_witness :
  wfNode outputTree = true ∧
  wfNode (tree "in" world) = true ∧
  wfNode (tree "out" world) = true ∧
  ∀ f, f ∈ (Incremental.gatherFiles "out" outputTree None).1.1 →
       ∃ names mt,
         reaches outputTree names (File mt) ∧ ("trash" ∉ names) ∧
         Incremental.Location f = joinAll "out" names ∧
         Incremental.ModTime f = mt.
Proof.
  assert (H1 : wfNode outputTree = true) by (vm_compute; reflexivity).
  assert (H2 : wfNode (tree "in" world) = true) by (vm_compute; reflexivity).
  assert (H3 : wfNode (tree "out" world) = true) by (vm_compute; reflexivity).
  split; [exact H1|]. split; [exact H2|]. split; [exact H3|].
  exact (proj1 (nothing_below_trash_is_scanned_moved_or_copied
                  "out" outputTree None start config "out/trash" None world
                  H1 H2 H3)).
Defined.


(** C10 on the sample world: the two files named old.txt go to one path
    in the trash, which ends up holding the content of the second. *)
Lemma same_name_orphans_witness :
  let inFilesMap := Incremental.buildInFilesMap config inputs in
  let body := Incremental.trashBody config "out/trash" start inFilesMap
                "file_error.log" in
  Incremental.Name old1 = Incremental.Name old2 ∧
  Incremental.isOrphan config inFilesMap old1 = true ∧
  Incremental.isOrphan config inFilesMap old2 = true ∧
  Incremental.trashNewPath "out/trash" start old2 =
    Incremental.trashNewPath "out/trash" start old1 ∧
  ReadFile "out/trash/old.20240102030405.txt"
           (world_of (body old1 world)) = Ok "first" ∧
  ReadFile "out/trash/old.20240102030405.txt"
           (world_of (forRange [old1; old2] body world)) = Ok "second".
Proof.
  assert (H1 : Incremental.isOrphan config
                 (Incremental.buildInFilesMap config inputs) old1 = true)
    by (vm_compute; reflexivity).
  assert (H2 : Incremental.isOrphan config
                 (Incremental.buildInFilesMap config inputs) old2 = true)
    by (vm_compute; reflexivity).
  split; [reflexivity|]. split; [exact H1|]. split; [exact H2|]. split.
  - exact (proj1 (same_name_orphans_share_one_trash_path config "out/trash"
                    start (Incremental.buildInFilesMap config inputs)
                    "file_error.log" old1 old2 world eq_refl H1 H2
                    Sim_rename_replaces Sim_mkdir_keeps_files)).
  - split; vm_compute; reflexivity.
Defined.

End Witnesses.

(** * The scan, exactly *)

Lemma filesBelow_Dir path mt names :
  filesBelow path (Dir mt None names) = filesBelowNames path names.
Proof.
  cbn [filesBelow]. induction names as [|[name child] rest IH]; [done|].
  cbn [filesBelowNames]. by rewrite IH.
Qed.

Lemma printedBelow_Dir path mt names :
  printedBelow path (Dir mt None names) = printedBelowNames path names.
Proof.
  cbn [printedBelow]. induction names as [|[name child] rest IH]; [done|].
  cbn [printedBelowNames]. by rewrite IH.
Qed.

Section ScanExact.
Context {A : Type}.
Variable visit :
  string → option FileInfo → option error → list event * (A * bool).
Variable zero : A.
Variable make : string → FileInfo → A.

(** The two [visitFileInfos] have this form. *)
Hypothesis visit_form :
  ∀ path info err,
    visit path info err =
    match err, info with
    | Some e, _ => ([Printf_FailedAccessing path e], (zero, false))
    | None, Some info =>
        if info_IsDir info then ([], (zero, false))
        else ([], (make path info, true))
    | None, None => ([], (zero, false))
    end.

Let made (file : string * Time) : A :=
  make file.1 (mkFileInfo (filepath.Base file.1) file.2 false).

Lemma gatherWith_trash path info err s :
  filepath.Base path = "trash" →
  gatherWith visit path info err s = (s, Some SkipDir).
Proof.
  intros Hb. destruct s as [files printed]. unfold gatherWith.
  by rewrite decide_True.
Qed.

Lemma walk_gather_trash path n s :
  filepath.Base path = "trash" →
  walk (gatherWith visit) path n s = (s, Some SkipDir).
Proof.
  intros Hb. destruct n as [e|mt|mt rd names].
  - cbn [walk]. by apply gatherWith_trash.
  - cbn [walk]. by apply gatherWith_trash.
  - rewrite walk_Dir, gatherWith_trash by done. by destruct rd.
Qed.

Lemma walk_gather_exact n :
  wfNode n = true →
  ∀ path files printed,
    filepath.Base path ≠ "trash" →
    ∃ err,
      walk (gatherWith visit) path n (files, printed) =
        ((files ++ (made <$> filesBelow path n), printed ++ printedBelow path n),
         err) ∧
      (err = None ∨ (err = Some SkipDir ∧ isFileNode n = false)).
Proof.
  induction n as [e|mt|mt rd ents IH] using node_ind';
    intros Hwf path files printed Hb.
  - exists None. split; [|by left]. cbn [walk]. unfold gatherWith.
    rewrite decide_False by done. rewrite visit_form. cbn.
    by rewrite app_nil_r.
  - exists None. split; [|by left]. cbn [walk Lstat fst]. unfold gatherWith.
    rewrite decide_False by done. rewrite visit_form. cbn.
    by rewrite app_nil_r.
  - rewrite walk_Dir. cbn [Lstat fst]. unfold gatherWith at 1.
    rewrite decide_False by done. rewrite visit_form.
    destruct rd as [e|].
    { exists None. split; [|by left]. cbn. by rewrite app_nil_r. }
    cbn [info_IsDir]. cbv iota beta. rewrite app_nil_r.
    rewrite filesBelow_Dir, printedBelow_Dir.
    assert (Hloop : ∀ rest files printed,
      (∀ p, p ∈ rest → p ∈ ents) →
      ∃ err,
        walkNames (gatherWith visit) path rest (files, printed) =
          ((files ++ (made <$> filesBelowNames path rest),
            printed ++ printedBelowNames path rest), err) ∧
        (err = None ∨ err = Some SkipDir)).
    { clear files printed. induction rest as [|[name child] rest IHrest];
        intros files printed Hsub.
      { exists None. split; [|by left]. cbn. by rewrite !app_nil_r. }
      rewrite walkNames_cons. cbn [filesBelowNames printedBelowNames].
      assert (Hin : (name, child) ∈ ents) by (apply Hsub; left).
      assert (Hwfc : validName name = true ∧ wfNode child = true).
      { simpl in Hwf. rewrite forallb_forall in Hwf.
        apply list_elem_of_In in Hin. specialize (Hwf _ Hin).
        by apply andb_true_iff in Hwf. }
      destruct Hwfc as [Hvn Hwc].
      assert (Hrest : ∀ files printed,
        ∃ err,
          walkNames (gatherWith visit) path rest (files, printed) =
            ((files ++ (made <$> filesBelowNames path rest),
              printed ++ printedBelowNames path rest), err) ∧
          (err = None ∨ err = Some SkipDir)).
      { intros files' printed'. apply IHrest. intros p Hp. apply Hsub. by right. }
      case_decide as Hname.
      - (* an entry named trash *)
        rewrite walk_gather_trash by (subst name; by rewrite Base_Join).
        rewrite bool_decide_eq_true_2 by done. cbn [andb].
        destruct (isFileNode child); cbn [negb].
        + exists (Some SkipDir). split; [|by right]. cbn. by rewrite !app_nil_r.
        + apply Hrest.
      - rewrite Forall_forall in IH.
        destruct (IH _ Hin Hwc (filepath.Join [path; name]) files printed)
          as (err & Hw & Herr).
        { by rewrite Base_Join. }
        cbn [snd] in Hw. rewrite Hw.
        destruct (Hrest (files ++ (made <$> filesBelow (filepath.Join [path; name]) child))
                    (printed ++ printedBelow (filepath.Join [path; name]) child))
          as (err' & Hw' & Herr').
        exists err'. split; [|done]. rewrite fmap_app, !app_assoc.
        destruct Herr as [->|[-> Hfile]]; [exact Hw'|]. cbn [snd] in Hfile.
        rewrite bool_decide_eq_true_2 by done. rewrite Hfile. exact Hw'. }
    destruct (Hloop ents files printed ltac:(auto)) as (err & Hw & Herr).
    exists err. split; [exact Hw|]. destruct Herr as [->| ->]; auto.
Qed.

(** What [filepath.Walk] returns with such a function, for any root. *)
Lemma Walk_gather_exact root tree :
  wfNode tree = true →
  Walk (gatherWith visit) root tree ([], []) =
    if decide (filepath.Base root = "trash") then (([], []), None)
    else ((made <$> filesBelow root tree, printedBelow root tree), None).
Proof.
  intros Hwf. unfold Walk. case_decide as Hb.
  - destruct (Lstat root tree) as [info [e|]].
    + by rewrite gatherWith_trash.
    + by rewrite walk_gather_trash.
  - destruct (walk_gather_exact tree Hwf root [] [] Hb) as (err & Hw & Herr).
    cbn [app] in Hw.
    destruct tree as [e|mt|mt rd ents]; cbn [Lstat].
    + cbn [walk] in Hw. rewrite Hw. by destruct Herr as [->|[-> _]].
    + rewrite Hw. by destruct Herr as [->|[-> _]].
    + rewrite Hw. by destruct Herr as [->|[-> _]].
Qed.

End ScanExact.

(** The two scans, exactly. *)
Lemma gatherFiles_exact root tree lastRun :
  wfNode tree = true →
  Incremental.gatherFiles root tree lastRun =
    (if decide (filepath.Base root = "trash") then ([], None, [])
     else (recordOf lastRun <$> filesBelow root tree, None,
           printedBelow root tree)) ∧
  Simple.gatherFiles root tree =
    (if decide (filepath.Base root = "trash") then ([], None, [])
     else (simpleRecordOf <$> filesBelow root tree, None,
           printedBelow root tree)).
Proof.
  intros Hwf. split.
  - unfold Incremental.gatherFiles. rewrite gatherFn_shape.
    rewrite (Walk_gather_exact _ Incremental.zeroFilesData
               (λ path info, Incremental.mkFilesData (info_Name info) path
                               (info_ModTime info)
                               (isNew lastRun (info_ModTime info))));
      [by case_decide|by intros path [i|] [e|]|done].
  - unfold Simple.gatherFiles. rewrite Simple_gatherFn_shape.
    rewrite (Walk_gather_exact _ Simple.zeroFilesData
               (λ path info, Simple.mkFilesData (info_Name info) path
                               (info_ModTime info)));
      [by case_decide|by intros path [i|] [e|]|done].
Qed.

(** X1.  The scan of a tree whose names are names of directory entries is
    read off the tree: nothing when the last element of the root is
    "trash"; otherwise a record for every file of [filesBelow], in that
    order, named by the last element of its path and flagged by its time,
    a line printed for every entry of [printedBelow], and a nil error.
    The same holds in the earlier program, without the flag. *)
Theorem scan_is_read_off_the_tree root tree lastRun :
  wfNode tree = true →
  Incremental.gatherFiles root tree lastRun =
    (if decide (filepath.Base root = "trash") then ([], None, [])
     else (recordOf lastRun <$> filesBelow root tree, None,
           printedBelow root tree)) ∧
  Simple.gatherFiles root tree =
    (if decide (filepath.Base root = "trash") then ([], None, [])
     else (simpleRecordOf <$> filesBelow root tree, None,
           printedBelow root tree)).
Proof. apply gatherFiles_exact. Qed.

(** * A run of [main], phase by phase *)

Section RunOfMain.
Import Incremental IncrementalLemmas.
Context {World Handle : Type} `{os : OS World Handle}.

Lemma result_eta {A} (r : result World A) :
  mkResult (outcome_of r) (world_of r) (trace_of r) = r.
Proof. by destruct r. Qed.

Lemma bind_known {A B} (m : M World A) (k : A → M World B) w a w' tr :
  m w = mkResult (Returned a) w' tr →
  bind m k w =
  mkResult (outcome_of (k a w')) (world_of (k a w')) (tr ++ trace_of (k a w')).
Proof. intros H. unfold bind. by rewrite H. Qed.

(** The loops, the writing and the closing go one of three ways. *)
Lemma mainPhases_cases config trashPath processStart inFilesMap f
    (outputs inputs : list filesData) (w : World) :
  let r := mainPhases config trashPath processStart inFilesMap f outputs inputs w in
  let data := time.Format_RFC3339 processStart in
  ∃ moves copied saved,
    trace_of r = moves ++ copied ++ saved ∧
    copies moves = [] ∧ writes moves = [] ∧
    renames copied = [] ∧ writes copied = [] ∧
    ((outcome_of r = Returned tt ∧
      mkdirFailures moves = [] ∧ mkdirFailures copied = [] ∧
      renames moves =
        trashMove trashPath processStart <$>
          filter (λ o, isOrphan config inFilesMap o = true) outputs ∧
      copies copied = copyArgs config <$> filter (λ i, New i = true) inputs ∧
      saved = [Call_WriteFile "./time.txt" data None]) ∨
     (outcome_of r = Exited 1 ∧
      mkdirFailures moves = [] ∧ mkdirFailures copied = [] ∧
      renames moves =
        trashMove trashPath processStart <$>
          filter (λ o, isOrphan config inFilesMap o = true) outputs ∧
      copies copied = copyArgs config <$> filter (λ i, New i = true) inputs ∧
      ∃ e, saved = [Call_WriteFile "./time.txt" data (Some e);
                    Log_Print "Failed updating time.txt: " (Some e)]) ∨
     (outcome_of r = Exited 1 ∧
      mkdirFailures (moves ++ copied) ≠ [] ∧ saved = [] ∧
      ∃ outputs' inputs',
        outputs' `prefix_of` outputs ∧ inputs' `prefix_of` inputs ∧
        renames moves =
          trashMove trashPath processStart <$>
            filter (λ o, isOrphan config inFilesMap o = true) outputs' ∧
        copies copied = copyArgs config <$> filter (λ i, New i = true) inputs')).
Proof.
  intros r data. subst r. unfold mainPhases.
  destruct (trashLoop_cases config trashPath processStart inFilesMap f outputs w)
    as [(Hout & Hrn & Hcp & Hmk & Hwr)|
        (Hout & Hmk & Hwr & before & rest & Heq & _ & Hrn & Hcp)].
  2:{ rewrite (bind_Exited _ _ _ _ Hout). cbn [outcome_of world_of trace_of].
      set (r1 := forRange outputs _ w) in *.
      exists (trace_of r1), [], []. rewrite !app_nil_r.
      split; [done|]. split; [done|]. split; [done|]. split; [done|].
      split; [done|]. right. right.
      split; [done|]. split; [done|]. split; [done|].
      exists before, []. split; [by exists rest|]. split; [apply prefix_nil|].
      by split. }
  rewrite (bind_Returned _ _ _ _ Hout). cbn [outcome_of world_of trace_of].
  set (r1 := forRange outputs _ w) in *.
  destruct (copyLoop_cases config f inputs (world_of r1))
    as [(Hout' & Hrn' & Hcp' & Hmk' & Hwr')|
        (Hout' & Hmk' & Hwr' & before & rest & Heq & _ & Hrn' & Hcp')].
  2:{ rewrite (bind_Exited _ _ _ _ Hout'). cbn [outcome_of world_of trace_of].
      set (r2 := forRange inputs _ (world_of r1)) in *.
      exists (trace_of r1), (trace_of r2), []. rewrite !app_nil_r.
      split; [done|]. split; [done|]. split; [done|]. split; [done|].
      split; [done|]. right. right.
      split; [done|]. split; [by rewrite mkdirFailures_app, Hmk|].
      split; [done|].
      exists outputs, before. split; [done|]. split; [by exists rest|].
      by split. }
  rewrite (bind_Returned _ _ _ _ Hout'). cbn [outcome_of world_of trace_of].
  set (r2 := forRange inputs _ (world_of r1)) in *.
  destruct (saveRunTime_cases processStart (world_of r2)) as (res & _ & Hso & Hst).
  cbv zeta in Hso, Hst.
  destruct res as [e|].
  - rewrite (bind_Exited _ _ _ _ Hso). cbn [outcome_of world_of trace_of].
    rewrite Hst.
    exists (trace_of r1), (trace_of r2),
      [Call_WriteFile "./time.txt" data (Some e);
       Log_Print "Failed updating time.txt: " (Some e)].
    split; [done|]. split; [done|]. split; [done|]. split; [done|].
    split; [done|]. right. left.
    split; [done|]. split; [done|]. split; [done|]. split; [done|].
    split; [done|]. by exists e.
  - rewrite (bind_Returned _ _ _ _ Hso). cbn [outcome_of world_of trace_of].
    rewrite Hst.
    exists (trace_of r1), (trace_of r2), [Call_WriteFile "./time.txt" data None].
    split; [done|]. split; [done|]. split; [done|]. split; [done|].
    split; [done|]. left. done.
Qed.

(** [main] from line 118 on is the two scans, the opening of the log and
    the phases. *)
Lemma mainFrom_run processStart config trashPath lastRun (w : World) :
  let scanIn := gatherFiles (InputPath config) (fs_tree (InputPath config) w) lastRun in
  let scanOut := gatherFiles (OutputPath config) (fs_tree (OutputPath config) w) None in
  let opened := os_OpenFile_append "file_error.log" perm0644 w in
  mainFrom processStart config trashPath lastRun w =
    match opened.2 with
    | Failed e =>
        mkResult (Exited 1) opened.1
          (scanIn.2 ++ scanOut.2 ++
           [Log_Print "Failed opening file_error.log: " (Some e)])
    | Ok f =>
        let r := mainPhases config trashPath processStart
                   (buildInFilesMap config scanIn.1.1) f
                   scanOut.1.1 scanIn.1.1 opened.1 in
        mkResult (outcome_of r) (world_of r) (scanIn.2 ++ scanOut.2 ++ trace_of r)
    end.
Proof.
  intros scanIn scanOut opened. unfold mainFrom.
  rewrite (bind_known _ _ _ _ _ _ (gatherFilesIn_result _ _ _)).
  rewrite (bind_known _ _ _ _ _ _ (gatherFilesIn_result _ _ _)).
  rewrite (bind_known _ _ _ _ _ _ (calls_result _ _)).
  cbn [outcome_of world_of trace_of app].
  fold scanIn. fold scanOut. fold opened.
  destruct (opened.2) as [f|e]; [|done].
  reflexivity.
Qed.

End RunOfMain.

Section MainExtras.
Import Incremental IncrementalLemmas.
Context {World Handle : Type} `{os : OS World Handle}.

(** [main] is the reading of the configuration, the two directories, the
    last run, and the rest. *)
Lemma main_run (w : World) :
  main w =
  match os_ReadFile "./path.json" w with
  | Failed e =>
      mkResult (Exited 1) w [Log_Print "Failed reading path.json: " (Some e)]
  | Ok data =>
      match json_Unmarshal data with
      | Failed e =>
          mkResult (Exited 1) w [Log_Print "Failed parsing path.json: " (Some e)]
      | Ok config =>
          (createIfNotExist (OutputPath config) ;;;
           createIfNotExist (filepath.Join [OutputPath config; "trash"]) ;;;
           let* lastRun := loadLastRun in
           mainFrom (time_Now w) config
                    (filepath.Join [OutputPath config; "trash"]) lastRun) w
      end
  end.
Proof.
  unfold main.
  rewrite (bind_known (reads time_Now) _ w (time_Now w) w [] eq_refl).
  rewrite (bind_known (reads (os_ReadFile "./path.json")) _ w
             (os_ReadFile "./path.json" w) w [] eq_refl).
  cbn [app]. destruct (os_ReadFile "./path.json" w) as [data|e]; [|done].
  destruct (json_Unmarshal data) as [config|e]; [|done].
  by rewrite !result_eta.
Qed.

(** [loadLastRun] reads and changes nothing. *)
Lemma loadLastRun_pure (w : World) :
  ∃ lastRun, loadLastRun w = mkResult (Returned lastRun) w [].
Proof.
  unfold loadLastRun, bind, reads, ret. cbn.
  destruct (os_ReadFile "./time.txt" w) as [data|e]; [|by exists None].
  destruct (time_Parse_RFC3339 data) as [t|e]; eauto.
Qed.

(** X2.  When path.json cannot be read, or what it holds cannot be
    decoded, [main] prints one line and exits with status 1, the world
    being as it was: no directory is looked up or created, nothing is
    scanned, moved, copied or written. *)
Theorem main_without_configuration_does_nothing (w : World) :
  ((∃ e, os_ReadFile "./path.json" w = Failed e) ∨
   (∃ data e, os_ReadFile "./path.json" w = Ok data ∧
              json_Unmarshal data = Failed e)) →
  outcome_of (main w) = Exited 1 ∧
  world_of (main w) = w ∧
  ∃ msg e, trace_of (main w) = [Log_Print msg (Some e)].
Proof.
  intros H. rewrite main_run.
  destruct H as [[e ->]|(data & e & -> & ->)]; eauto 10.
Qed.

(** X3.  [main] moves, copies or writes time.txt only after path.json was
    read and decoded, the output directory and the trash directory were
    found or created, and file_error.log was opened. *)
Theorem main_touches_files_only_after_its_preconditions (w : World) :
  (renames (trace_of (main w)) ≠ [] ∨ copies (trace_of (main w)) ≠ [] ∨
   writes (trace_of (main w)) ≠ []) →
  ∃ data config w3 f,
    os_ReadFile "./path.json" w = Ok data ∧
    json_Unmarshal data = Ok config ∧
    let trashPath := filepath.Join [OutputPath config; "trash"] in
    let r1 := createIfNotExist (OutputPath config) w in
    let r2 := createIfNotExist trashPath (world_of r1) in
    outcome_of r1 = Returned tt ∧
    outcome_of r2 = Returned tt ∧
    os_OpenFile_append "file_error.log" perm0644 (world_of r2) = (w3, Ok f).
Proof.
  rewrite main_run.
  destruct (os_ReadFile "./path.json" w) as [data|e].
  2:{ cbn. intros [?|[?|?]]; done. }
  destruct (json_Unmarshal data) as [config|e] eqn:Hjson.
  2:{ cbn. intros [?|[?|?]]; done. }
  set (trashPath := filepath.Join [OutputPath config; "trash"]).
  destruct (createIfNotExist_cases (OutputPath config) w)
    as [[Hout Htr]|(e & Hout & Htr)].
  2:{ rewrite (bind_Exited _ _ _ _ Hout). cbn [trace_of]. rewrite Htr. cbn.
      intros [?|[?|?]]; done. }
  rewrite (bind_Returned _ _ _ _ Hout). cbn [trace_of].
  set (r1 := createIfNotExist (OutputPath config) w) in *.
  destruct (createIfNotExist_cases trashPath (world_of r1))
    as [[Hout2 Htr2]|(e & Hout2 & Htr2)].
  2:{ rewrite (bind_Exited _ _ _ _ Hout2). cbn [trace_of].
      rewrite !renames_app, !copies_app, !writes_app, Htr2.
      destruct Htr as [-> | ->]; cbn; intros [?|[?|?]]; done. }
  rewrite (bind_Returned _ _ _ _ Hout2). cbn [trace_of].
  set (r2 := createIfNotExist trashPath (world_of r1)) in *.
  destruct (loadLastRun_pure (world_of r2)) as [lastRun Hload].
  rewrite (bind_known _ _ _ _ _ _ Hload). cbn [trace_of app].
  rewrite mainFrom_run. cbv zeta.
  destruct (os_OpenFile_append "file_error.log" perm0644 (world_of r2))
    as [w3 [f|e]] eqn:Hopen; cbn [fst snd].
  { intros _. exists data, config, w3, f. done. }
  cbn [trace_of].
  destruct (printed_silent _ (gatherFiles_printed (InputPath config)
              (fs_tree (InputPath config) (world_of r2)) lastRun))
    as (Hi1 & Hi2 & _ & Hi4).
  destruct (printed_silent _ (gatherFiles_printed (OutputPath config)
              (fs_tree (OutputPath config) (world_of r2)) None))
    as (Ho1 & Ho2 & _ & Ho4).
  rewrite !renames_app, !copies_app, !writes_app, Hi1, Hi2, Hi4, Ho1, Ho2, Ho4.
  destruct Htr as [-> | ->], Htr2 as [-> | ->]; cbn; intros [?|[?|?]]; done.
Qed.

End MainExtras.

Lemma filter_none {A} (P : A → Prop) `{∀ x, Decision (P x)} (l : list A) :
  Forall (λ x, ¬ P x) l → filter P l = [].
Proof.
  induction 1 as [|x l Hx _ IH]; [done|]. by rewrite filter_cons_False.
Qed.

Lemma filter_all {A} (P : A → Prop) `{∀ x, Decision (P x)} (l : list A) :
  Forall P l → filter P l = l.
Proof.
  induction 1 as [|x l Hx _ IH]; [done|]. rewrite filter_cons_True by done.
  by rewrite IH.
Qed.

Section RunExtras.
Import Incremental IncrementalLemmas.
Context {World Handle : Type} `{os : OS World Handle}.

(** The trace of a run of [main] from the scans on that returns. *)
Lemma mainFrom_returned processStart config trashPath lastRun (w : World) :
  let scanIn := gatherFiles (InputPath config) (fs_tree (InputPath config) w) lastRun in
  let scanOut := gatherFiles (OutputPath config) (fs_tree (OutputPath config) w) None in
  let inFilesMap := buildInFilesMap config scanIn.1.1 in
  let r := mainFrom processStart config trashPath lastRun w in
  outcome_of r = Returned tt →
  ∃ moves copied,
    trace_of r =
      scanIn.2 ++ scanOut.2 ++ moves ++ copied ++
      [Call_WriteFile "./time.txt" (time.Format_RFC3339 processStart) None] ∧
    copies moves = [] ∧ writes moves = [] ∧ mkdirFailures moves = [] ∧
    renames copied = [] ∧ writes copied = [] ∧ mkdirFailures copied = [] ∧
    renames moves =
      trashMove trashPath processStart <$>
        filter (λ o, isOrphan config inFilesMap o = true) scanOut.1.1 ∧
    copies copied =
      copyArgs config <$> filter (λ i, New i = true) scanIn.1.1.
Proof.
  intros scanIn scanOut inFilesMap r Hret. subst r.
  rewrite mainFrom_run in Hret |- *. cbv zeta in Hret |- *.
  fold scanIn scanOut inFilesMap in Hret |- *.
  destruct (os_OpenFile_append "file_error.log" perm0644 w) as [w1 [f|e]];
    cbn [fst snd] in Hret |- *; [|done].
  cbn [outcome_of trace_of] in Hret |- *.
  destruct (mainPhases_cases config trashPath processStart inFilesMap f
              scanOut.1.1 scanIn.1.1 w1)
    as (moves & copied & saved & Htr & Hc1 & Hw1 & Hr2 & Hw2 & Hcases).
  destruct Hcases as [(_ & Hm1 & Hm2 & Hrn & Hcp & ->)|
                      [(Hout & _)|(Hout & _)]]; try congruence.
  exists moves, copied. rewrite Htr. done.
Qed.

(** The moves and the copies of such a run. *)
Lemma mainFrom_returned_calls processStart config trashPath lastRun (w : World) :
  let scanIn := gatherFiles (InputPath config) (fs_tree (InputPath config) w) lastRun in
  let scanOut := gatherFiles (OutputPath config) (fs_tree (OutputPath config) w) None in
  let inFilesMap := buildInFilesMap config scanIn.1.1 in
  let r := mainFrom processStart config trashPath lastRun w in
  outcome_of r = Returned tt →
  renames (trace_of r) =
    trashMove trashPath processStart <$>
      filter (λ o, isOrphan config inFilesMap o = true) scanOut.1.1 ∧
  copies (trace_of r) =
    copyArgs config <$> filter (λ i, New i = true) scanIn.1.1.
Proof.
  intros scanIn scanOut inFilesMap r Hret.
  destruct (mainFrom_returned processStart config trashPath lastRun w Hret)
    as (moves & copied & Htr & Hc1 & _ & _ & Hr2 & _ & _ & Hrn & Hcp).
  fold r in Htr. rewrite Htr.
  destruct (printed_silent _ (gatherFiles_printed (InputPath config)
              (fs_tree (InputPath config) w) lastRun)) as (Hi1 & Hi2 & _).
  destruct (printed_silent _ (gatherFiles_printed (OutputPath config)
              (fs_tree (OutputPath config) w) None)) as (Ho1 & Ho2 & _).
  rewrite !renames_app, !copies_app.
  rewrite Hi1, Hi2, Ho1, Ho2, Hc1, Hr2, Hrn, Hcp. cbn. by rewrite !app_nil_r.
Qed.

(** X4.  A run of [main] from the scans on that returns has made, after
    what the scans printed, first all its moves, one for every output file
    with no input file, then all its copies, one for every input file
    flagged new, and last one successful write of the start of the run to
    time.txt; no directory failed to be created. *)
Theorem normal_run_moves_then_copies_then_saves
    processStart config trashPath lastRun (w : World) :
  let scanIn := gatherFiles (InputPath config) (fs_tree (InputPath config) w) lastRun in
  let scanOut := gatherFiles (OutputPath config) (fs_tree (OutputPath config) w) None in
  let inFilesMap := buildInFilesMap config scanIn.1.1 in
  let r := mainFrom processStart config trashPath lastRun w in
  outcome_of r = Returned tt →
  ∃ moves copied,
    trace_of r =
      scanIn.2 ++ scanOut.2 ++ moves ++ copied ++
      [Call_WriteFile "./time.txt" (time.Format_RFC3339 processStart) None] ∧
    copies moves = [] ∧ writes moves = [] ∧ mkdirFailures moves = [] ∧
    renames copied = [] ∧ writes copied = [] ∧ mkdirFailures copied = [] ∧
    renames moves =
      trashMove trashPath processStart <$>
        filter (λ o, isOrphan config inFilesMap o = true) scanOut.1.1 ∧
    copies copied =
      copyArgs config <$> filter (λ i, New i = true) scanIn.1.1.
Proof. apply mainFrom_returned. Qed.

(** X5.  When no scanned input file was modified after the last run,
    [main] copies nothing, whatever else happens in the run. *)
Theorem nothing_new_nothing_copied
    processStart config trashPath (t : Time) (w : World) :
  Forall (λ f, (unixNano (ModTime f) ≤ unixNano t)%Z)
    (gatherFiles (InputPath config) (fs_tree (InputPath config) w) (Some t)).1.1 →
  copies (trace_of (mainFrom processStart config trashPath (Some t) w)) = [].
Proof.
  intros Hold.
  destruct (mainFrom_moves_and_copies processStart config trashPath (Some t) w)
    as (outputs & inputs & _ & [rest Hrest] & _ & ->).
  rewrite filter_none; [done|].
  rewrite Forall_forall in Hold |- *. intros f Hf.
  assert (Hin : f ∈ (gatherFiles (InputPath config)
                       (fs_tree (InputPath config) w) (Some t)).1.1).
  { rewrite Hrest. apply elem_of_app. by left. }
  rewrite (New_of_scan _ _ _ _ Hin). unfold time.After.
  specialize (Hold f Hin). cbn in Hold.
  intros Hlt%Z.ltb_lt. lia.
Qed.

(** X6.  With no last run, a run of [main] from the scans on that returns
    has called [copyFile] once for every file of the input scan, in the
    order of the scan. *)
Theorem first_run_copies_every_scanned_file
    processStart config trashPath (w : World) :
  let r := mainFrom processStart config trashPath None w in
  outcome_of r = Returned tt →
  copies (trace_of r) =
    copyArgs config <$>
      (gatherFiles (InputPath config) (fs_tree (InputPath config) w) None).1.1.
Proof.
  intros r Hret.
  destruct (mainFrom_returned_calls processStart config trashPath None w Hret)
    as (_ & Hcp).
  fold r in Hcp. rewrite Hcp. f_equal. apply filter_all.
  apply Forall_forall. intros f Hf. by rewrite (New_of_scan _ _ _ _ Hf).
Qed.

(** X7.  When the input root cannot be examined, a run of [main] from the
    scans on that returns has moved every file of the output scan to the
    trash and copied nothing. *)
Theorem missing_input_root_empties_the_output
    processStart config trashPath lastRun e (w : World) :
  let r := mainFrom processStart config trashPath lastRun w in
  fs_tree (InputPath config) w = NoStat e →
  outcome_of r = Returned tt →
  renames (trace_of r) =
    trashMove trashPath processStart <$>
      (gatherFiles (OutputPath config) (fs_tree (OutputPath config) w) None).1.1 ∧
  copies (trace_of r) = [].
Proof.
  intros r Htree Hret.
  destruct (mainFrom_returned_calls processStart config trashPath lastRun w Hret)
    as (Hrn & Hcp).
  fold r in Hrn, Hcp. rewrite Hrn, Hcp, Htree.
  assert (Hscan : (gatherFiles (InputPath config) (NoStat e) lastRun).1.1 = []).
  { unfold gatherFiles, Walk, gatherFn. cbn [Lstat]. by case_decide. }
  rewrite Hscan. split; [|done]. f_equal. apply filter_all.
  apply Forall_forall. intros o _. unfold isOrphan.
  apply bool_decide_eq_true. apply lookup_empty.
Qed.

End RunExtras.

(** * The error log *)

Section LogExtras.
Import Incremental IncrementalLemmas.
Context {World Handle : Type} `{os : OS World Handle}.

Lemma bind_trace_cases {A B} (m : M World A) (k : A → M World B) (w : World) :
  trace_of (bind m k w) = trace_of (m w) ∨
  ∃ a, trace_of (bind m k w) = trace_of (m w) ++ trace_of (k a (world_of (m w))).
Proof.
  unfold bind. destruct (outcome_of (m w)) as [a|code]; [right; by exists a|by left].
Qed.

(** What holds of the trace of every round and is kept by putting traces
    one after the other holds of the trace of the loop. *)
Lemma forRange_trace {A} (P : list event → Prop) (body : A → M World unit) l :
  P [] →
  (∀ t1 t2, P t1 → P t2 → P (t1 ++ t2)) →
  (∀ x w, x ∈ l → P (trace_of (body x w))) →
  ∀ w, P (trace_of (forRange l body w)).
Proof.
  intros Hnil Happ. induction l as [|x l IH]; intros Hbody w; [done|].
  cbn [forRange].
  destruct (bind_trace_cases (body x) (λ _, forRange l body) w) as [->|[a ->]].
  - apply Hbody. by left.
  - apply Happ; [apply Hbody; by left|].
    apply IH. intros y w' Hy. apply Hbody. by right.
Qed.

(** X8.  In the loops of [main] a line goes to file_error.log for every
    call of [os.Rename] or [copyFile] that returned an error and for
    nothing else: the messages of the lines are, in order, those of the
    failed calls, and every line carries the name of a scanned file. *)
Theorem failed_calls_are_logged_one_by_one
    config trashPath processStart inFilesMap f
    (outputs inputs : list filesData) (w : World) :
  let tr := trace_of (mainPhases config trashPath processStart inFilesMap f
                        outputs inputs w) in
  (logged tr).*1 = failureMessages tr ∧
  Forall (λ line,
            (line.1 = "Failed moving file to trash: " ∧ line.2 ∈ Name <$> outputs) ∨
            (line.1 = "Failed copying file: " ∧ line.2 ∈ Name <$> inputs))
         (logged tr).
Proof.
  set (P := λ tr : list event,
    (logged tr).*1 = failureMessages tr ∧
    Forall (λ line,
              (line.1 = "Failed moving file to trash: " ∧ line.2 ∈ Name <$> outputs) ∨
              (line.1 = "Failed copying file: " ∧ line.2 ∈ Name <$> inputs))
           (logged tr)).
  assert (Hnil : P []) by (split; [done|constructor]).
  assert (Happ : ∀ t1 t2, P t1 → P t2 → P (t1 ++ t2)).
  { intros t1 t2 [H1 H1'] [H2 H2']. unfold P, logged, failureMessages.
    rewrite !omap_app, fmap_app. split; [by f_equal|by apply Forall_app]. }
  assert (Htrash : ∀ w, P (trace_of (forRange outputs
                    (trashBody config trashPath processStart inFilesMap f) w))).
  { apply forRange_trace; [done..|]. intros o w' Ho.
    pose proof (trashBody_cases config trashPath processStart inFilesMap f o w') as H.
    cbv zeta in H. destruct (inFilesMap !! _).
    - by rewrite H.
    - destruct H as [(e & _ & ->)|(mk & err & _ & Hmk & ->)]; [done|].
      destruct Hmk as [-> | ->], err; split; cbn; try done;
        first [by constructor
              |constructor; [|constructor]; left; split; [done|]; cbn;
               apply list_elem_of_fmap; eauto]. }
  assert (Hcopy : ∀ w, P (trace_of (forRange inputs (copyBody config f) w))).
  { apply forRange_trace; [done..|]. intros i w' Hi.
    pose proof (copyBody_cases config f i w') as H.
    cbv zeta in H. destruct (New i).
    - destruct H as [(e & _ & ->)|(mk & err & _ & Hmk & ->)]; [done|].
      destruct Hmk as [-> | ->], err; split; cbn; try done;
        first [by constructor
              |constructor; [|constructor]; right; split; [done|]; cbn;
               apply list_elem_of_fmap; eauto].
    - by rewrite H. }
  assert (Hsave : ∀ w, P (trace_of (saveRunTime processStart w))).
  { intros w'. destruct (saveRunTime_cases processStart w') as (res & _ & _ & Htr).
    cbv zeta in Htr. rewrite Htr. by destruct res. }
  intros tr. subst tr. unfold mainPhases. fold (P (trace_of
    ((forRange outputs (trashBody config trashPath processStart inFilesMap f) ;;;
      forRange inputs (copyBody config f) ;;;
      saveRunTime processStart ;;; modifies (file_Close f)) w))).
  destruct (bind_trace_cases (forRange outputs
              (trashBody config trashPath processStart inFilesMap f))
              (λ _, forRange inputs (copyBody config f) ;;;
                    saveRunTime processStart ;;; modifies (file_Close f)) w)
    as [->|[[] ->]]; [apply Htrash|].
  apply Happ; [apply Htrash|]. set (w1 := world_of _).
  destruct (bind_trace_cases (forRange inputs (copyBody config f))
              (λ _, saveRunTime processStart ;;; modifies (file_Close f)) w1)
    as [->|[[] ->]]; [apply Hcopy|].
  apply Happ; [apply Hcopy|]. set (w2 := world_of _).
  destruct (bind_trace_cases (saveRunTime processStart)
              (λ _, modifies (file_Close f)) w2)
    as [->|[[] ->]]; [apply Hsave|].
  apply Happ; [apply Hsave|]. done.
Qed.

End LogExtras.

(** * The maps by relative path, again *)

(** The value a map built by successive assignments holds for a key is
    the last of the values with that key. *)
Lemma fold_insert_last {V} (key : V → string) (l : list V) (k : string) :
  fold_left (λ (m : gmap string V) v, <[key v := v]> m) l ∅ !! k =
  last (filter (λ v, key v = k) l).
Proof.
  induction l as [|v l IH] using rev_ind; [done|].
  rewrite fold_left_app, filter_app. cbn [fold_left].
  destruct (decide (key v = k)) as [Hk|Hk].
  - rewrite filter_cons_True, filter_nil by done.
    rewrite last_snoc, <- Hk. apply lookup_insert_eq.
  - rewrite filter_cons_False, filter_nil, app_nil_r by done.
    by rewrite lookup_insert_ne.
Qed.

(** X9.  The maps by relative path hold, for every key, the last file of
    the scan with that key, and nothing for a key of no file: in [main]
    for the input files, in the earlier program for both trees. *)
Theorem map_holds_the_last_file_of_each_key
    config (files : list Incremental.filesData)
    root (simpleFiles : list Simple.filesData) (key : string) :
  Incremental.buildInFilesMap config files !! key =
    last (filter (λ f, Incremental.relIn config f = key) files) ∧
  Simple.buildFilesMap root simpleFiles !! key =
    last (filter (λ f, (filepath.Rel root (Simple.Location f)).1 = key) simpleFiles) ∧
  (key ∉ Incremental.relIn config <$> files →
   Incremental.buildInFilesMap config files !! key = None).
Proof.
  split; [apply (fold_insert_last (Incremental.relIn config))|].
  split; [apply (fold_insert_last (λ f, (filepath.Rel root (Simple.Location f)).1))|].
  intros Hkey. apply not_elem_of_dom. unfold Incremental.buildInFilesMap.
  rewrite (dom_fold_insert (Incremental.relIn config)), dom_empty_L.
  rewrite elem_of_union, elem_of_list_to_set. set_solver.
Qed.

(** * Cleaned paths, joined and made relative *)

Section CleanLemmas.
Import filepath.

Lemma splitSep_app (p q : chars) :
  splitSep (p ++ "/"%char :: q) = splitSep p ++ splitSep q.
Proof.
  induction p as [|c p IH]; [done|]. cbn [app splitSep].
  destruct (isSep c); rewrite IH; [done|].
  pose proof (splitSep_nonempty p). by destruct (splitSep p).
Qed.

Lemma splitSep_sepfree (p : chars) :
  Forall (Forall (λ c, isSep c = false)) (splitSep p).
Proof.
  induction p as [|c p IH]; [repeat constructor|]. cbn [splitSep].
  destruct (isSep c) eqn:Hc; [by constructor|].
  destruct (splitSep p) as [|w ws]; [repeat constructor; done|].
  inversion IH; subst. constructor; [by constructor|done].
Qed.

Lemma valid_sepfree c : validChars c = true → Forall (λ x, isSep x = false) c.
Proof. by intros (_ & H & _)%validChars_spec. Qed.

Lemma valid_nonempty c : validChars c = true → c ≠ [].
Proof. by intros (H & _)%validChars_spec. Qed.

Lemma valid_not_dotdot c : validChars c = true → c ≠ dotdot.
Proof. by intros (_ & _ & _ & H)%validChars_spec. Qed.

(** An element that is neither empty, nor [.], nor [..] is a name. *)
Lemma sepfree_valid c :
  Forall (λ x, isSep x = false) c →
  c ≠ [] → c ≠ ["."%char] → c ≠ dotdot → validChars c = true.
Proof.
  intros Hsep H1 H2 H3. unfold validChars.
  rewrite !andb_true_iff, !negb_true_iff, !bool_decide_eq_false.
  repeat split; try done.
  apply forallb_forall. intros x Hx%list_elem_of_In.
  rewrite Forall_forall in Hsep. by rewrite Hsep.
Qed.

Lemma cleanStep_normal rooted stack c :
  Forall (λ x, isSep x = false) c →
  normalStack rooted stack → normalStack rooted (cleanStep rooted stack c).
Proof.
  intros Hc (k & names & -> & Hnames & Hk). unfold cleanStep.
  case_decide as H1; [by exists k, names|].
  case_decide as H2; [by exists k, names|].
  case_decide as H3.
  - destruct names as [|top below]; cbn [app].
    + destruct k as [|k]; cbn [replicate].
      * destruct rooted eqn:Hr; [by exists 0, []|].
        exists 1, []. subst c. done.
      * rewrite decide_True by done. exists (S (S k)), []. subst c.
        split; [done|]. split; [done|]. intros Hr. by specialize (Hk Hr).
    + inversion Hnames as [|?? Htop Hbelow]; subst.
      rewrite decide_False by (by apply valid_not_dotdot).
      by exists k, below.
  - exists k, (c :: names). split; [done|]. split; [|done].
    constructor; [|done]. by apply sepfree_valid.
Qed.

Lemma fold_cleanStep_normal rooted cs stack :
  Forall (Forall (λ x, isSep x = false)) cs →
  normalStack rooted stack →
  normalStack rooted (fold_left (cleanStep rooted) cs stack).
Proof.
  intros Hcs. revert stack. induction Hcs as [|c cs Hc _ IH]; intros stack Hs.
  - done.
  - cbn [fold_left]. apply IH. by apply cleanStep_normal.
Qed.

(** The stack of any path is normal. *)
Lemma normalForm_normal path :
  normalStack (normalForm path).1 (rev (normalForm path).2).
Proof.
  destruct path as [|c0 rest]; cbn [normalForm fst snd].
  - by exists 0, [].
  - rewrite rev_involutive. apply fold_cleanStep_normal.
    + apply splitSep_sepfree.
    + by exists 0, [].
Qed.

Lemma cleanChars_render path :
  cleanChars path = render (normalForm path).1 (normalForm path).2.
Proof. destruct path; reflexivity. Qed.

Lemma fold_cleanStep_names rooted names stack :
  Forall (λ c, validChars c = true) names →
  fold_left (cleanStep rooted) names stack = rev names ++ stack.
Proof.
  intros Hn. revert stack. induction Hn as [|c names Hc _ IH]; intros stack.
  - done.
  - cbn [fold_left rev]. rewrite cleanStep_valid by done.
    by rewrite IH, <- app_assoc.
Qed.

Lemma fold_cleanStep_dotdots k j :
  fold_left (cleanStep false) (replicate k dotdot) (replicate j dotdot) =
  replicate (k + j) dotdot.
Proof.
  revert j. induction k as [|k IH]; intros j; [done|].
  cbn [replicate fold_left].
  assert (Hstep : cleanStep false (replicate j dotdot) dotdot =
                  replicate (S j) dotdot).
  { unfold cleanStep. rewrite decide_False by done.
    rewrite decide_False by done. rewrite decide_True by done.
    destruct j as [|j]; [done|]. cbn [replicate]. by rewrite decide_True. }
  rewrite Hstep, IH. f_equal. lia.
Qed.

Lemma rev_replicate {A} k (x : A) : rev (replicate k x) = replicate k x.
Proof.
  induction k as [|k IH]; [done|]. cbn [replicate rev]. rewrite IH.
  clear IH. induction k as [|k IH]; [done|]. cbn. by rewrite IH.
Qed.

(** Cleaning the elements of a normal stack again gives the stack. *)
Lemma fold_cleanStep_rev rooted stack :
  normalStack rooted stack →
  fold_left (cleanStep rooted) (rev stack) [] = stack.
Proof.
  intros (k & names & -> & Hnames & Hk).
  rewrite rev_app_distr, rev_replicate, fold_left_app.
  assert (Hdots : fold_left (cleanStep rooted) (replicate k dotdot) [] =
                  replicate k dotdot).
  { destruct rooted.
    - by rewrite (Hk eq_refl).
    - pose proof (fold_cleanStep_dotdots k 0) as H.
      change (replicate 0 dotdot) with (@nil chars) in H.
      rewrite H. f_equal. lia. }
  rewrite Hdots, fold_cleanStep_names.
  - by rewrite rev_involutive.
  - apply Forall_forall. intros c Hc%list_elem_of_In%in_rev%list_elem_of_In.
    rewrite Forall_forall in Hnames. auto.
Qed.

Lemma normalStack_sepfree rooted stack :
  normalStack rooted stack →
  Forall (λ c, Forall (λ x, isSep x = false) c ∧ c ≠ []) stack.
Proof.
  intros (k & names & -> & Hnames & _). apply Forall_app. split.
  - eapply Forall_impl; [exact Hnames|]. intros c Hc.
    split; [by apply valid_sepfree|by apply valid_nonempty].
  - apply Forall_replicate. split; [by repeat constructor|done].
Qed.

Lemma splitSep_joinSep comps :
  comps ≠ [] →
  Forall (Forall (λ x, isSep x = false)) comps →
  splitSep (joinSep comps) = comps.
Proof.
  intros Hne Hsep. induction Hsep as [|c comps Hc Hrest IH]; [done|].
  destruct comps as [|c' comps].
  - cbn. by apply splitSep_nosep.
  - change (joinSep (c :: c' :: comps)) with (c ++ "/"%char :: joinSep (c' :: comps)).
    rewrite splitSep_app, IH by done. by rewrite splitSep_nosep.
Qed.

Lemma joinSep_head c comps :
  c ≠ [] → ∃ x rest, joinSep (c :: comps) = x :: rest ∧ head c = Some x.
Proof.
  intros Hc. destruct c as [|x c]; [done|].
  destruct comps; cbn; eauto.
Qed.

(** A rendered normal path has the normal form it was rendered from. *)
Lemma normalForm_render rooted comps :
  normalStack rooted (rev comps) →
  normalForm (render rooted comps) = (rooted, comps).
Proof.
  intros Hn.
  pose proof (fold_cleanStep_rev rooted (rev comps) Hn) as Hfold.
  rewrite rev_involutive in Hfold.
  pose proof (normalStack_sepfree _ _ Hn) as Hsep.
  assert (Hsep' : Forall (λ c, Forall (λ x, isSep x = false) c ∧ c ≠ []) comps).
  { apply Forall_forall. intros c Hc%list_elem_of_In.
    rewrite Forall_forall in Hsep. apply Hsep.
    apply list_elem_of_In. by apply in_rev in Hc. }
  assert (Hsf : Forall (Forall (λ x, isSep x = false)) comps).
  { eapply Forall_impl; [exact Hsep'|]. by intros c [? _]. }
  unfold render. destruct rooted.
  - cbn [normalForm]. change (isSep "/"%char) with true. f_equal.
    cbn [splitSep]. change (isSep "/"%char) with true. cbv iota.
    destruct comps as [|c comps].
    + reflexivity.
    + rewrite splitSep_joinSep by done.
      change (fold_left (cleanStep true) ([] :: c :: comps) [])
        with (fold_left (cleanStep true) (c :: comps) (cleanStep true [] [])).
      change (cleanStep true [] []) with (@nil chars).
      by rewrite Hfold, rev_involutive.
  - destruct comps as [|c comps]; [done|].
    inversion Hsep' as [|?? [Hc Hcne] _]; subst.
    destruct (joinSep_head c comps Hcne) as (x & rest & Hj & Hx).
    rewrite Hj. cbn [normalForm].
    assert (Hxs : isSep x = false).
    { destruct c as [|y c]; [done|]. injection Hx as <-.
      by inversion Hc. }
    rewrite Hxs, <- Hj, splitSep_joinSep by done.
    by rewrite Hfold, rev_involutive.
Qed.

End CleanLemmas.

Section JoinLemmas.
Import filepath.

Lemma normalStack_nil rooted : normalStack rooted [].
Proof. by exists 0, []. Qed.

Lemma normalStack_push rooted stack n :
  normalStack rooted stack → validChars n = true →
  normalStack rooted (n :: stack).
Proof.
  intros (k & names & -> & Hnames & Hk) Hn.
  exists k, (n :: names). split; [done|]. split; [by constructor|done].
Qed.

Lemma normalStack_names rooted stack names :
  normalStack rooted stack →
  Forall (λ c, validChars c = true) names →
  normalStack rooted (rev names ++ stack).
Proof.
  intros Hs Hn. revert stack Hs.
  induction Hn as [|n names Hn _ IH]; intros stack Hs; [done|].
  cbn [rev]. rewrite <- app_assoc. apply IH. by apply normalStack_push.
Qed.

(** Names appended to the elements of a normal path. *)
Lemma normalStack_app rooted comps names :
  normalStack rooted (rev comps) →
  Forall (λ c, validChars c = true) names →
  normalStack rooted (rev (comps ++ names)).
Proof. intros Hs Hn. rewrite rev_app_distr. by apply normalStack_names. Qed.

Lemma render_false_cons c comps :
  c ≠ [] → render false (c :: comps) = joinSep (c :: comps).
Proof.
  intros Hc. destruct (joinSep_head c comps Hc) as (x & rest & Hx & _).
  unfold render. by rewrite Hx.
Qed.

Lemma normalForm_names names :
  names ≠ [] → Forall (λ c, validChars c = true) names →
  normalForm (joinSep names) = (false, names).
Proof.
  intros Hne Hn. destruct names as [|n names]; [done|].
  rewrite <- render_false_cons.
  - apply normalForm_render.
    apply (normalStack_app false [] (n :: names)); [apply normalStack_nil|done].
  - inversion Hn; subst. by apply valid_nonempty.
Qed.

(** The normal form of a path followed by a separator and names. *)
Lemma normalForm_app_names p names :
  p ≠ [] → names ≠ [] →
  Forall (λ c, validChars c = true) names →
  normalForm (p ++ "/"%char :: joinSep names) =
  ((normalForm p).1, (normalForm p).2 ++ names).
Proof.
  intros Hp Hne Hn. destruct p as [|c0 rest]; [done|].
  change ((c0 :: rest) ++ "/"%char :: joinSep names)
    with (c0 :: (rest ++ "/"%char :: joinSep names)).
  cbn [normalForm fst snd]. f_equal.
  change (c0 :: (rest ++ "/"%char :: joinSep names))
    with ((c0 :: rest) ++ "/"%char :: joinSep names).
  rewrite splitSep_app, splitSep_joinSep, fold_left_app.
  - rewrite fold_cleanStep_names by done.
    by rewrite rev_app_distr, rev_involutive.
  - done.
  - eapply Forall_impl; [exact Hn|]. apply valid_sepfree.
Qed.

Lemma string_chars_nonempty (s : string) :
  s ≠ "" → list_ascii_of_string s ≠ [].
Proof. by destruct s. Qed.

Lemma joined_nonempty names :
  names ≠ [] → Forall (λ n, validName n = true) names → joined names ≠ "".
Proof.
  intros Hne Hv. destruct names as [|n names]; [done|].
  inversion Hv as [|?? Hn _]; subst. unfold joined.
  destruct (joinSep_head (list_ascii_of_string n) (list_ascii_of_string <$> names))
    as (x & rest & Hx & _); [by apply valid_nonempty|].
  rewrite fmap_cons, Hx. done.
Qed.

(** [Join] of a path and the names joined: the names are appended to the
    normal form of the path. *)
Lemma Join_joined path names :
  names ≠ [] → Forall (λ n, validName n = true) names →
  list_ascii_of_string (Join [path; joined names]) =
  render (normalForm (list_ascii_of_string path)).1
         ((normalForm (list_ascii_of_string path)).2 ++
          (list_ascii_of_string <$> names)).
Proof.
  intros Hne Hv.
  assert (Hv' : Forall (λ c, validChars c = true) (list_ascii_of_string <$> names)).
  { apply Forall_fmap. exact Hv. }
  assert (Hne' : list_ascii_of_string <$> names ≠ []) by (by destruct names).
  pose proof (joined_nonempty names Hne Hv) as Hj.
  unfold Join. case_decide as Hp.
  - subst path. rewrite decide_False by done. unfold Clean.
    cbn [fmap list_fmap joinSep].
    rewrite !list_ascii_of_string_of_list_ascii.
    unfold joined. rewrite list_ascii_of_string_of_list_ascii.
    by rewrite cleanChars_render, normalForm_names.
  - unfold Clean. cbn [fmap list_fmap joinSep].
    rewrite !list_ascii_of_string_of_list_ascii.
    unfold joined. rewrite list_ascii_of_string_of_list_ascii.
    rewrite cleanChars_render, normalForm_app_names; try done.
    by apply string_chars_nonempty.
Qed.

Lemma joined_singleton name : joined [name] = name.
Proof.
  unfold joined. cbn [fmap list_fmap joinSep].
  apply string_of_list_ascii_of_string.
Qed.

(** The characters and the normal form of a path below a root. *)
Lemma joinAll_normal root names :
  Forall (λ n, validName n = true) names →
  let r := (normalForm (list_ascii_of_string root)).1 in
  let comps := (normalForm (list_ascii_of_string root)).2 ++
               (list_ascii_of_string <$> names) in
  normalForm (list_ascii_of_string (joinAll root names)) = (r, comps) ∧
  (names ≠ [] →
   list_ascii_of_string (joinAll root names) = render r comps).
Proof.
  intros Hv. revert root. induction Hv as [|n names Hn Hnames IH]; intros root.
  - cbn zeta. rewrite fmap_nil, app_nil_r. split; [|done].
    by destruct (normalForm _).
  - cbn zeta. unfold joinAll. cbn [fold_left].
    fold (joinAll (Join [root; n]) names).
    pose proof (Join_joined root [n] (ltac:(done)) (ltac:(by constructor)))
      as Hstep.
    rewrite joined_singleton in Hstep. cbn [fmap list_fmap] in Hstep.
    assert (Hnf : normalForm (list_ascii_of_string (Join [root; n])) =
                  ((normalForm (list_ascii_of_string root)).1,
                   (normalForm (list_ascii_of_string root)).2 ++
                   [list_ascii_of_string n])).
    { rewrite Hstep. apply normalForm_render. apply normalStack_app.
      - apply normalForm_normal.
      - by constructor. }
    destruct (IH (Join [root; n])) as [IH1 IH2]. cbn zeta in IH1, IH2.
    rewrite Hnf in IH1, IH2. cbn [fst snd] in IH1, IH2.
    rewrite <- app_assoc in IH1, IH2. cbn [app] in IH1, IH2.
    rewrite fmap_cons. split; [done|]. intros _.
    destruct names as [|n' names]; [|by apply IH2].
    cbn [joinAll fold_left fmap list_fmap]. exact Hstep.
Qed.

(** Joining a root with the names joined is the path below the root. *)
Lemma Join_joined_joinAll root names :
  names ≠ [] → Forall (λ n, validName n = true) names →
  Join [root; joined names] = joinAll root names.
Proof.
  intros Hne Hv.
  rewrite <- (string_of_list_ascii_of_string (Join _)).
  rewrite <- (string_of_list_ascii_of_string (joinAll _ _)).
  f_equal. rewrite Join_joined by done.
  by destruct (joinAll_normal root names Hv) as [_ ->].
Qed.

End JoinLemmas.

Section RelLemmas.
Import filepath.

Lemma afterElem_app_sep n q :
  Forall (λ c, isSep c = false) n → afterElem (n ++ "/"%char :: q) = q.
Proof. induction 1 as [|c n Hc _ IH]; cbn; [done|]. by rewrite Hc. Qed.

Lemma afterElem_sepfree n :
  Forall (λ c, isSep c = false) n → afterElem n = [].
Proof. induction 1 as [|c n Hc _ IH]; cbn; [done|]. by rewrite Hc. Qed.

Lemma takeElem_sepfree n :
  Forall (λ c, isSep c = false) n → takeElem n = n.
Proof. induction 1 as [|c n Hc _ IH]; cbn; [done|]. by rewrite Hc, IH. Qed.

Lemma joinSep_cons2 c c' comps :
  joinSep (c :: c' :: comps) = c ++ "/"%char :: joinSep (c' :: comps).
Proof. reflexivity. Qed.

Lemma joinSep_app comps names :
  comps ≠ [] → names ≠ [] →
  joinSep (comps ++ names) = joinSep comps ++ "/"%char :: joinSep names.
Proof.
  intros Hc Hn. induction comps as [|c comps IH]; [done|].
  destruct comps as [|c' comps].
  - destruct names; [done|]. reflexivity.
  - change ((c :: c' :: comps) ++ names) with (c :: c' :: (comps ++ names)).
    rewrite !joinSep_cons2, <- app_assoc. cbn [app].
    change (c' :: (comps ++ names)) with ((c' :: comps) ++ names).
    by rewrite IH.
Qed.

(** The loop of [Rel] uses up a base that is a prefix of the target, element
    by element. *)
Lemma relLoop_prefix comps t fuel :
  comps ≠ [] →
  Forall (λ c, Forall (λ x, isSep x = false) c ∧ c ≠ []) comps →
  length comps ≤ fuel →
  relLoop fuel (joinSep comps) (joinSep comps ++ "/"%char :: t) = ([], [], t).
Proof.
  intros Hne Hall. revert fuel.
  induction Hall as [|c comps [Hc Hcne] Hrest IH]; [done|]. intros fuel Hf.
  destruct fuel as [|fuel]; [cbn in Hf; lia|]. cbn [length] in Hf.
  destruct comps as [|c' comps].
  - cbn [joinSep relLoop].
    destruct c as [|x c]; [done|]. cbn [app].
    change (x :: c ++ "/"%char :: t) with ((x :: c) ++ "/"%char :: t).
    rewrite takeElem_app_nosep by eauto.
    rewrite (takeElem_sepfree (x :: c)) by done.
    rewrite decide_True by done.
    rewrite afterElem_app_sep, afterElem_sepfree by done.
    by destruct fuel.
  - rewrite joinSep_cons2, <- app_assoc. cbn [app relLoop].
    destruct c as [|x c]; [done|]. cbn [app].
    change (x :: c ++ "/"%char :: ?q) with ((x :: c) ++ "/"%char :: q).
    rewrite !takeElem_app_nosep by eauto.
    rewrite decide_True by done.
    rewrite !afterElem_app_sep by done.
    apply IH; [done|]. cbn [length] in *. lia.
Qed.

Lemma relLoop_root fuel b t :
  relLoop (S fuel) ("/"%char :: b) ("/"%char :: t) = relLoop fuel b t.
Proof. reflexivity. Qed.

Lemma joinSep_length comps :
  Forall (λ c : chars, c ≠ []) comps → length comps ≤ length (joinSep comps).
Proof.
  induction 1 as [|c comps Hc _ IH]; [done|].
  destruct comps as [|c' comps].
  - cbn. destruct c; [done|]. cbn. lia.
  - rewrite joinSep_cons2, length_app. cbn [length] in *. lia.
Qed.

Lemma startsWithSep_app b q :
  b ≠ [] → startsWithSep (b ++ q) = startsWithSep b.
Proof. by destruct b. Qed.

(** The relative path from a normal path to the same path followed by
    names is the names. *)
Lemma rel_core rooted comps names :
  normalStack rooted (rev comps) → names ≠ [] →
  Forall (λ c, validChars c = true) names →
  let base := render rooted comps in
  let targ := render rooted (comps ++ names) in
  let base' := if decide (base = ["."%char]) then [] else base in
  targ ≠ base ∧
  startsWithSep base' = startsWithSep targ ∧
  relLoop (S (length base')) base' targ = ([], [], joinSep names).
Proof.
  intros Hs Hne Hn base targ base'.
  pose proof (normalStack_app _ _ _ Hs Hn) as Hs'.
  assert (Hneq : targ ≠ base).
  { intros Heq. apply (f_equal normalForm) in Heq. subst base targ.
    rewrite !normalForm_render in Heq by done.
    injection Heq as Heq. rewrite <- (app_nil_r comps) in Heq at 2.
    by apply app_inv_head in Heq. }
  split; [done|].
  assert (Hall : Forall (λ c, Forall (λ x, isSep x = false) c ∧ c ≠ []) comps).
  { pose proof (normalStack_sepfree _ _ Hs) as H.
    apply Forall_forall. intros c Hc%list_elem_of_In.
    rewrite Forall_forall in H. apply H.
    apply list_elem_of_In. by apply in_rev in Hc. }
  assert (Hnames : Forall (λ c, Forall (λ x, isSep x = false) c ∧ c ≠ []) names).
  { eapply Forall_impl; [exact Hn|]. intros c Hc.
    split; [by apply valid_sepfree|by apply valid_nonempty]. }
  destruct comps as [|c comps].
  - (* the base is the root or the current directory *)
    destruct names as [|n names]; [done|].
    inversion Hnames as [|?? [Hnsep Hnne] _]; subst.
    destruct rooted.
    + subst base' base targ. cbn [app]. unfold render. cbn [joinSep].
      rewrite decide_False by done. split; [done|].
      by rewrite relLoop_root.
    + subst base' base targ. cbn [app]. rewrite render_false_cons by done.
      unfold render at 1 2. cbn [joinSep]. rewrite decide_True by done.
      split; [|done].
      destruct (joinSep_head n names Hnne) as (x & rest & Hx & Hhd).
      change (startsWithSep [] = startsWithSep (joinSep (n :: names))).
      rewrite Hx. cbn. destruct n as [|y n]; [done|]. injection Hhd as <-.
      by inversion Hnsep.
  - inversion Hall as [|?? [Hcsep Hcne] Hrest]; subst.
    assert (Hjoin : joinSep ((c :: comps) ++ names) =
                    joinSep (c :: comps) ++ "/"%char :: joinSep names).
    { by apply joinSep_app. }
    assert (Hlen : length (c :: comps) ≤ length (joinSep (c :: comps))).
    { apply joinSep_length. eapply Forall_impl; [exact Hall|]. by intros ? [_ ?]. }
    destruct (joinSep_head c comps Hcne) as (x & rest & Hx & Hhd).
    destruct rooted.
    + subst base' base targ. unfold render. rewrite decide_False by done.
      rewrite Hjoin. split; [done|].
      rewrite relLoop_root. cbn [length].
      apply relLoop_prefix; [done|done|lia].
    + assert (Hdot : render false (c :: comps) ≠ ["."%char]).
      { change ["."%char] with (render false []).
        intros Heq. apply (f_equal normalForm) in Heq.
        rewrite !normalForm_render in Heq; [done|apply normalStack_nil|done]. }
      subst base' base targ. rewrite decide_False by done.
      change ((c :: comps) ++ names) with (c :: (comps ++ names)).
      rewrite !render_false_cons by done.
      change (c :: (comps ++ names)) with ((c :: comps) ++ names).
      rewrite Hjoin. split.
      * rewrite startsWithSep_app; [done|]. by rewrite Hx.
      * apply relLoop_prefix; [done|done|lia].
Qed.

(** [Rel] from a root to a path below it gives the names of the path,
    joined. *)
Lemma Rel_joinAll root names :
  names ≠ [] → Forall (λ n, validName n = true) names →
  Rel root (joinAll root names) = (joined names, None).
Proof.
  intros Hne Hv.
  assert (Hv' : Forall (λ c, validChars c = true) (list_ascii_of_string <$> names)).
  { apply Forall_fmap. exact Hv. }
  assert (Hne' : list_ascii_of_string <$> names ≠ []) by (by destruct names).
  destruct (joinAll_normal root names Hv) as [Hnf _]. cbn zeta in Hnf.
  pose proof (rel_core _ _ _ (normalForm_normal (list_ascii_of_string root))
                Hne' Hv') as (Hneq & Hslash & Hloop).
  unfold Rel.
  rewrite (cleanChars_render (list_ascii_of_string (joinAll root names))), Hnf.
  rewrite (cleanChars_render (list_ascii_of_string root)). cbn [fst snd].
  rewrite decide_False by done.
  rewrite Hslash, Bool.eqb_reflx. cbn [negb].
  rewrite Hloop. rewrite decide_False by done. done.
Qed.

End RelLemmas.

Section MirrorExtras.
Import filepath.

Lemma reaches_valid tree names n :
  wfNode tree = true → reaches tree names n →
  Forall (λ x, validName x = true) names ∧ wfNode n = true.
Proof.
  intros Hwf Hr. induction Hr as [n|mt rd ents name child names n Hin Hr IH].
  - by split.
  - cbn [wfNode] in Hwf. rewrite forallb_forall in Hwf.
    apply list_elem_of_In, Hwf in Hin. cbn [fst snd] in Hin.
    apply andb_true_iff in Hin as [Hname Hchild].
    destruct (IH Hchild) as [Hnames Hn]. split; [by constructor|done].
Qed.

Lemma reaches_file_below tree names mt :
  isDirNode tree = true → reaches tree names (File mt) → names ≠ [].
Proof. intros Hd Hr. inversion Hr; subst; done. Qed.

Lemma chars_inj (s t : string) :
  list_ascii_of_string s = list_ascii_of_string t → s = t.
Proof.
  intros H. rewrite <- (string_of_list_ascii_of_string s).
  rewrite <- (string_of_list_ascii_of_string t). by rewrite H.
Qed.

(** Two paths below one root are the same only for the same names. *)
Lemma joinAll_inj root names names' :
  Forall (λ n, validName n = true) names →
  Forall (λ n, validName n = true) names' →
  joinAll root names = joinAll root names' → names = names'.
Proof.
  intros Hv Hv' Heq.
  destruct (joinAll_normal root names Hv) as [H1 _].
  destruct (joinAll_normal root names' Hv') as [H2 _].
  cbn zeta in H1, H2. rewrite Heq, H2 in H1. injection H1 as H1.
  apply app_inv_head in H1. symmetry.
  assert (Hinj : Inj (=) (=) list_ascii_of_string)
    by (intros ??; apply chars_inj).
  by apply (list_fmap_eq_inj list_ascii_of_string Hinj).
Qed.

Lemma joined_inj names names' :
  names ≠ [] → names' ≠ [] →
  Forall (λ n, validName n = true) names →
  Forall (λ n, validName n = true) names' →
  joined names = joined names' → names = names'.
Proof.
  intros Hne Hne' Hv Hv' Heq. apply (joinAll_inj "" _ _ Hv Hv').
  by rewrite <- !Join_joined_joinAll, Heq.
Qed.

(** What the scan of a directory tells of each of its files. *)
Lemma scanned_file_names root tree lastRun f :
  wfNode tree = true → isDirNode tree = true →
  f ∈ (Incremental.gatherFiles root tree lastRun).1.1 →
  ∃ names,
    names ≠ [] ∧ Forall (λ n, validName n = true) names ∧ ("trash" ∉ names) ∧
    (∃ mt, reaches tree names (File mt)) ∧
    Incremental.Location f = joinAll root names.
Proof.
  intros Hwf Hdir Hin.
  destruct (proj1 (scan_records_outside_trash root tree lastRun Hwf) f Hin)
    as (names & mt & Hr & Htrash & Hloc & _).
  exists names. destruct (reaches_valid _ _ _ Hwf Hr) as [Hv _].
  repeat split; eauto using reaches_file_below.
Qed.

Lemma simple_scanned_file_names root tree f :
  wfNode tree = true → isDirNode tree = true →
  f ∈ (Simple.gatherFiles root tree).1.1 →
  ∃ names,
    names ≠ [] ∧ Forall (λ n, validName n = true) names ∧ ("trash" ∉ names) ∧
    (∃ mt, reaches tree names (File mt)) ∧
    Simple.Location f = joinAll root names.
Proof.
  intros Hwf Hdir Hin.
  destruct (proj2 (scan_records_outside_trash root tree None Hwf) f Hin)
    as (names & mt & Hr & Htrash & Hloc & _).
  exists names. destruct (reaches_valid _ _ _ Hwf Hr) as [Hv _].
  repeat split; eauto using reaches_file_below.
Qed.

(** X10.  The copy of a scanned file mirrors its place: for a file the
    scan of the input directory found at some names below the input root,
    the relative path is those names joined, the source handed to
    [copyFile] is the location of the file, and the destination is the
    same names below the output root; in both programs. *)
Theorem copies_mirror_the_place_below_the_input_root config tree lastRun :
  wfNode tree = true → isDirNode tree = true →
  (∀ f, f ∈ (Incremental.gatherFiles (InputPath config) tree lastRun).1.1 →
     ∃ names,
       names ≠ [] ∧ ("trash" ∉ names) ∧ (∃ mt, reaches tree names (File mt)) ∧
       Incremental.Location f = joinAll (InputPath config) names ∧
       Incremental.relIn config f = joined names ∧
       Incremental.copyArgs config f =
         (Incremental.Location f, joinAll (OutputPath config) names)) ∧
  (∀ f, f ∈ (Simple.gatherFiles (InputPath config) tree).1.1 →
     ∃ names,
       names ≠ [] ∧ ("trash" ∉ names) ∧ (∃ mt, reaches tree names (File mt)) ∧
       Simple.Location f = joinAll (InputPath config) names ∧
       Simple.relIn config f = joined names ∧
       Simple.copyArgs config f =
         (Simple.Location f, joinAll (OutputPath config) names)).
Proof.
  intros Hwf Hdir. split; intros f Hin.
  - destruct (scanned_file_names _ _ _ _ Hwf Hdir Hin)
      as (names & Hne & Hv & Htrash & Hr & Hloc).
    exists names. repeat split; try done.
    + unfold Incremental.relIn. by rewrite Hloc, Rel_joinAll.
    + unfold Incremental.copyArgs, Incremental.relIn.
      rewrite Hloc, Rel_joinAll by done. cbn [fst].
      by rewrite !Join_joined_joinAll.
  - destruct (simple_scanned_file_names _ _ _ Hwf Hdir Hin)
      as (names & Hne & Hv & Htrash & Hr & Hloc).
    exists names. repeat split; try done.
    + unfold Simple.relIn. by rewrite Hloc, Rel_joinAll.
    + unfold Simple.copyArgs, Simple.relIn.
      rewrite Hloc, Rel_joinAll by done. cbn [fst].
      by rewrite !Join_joined_joinAll.
Qed.

(** X11.  An output file at some names below the output root is moved to
    the trash exactly when the scan of the input directory found no file
    at the same names below the input root. *)
Theorem orphan_iff_no_input_file_at_the_same_place
    config tree lastRun (output : Incremental.filesData) names :
  wfNode tree = true → isDirNode tree = true →
  names ≠ [] → Forall (λ n, validName n = true) names →
  Incremental.Location output = joinAll (OutputPath config) names →
  let scanIn := (Incremental.gatherFiles (InputPath config) tree lastRun).1.1 in
  Incremental.isOrphan config (Incremental.buildInFilesMap config scanIn) output = true ↔
  ∀ f, f ∈ scanIn → Incremental.Location f ≠ joinAll (InputPath config) names.
Proof.
  intros Hwf Hdir Hne Hv Hloc scanIn.
  unfold Incremental.isOrphan, Incremental.relOut.
  rewrite Hloc, Rel_joinAll by done. cbn [fst].
  rewrite bool_decide_eq_true, <- not_elem_of_dom.
  unfold Incremental.buildInFilesMap.
  rewrite (dom_fold_insert (Incremental.relIn config)), dom_empty_L.
  rewrite elem_of_union, elem_of_list_to_set, list_elem_of_fmap.
  split.
  - intros Hnot f Hin Hf. apply Hnot. left. exists f. split; [|done].
    unfold Incremental.relIn. by rewrite Hf, Rel_joinAll.
  - intros Hall [(f & Hkey & Hin)|Hempty]; [|set_solver].
    destruct (scanned_file_names _ _ _ _ Hwf Hdir Hin)
      as (names' & Hne' & Hv' & _ & _ & Hloc').
    apply (Hall f Hin). rewrite Hloc'. f_equal.
    unfold Incremental.relIn in Hkey. rewrite Hloc', Rel_joinAll in Hkey by done.
    cbn [fst] in Hkey. symmetry. by apply joined_inj.
Qed.

End MirrorExtras.

(** * What a scan does not miss *)

Lemma filesBelowNames_later path before rest file :
  Forall (λ p : string * node, ¬ (p.1 = "trash" ∧ isFileNode p.2 = true)) before →
  file ∈ filesBelowNames path rest →
  file ∈ filesBelowNames path (before ++ rest).
Proof.
  intros Hb Hin. induction Hb as [|[name child] before Hp _ IH]; [done|].
  cbn [app filesBelowNames]. cbn [fst snd] in Hp. case_decide as Hname.
  - destruct (isFileNode child) eqn:Hfile; [|done]. by destruct Hp.
  - apply elem_of_app. by right.
Qed.

Lemma visible_filesBelow tree names mt :
  visible tree names mt →
  ∀ path, (joinAll path names, mt) ∈ filesBelow path tree.
Proof.
  induction 1 as [mt|mtd before name child after names mt Hname Hb _ IH];
    intros path.
  - cbn. by left.
  - rewrite filesBelow_Dir. apply filesBelowNames_later; [done|].
    cbn [filesBelowNames]. rewrite decide_False by done.
    apply elem_of_app. left. apply IH.
Qed.

(** X12.  A scan misses no file it can reach: a file at some names below
    the tree, through directories that can be read and by names other than
    trash, with no file named trash listed before the name followed in any
    of them, has its record in the result of the scan, whatever else in
    the tree cannot be examined or read; in both programs. *)
Theorem scan_finds_every_file_it_can_reach root tree lastRun names mt :
  wfNode tree = true → filepath.Base root ≠ "trash" →
  visible tree names mt →
  recordOf lastRun (joinAll root names, mt) ∈
    (Incremental.gatherFiles root tree lastRun).1.1 ∧
  simpleRecordOf (joinAll root names, mt) ∈ (Simple.gatherFiles root tree).1.1.
Proof.
  intros Hwf Hroot Hvis.
  destruct (gatherFiles_exact root tree lastRun Hwf) as [-> ->].
  rewrite !decide_False by done. cbn [fst].
  pose proof (visible_filesBelow _ _ _ Hvis root) as Hin.
  split; apply list_elem_of_fmap; eauto.
Qed.

(** * The earlier program, run by run *)

Section ProcessExtras.
Import Simple.
Context {World Handle : Type} `{os : OS World Handle}.

Lemma Simple_trashBody_ok config trashPath processStart inFilesMap logger output w :
  let r := trashBody config trashPath processStart inFilesMap logger output w in
  (outcome_of r = Returned tt ∧
   renames (trace_of r) =
     (if simpleIsOrphan config inFilesMap output
      then [simpleTrashMove trashPath processStart output] else []) ∧
   copies (trace_of r) = [] ∧
   mkdirFailures (trace_of r) = [] ∧ writes (trace_of r) = []) ∨
  (outcome_of r = Exited 1 ∧
   renames (trace_of r) = [] ∧ copies (trace_of r) = [] ∧
   mkdirFailures (trace_of r) ≠ [] ∧ writes (trace_of r) = []).
Proof.
  intros r. subst r. unfold trashBody, simpleIsOrphan, simpleRelOut, simpleTrashMove.
  destruct (inFilesMap !! _) as [x|]; [left; done|].
  rewrite bool_decide_eq_true_2 by done.
  set (newPath := trashNewPath trashPath processStart output).
  destruct (createIfNotExist_cases (filepath.Dir newPath) w)
    as [[Hout Htr]|(e & Hout & Htr)].
  - left. rewrite (bind_Returned _ _ _ _ Hout). cbn [outcome_of trace_of].
    generalize (world_of (createIfNotExist (filepath.Dir newPath) w)).
    intros w1.
    destruct (moveToTrash_returns (Location output) newPath w1)
      as (err & Hm & Hmt & _).
    rewrite (bind_Returned _ _ _ _ Hm). cbn [outcome_of trace_of].
    rewrite Hmt. destruct Htr as [-> | ->], err; done.
  - right. rewrite (bind_Exited _ _ _ _ Hout). cbn [outcome_of trace_of].
    rewrite Htr. done.
Qed.

Lemma Simple_gatherFiles_printed path tree :
  Forall (λ e, ∃ p err, e = Printf_FailedAccessing p err)
         (gatherFiles path tree).2.
Proof.
  unfold gatherFiles.
  pose proof (Walk_preserves gatherFn
    (λ s, Forall (λ e, ∃ p err, e = Printf_FailedAccessing p err) s.2)) as HW.
  cbv beta in HW.
  assert (Hfn : ∀ path info err (s : list filesData * list event),
    Forall (λ e, ∃ p err, e = Printf_FailedAccessing p err) s.2 →
    Forall (λ e, ∃ p err, e = Printf_FailedAccessing p err)
           (gatherFn path info err s).1.2).
  { intros p info err [files printed] Hs. cbn in Hs. rewrite Simple_gatherFn_shape.
    destruct (gatherWith_cases visitFileInfos p info err files printed)
      as [[_ ->]|[_ (out & a & ok & Hv & ->)]]; [done|]. cbn.
    apply Forall_app. split; [done|].
    unfold visitFileInfos in Hv.
    destruct err as [e|], info as [i|]; try destruct (info_IsDir i);
      injection Hv as <- _ _; repeat constructor; eauto. }
  specialize (HW Hfn tree path ([], []) ltac:(constructor)).
  by destruct (Walk _ _ _ _) as [[files printed] err].
Qed.

Lemma Simple_gatherFilesIn_result path w :
  gatherFilesIn path w =
  mkResult (Returned ((gatherFiles path (fs_tree path w)).1.1, None)) w
           (gatherFiles path (fs_tree path w)).2.
Proof.
  unfold gatherFilesIn.
  pose proof (Simple_gatherFiles_err_nil path (fs_tree path w)) as H.
  destruct (gatherFiles _ _) as [[files err] printed]. cbn in *. by subst.
Qed.

(** The two loops of [process] and the deferred [Close], when they
    return. *)
Lemma processLoops_returned config trashPath processStart inFilesMap outFilesMap f
    (outputs inputs : list filesData) (w : World) :
  let r := (forRange outputs (trashBody config trashPath processStart inFilesMap f) ;;;
            forRange inputs (copyBody config outFilesMap f) ;;;
            modifies (file_Close f)) w in
  outcome_of r = Returned tt →
  ∃ moves copied,
    trace_of r = moves ++ copied ∧
    copies moves = [] ∧ writes moves = [] ∧ mkdirFailures moves = [] ∧
    renames copied = [] ∧ writes copied = [] ∧ mkdirFailures copied = [] ∧
    renames moves =
      simpleTrashMove trashPath processStart <$>
        filter (λ o, simpleIsOrphan config inFilesMap o = true) outputs ∧
    copies copied =
      copyArgs config <$>
        filter (λ i, skipsCopy outFilesMap (relIn config i) i = false) inputs.
Proof.
  intros r Hret. subst r.
  destruct (forRange_cases _ (λ o, if simpleIsOrphan config inFilesMap o
                                   then [simpleTrashMove trashPath processStart o]
                                   else [])
              (λ _, [])
              (Simple_trashBody_ok config trashPath processStart inFilesMap f)
              outputs w)
    as [(Hout & Hrn & Hcp & Hmk & Hwr)|(Hout & _)].
  2:{ rewrite (bind_Exited _ _ _ _ Hout) in Hret. done. }
  rewrite (bind_Returned _ _ _ _ Hout) in Hret |- *.
  cbn [outcome_of trace_of] in Hret |- *.
  set (r1 := forRange outputs _ w) in *.
  destruct (forRange_cases _ (λ _, [])
              (λ i, if negb (skipsCopy outFilesMap (relIn config i) i)
                    then [copyArgs config i] else [])
              (Simple_copyBody_ok config outFilesMap f)
              inputs (world_of r1))
    as [(Hout2 & Hrn2 & Hcp2 & Hmk2 & Hwr2)|(Hout2 & _)].
  2:{ rewrite (bind_Exited _ _ _ _ Hout2) in Hret. done. }
  rewrite (bind_Returned _ _ _ _ Hout2). cbn [outcome_of trace_of].
  set (r2 := forRange inputs _ (world_of r1)) in *.
  exists (trace_of r1), (trace_of r2). rewrite app_nil_r.
  assert (Hnil : ∀ A (l : list A), l ≫= (λ _, @nil (string * string)) = []).
  { intros A l. induction l; [done|]. cbn. done. }
  rewrite Hnil in Hcp, Hrn2.
  repeat split; try done.
  - rewrite Hrn, bind_if_filter. done.
  - rewrite Hcp2, bind_if_filter. f_equal.
    apply list_filter_iff. intros i. by rewrite negb_true_iff.
Qed.

(** A run of [process] that returns. *)
Lemma process_returned (w : World) :
  outcome_of (process w) = Returned tt →
  ∃ data config,
    os_ReadFile "./path.json" w = Ok data ∧
    json_Unmarshal data = Ok config ∧
    let trashPath := filepath.Join [OutputPath config; "trash"] in
    let w2 := world_of (createIfNotExist trashPath
                (world_of (createIfNotExist (OutputPath config) w))) in
    let scanIn := gatherFiles (InputPath config) (fs_tree (InputPath config) w2) in
    let scanOut := gatherFiles (OutputPath config) (fs_tree (OutputPath config) w2) in
    ∃ before moves copied,
      trace_of (process w) = before ++ moves ++ copied ∧
      renames before = [] ∧ copies before = [] ∧ writes before = [] ∧
      copies moves = [] ∧ writes moves = [] ∧
      renames copied = [] ∧ writes copied = [] ∧
      renames moves =
        simpleTrashMove trashPath (time_Now w) <$>
          filter (λ o, simpleIsOrphan config
                         (buildFilesMap (InputPath config) scanIn.1.1) o = true)
                 scanOut.1.1 ∧
      copies copied =
        copyArgs config <$>
          filter (λ i, skipsCopy (buildFilesMap (OutputPath config) scanOut.1.1)
                         (relIn config i) i = false)
                 scanIn.1.1.
Proof.
  unfold process.
  rewrite (bind_known _ _ w (time_Now w) w [] eq_refl).
  rewrite (bind_known _ _ w (os_ReadFile "./path.json" w) w [] eq_refl).
  cbn [outcome_of world_of trace_of app].
  destruct (os_ReadFile "./path.json" w) as [data|e]; [|done].
  destruct (json_Unmarshal data) as [config|e] eqn:Hjson; [|done].
  intros Hret. exists data, config. split; [done|]. split; [done|].
  cbv zeta.
  set (trashPath := filepath.Join [OutputPath config; "trash"]) in *.
  set (w2 := world_of (createIfNotExist trashPath
               (world_of (createIfNotExist (OutputPath config) w)))).
  set (scanIn := gatherFiles (InputPath config) (fs_tree (InputPath config) w2)).
  set (scanOut := gatherFiles (OutputPath config) (fs_tree (OutputPath config) w2)).
  destruct (createIfNotExist_cases (OutputPath config) w)
    as [[Hout Htr]|(e & Hout & Htr)].
  2:{ rewrite (bind_Exited _ _ _ _ Hout) in Hret. done. }
  rewrite (bind_Returned _ _ _ _ Hout) in Hret |- *.
  cbn [outcome_of world_of trace_of] in Hret |- *.
  set (r1 := createIfNotExist (OutputPath config) w) in *.
  fold trashPath in Hret |- *.
  destruct (createIfNotExist_cases trashPath (world_of r1))
    as [[Hout2 Htr2]|(e & Hout2 & Htr2)].
  2:{ rewrite (bind_Exited _ _ _ _ Hout2) in Hret. done. }
  rewrite (bind_Returned _ _ _ _ Hout2) in Hret |- *.
  cbn [outcome_of world_of trace_of] in Hret |- *.
  set (r2 := createIfNotExist trashPath (world_of r1)) in *.
  fold w2 in Hret |- *.
  rewrite (bind_known _ _ _ _ _ _ (Simple_gatherFilesIn_result _ _)) in Hret |- *.
  rewrite (bind_known _ _ _ _ _ _ (Simple_gatherFilesIn_result _ _)) in Hret |- *.
  rewrite (bind_known _ _ _ _ _ _ (calls_result _ _)) in Hret |- *.
  cbn [outcome_of world_of trace_of app] in Hret |- *.
  fold scanIn scanOut in Hret |- *.
  destruct (os_OpenFile_append "file_error.log" perm0644 w2) as [w3 [f|e]];
    cbn [fst snd] in Hret |- *; [|done].
  destruct (processLoops_returned config trashPath (time_Now w)
              (buildFilesMap (InputPath config) scanIn.1.1)
              (buildFilesMap (OutputPath config) scanOut.1.1) f
              scanOut.1.1 scanIn.1.1 w3 Hret)
    as (moves & copied & Htrace & H).
  exists (trace_of r1 ++ trace_of r2 ++ scanIn.2 ++ scanOut.2), moves, copied.
  split.
  { rewrite Htrace. by rewrite <- !app_assoc. }
  destruct (printed_silent _ (Simple_gatherFiles_printed (InputPath config)
              (fs_tree (InputPath config) w2))) as (Hp1 & Hp2 & _ & Hp4).
  destruct (printed_silent _ (Simple_gatherFiles_printed (OutputPath config)
              (fs_tree (OutputPath config) w2))) as (Hq1 & Hq2 & _ & Hq4).
  fold scanIn in Hp1, Hp2, Hp4. fold scanOut in Hq1, Hq2, Hq4.
  rewrite !renames_app, !copies_app, !writes_app.
  rewrite Hp1, Hp2, Hp4, Hq1, Hq2, Hq4.
  destruct H as (? & ? & ? & ? & ? & ? & ? & ?).
  destruct Htr as [-> | ->], Htr2 as [-> | ->]; done.
Qed.

(** X13.  A run of [process] that returns had path.json read and decoded,
    then made all its moves, one for every file of the output scan whose
    key is not in the map of the input files, then all its copies, one for
    every file of the input scan that the output map does not hold
    strictly newer, each list in the order of its scan; it wrote no
    file of its own, as it keeps no run state. *)
Theorem process_moves_orphans_then_copies_unless_newer (w : World) :
  outcome_of (process w) = Returned tt →
  ∃ data config,
    os_ReadFile "./path.json" w = Ok data ∧
    json_Unmarshal data = Ok config ∧
    let trashPath := filepath.Join [OutputPath config; "trash"] in
    let w2 := world_of (createIfNotExist trashPath
                (world_of (createIfNotExist (OutputPath config) w))) in
    let scanIn := gatherFiles (InputPath config) (fs_tree (InputPath config) w2) in
    let scanOut := gatherFiles (OutputPath config) (fs_tree (OutputPath config) w2) in
    ∃ before moves copied,
      trace_of (process w) = before ++ moves ++ copied ∧
      renames before = [] ∧ copies before = [] ∧ writes before = [] ∧
      copies moves = [] ∧ writes moves = [] ∧
      renames copied = [] ∧ writes copied = [] ∧
      renames moves =
        simpleTrashMove trashPath (time_Now w) <$>
          filter (λ o, simpleIsOrphan config
                         (buildFilesMap (InputPath config) scanIn.1.1) o = true)
                 scanOut.1.1 ∧
      copies copied =
        copyArgs config <$>
          filter (λ i, skipsCopy (buildFilesMap (OutputPath config) scanOut.1.1)
                         (relIn config i) i = false)
                 scanIn.1.1.
Proof. apply process_returned. Qed.

(** X14.  Once a run of [process] has exited, the program is over: the
    ticks that follow run nothing, and the outcome, the world and the
    trace stay those of the run that exited. *)
Theorem exit_in_a_run_ends_the_ticker (n k : nat) code (w : World) :
  outcome_of (mainTicks n w) = Exited code →
  mainTicks (n + k) w = mainTicks n w.
Proof.
  intros Hexit. induction k as [|k IH].
  - by rewrite Nat.add_0_r.
  - rewrite Nat.add_succ_r. cbn [mainTicks].
    assert (Hexit' : outcome_of (mainTicks (n + k) w) = Exited code)
      by (by rewrite IH).
    rewrite (bind_Exited _ _ _ _ Hexit'), IH, <- Hexit. apply result_eta.
Qed.

End ProcessExtras.

(** * The directory of a path in the trash *)

Section TrashDirLemmas.
Import filepath.

Lemma chars_app (a b : string) :
  list_ascii_of_string (a +:+ b) = list_ascii_of_string a ++ list_ascii_of_string b.
Proof.
  induction a as [|c a IH]; [done|]. rewrite string_app_cons. cbn. by rewrite IH.
Qed.

Lemma digit_plain d :
  (0 ≤ d < 10)%Z → isSep (time.digit d) = false ∧ time.digit d ≠ "."%char.
Proof.
  intros Hd. unfold time.digit.
  assert (Hn : Z.to_nat d < 10) by lia.
  destruct (Z.to_nat d) as [|n]; [by split|].
  do 9 (destruct n as [|n]; [by split|]). lia.
Qed.

Lemma digits_plain fuel u acc :
  Forall (λ c, isSep c = false ∧ c ≠ "."%char) acc →
  Forall (λ c, isSep c = false ∧ c ≠ "."%char) (time.digits fuel u acc).
Proof.
  revert u acc. induction fuel as [|fuel IH]; intros u acc Hacc; [done|].
  cbn [time.digits]. destruct (u <=? 0)%Z eqn:Hu; [done|].
  apply IH. constructor; [|done]. apply digit_plain.
  apply Z.mod_pos_bound. lia.
Qed.

Lemma digits_nonempty fuel u acc : acc ≠ [] → time.digits fuel u acc ≠ [].
Proof.
  revert u acc. induction fuel as [|fuel IH]; intros u acc Hacc; [done|].
  cbn [time.digits]. destruct (u <=? 0)%Z; [done|]. by apply IH.
Qed.

Lemma appendInt_plain x width :
  Forall (λ c, isSep c = false ∧ c ≠ "."%char) (time.appendInt x width) ∧
  time.appendInt x width ≠ [].
Proof.
  unfold time.appendInt.
  set (ds := if (Z.abs x =? 0)%Z then ["0"%char]
             else time.digits (Z.to_nat (Z.abs x)) (Z.abs x) []).
  assert (Hds : Forall (λ c, isSep c = false ∧ c ≠ "."%char) ds ∧ ds ≠ []).
  { subst ds. destruct (Z.abs x =? 0)%Z eqn:Hx.
    - split; [|done]. by repeat constructor.
    - split; [by apply digits_plain|].
      apply Z.eqb_neq in Hx.
      destruct (Z.to_nat (Z.abs x)) as [|k] eqn:Hk; [lia|].
      cbn [time.digits]. destruct (Z.abs x <=? 0)%Z eqn:Hle; [lia|].
      by apply digits_nonempty. }
  destruct Hds as [Hplain Hne]. split.
  - apply Forall_app. split; [destruct (x <? 0)%Z; by repeat constructor|].
    apply Forall_app. split; [|done].
    apply Forall_replicate. by split.
  - intros H. apply app_eq_nil in H as [_ H]. by apply app_eq_nil in H as [_ H].
Qed.

(** The timestamp of a new name is made of digits (and a sign, for a year
    before the year 0): no separator, no dot, and not empty. *)
Lemma Format_plain t :
  Forall (λ c, isSep c = false ∧ c ≠ "."%char)
         (list_ascii_of_string (time.Format_20060102150405 t)) ∧
  list_ascii_of_string (time.Format_20060102150405 t) ≠ [].
Proof.
  unfold time.Format_20060102150405.
  destruct (time.civil t) as [[[[[y m] d] hh] mm] ss].
  rewrite list_ascii_of_string_of_list_ascii. split.
  - do 5 (apply Forall_app; split; [apply appendInt_plain|]).
    apply appendInt_plain.
  - intros H. apply app_eq_nil in H as [H _].
    by apply (proj2 (appendInt_plain y 4)).
Qed.

Lemma newName_shape (name ts : string) :
  ∃ stem,
    name = stem +:+ Ext name ∧
    TrimSuffix name (Ext name) +:+ ("." +:+ ts) +:+ Ext name =
    stem +:+ "." +:+ ts +:+ Ext name.
Proof.
  destruct (Ext_suffix name) as [stem Hstem]. exists stem. split; [done|].
  rewrite Hstem at 1. rewrite TrimSuffix_app. by rewrite string_app_assoc.
Qed.

(** The new name of a name of a directory entry is such a name. *)
Lemma newName_valid (name ts : string) :
  validName name = true →
  Forall (λ c, isSep c = false ∧ c ≠ "."%char) (list_ascii_of_string ts) →
  list_ascii_of_string ts ≠ [] →
  validName (TrimSuffix name (Ext name) +:+ ("." +:+ ts) +:+ Ext name) = true.
Proof.
  intros Hv Hts Hne.
  destruct (newName_shape name ts) as (stem & Hname & ->).
  unfold validName in *. rewrite Hname in Hv.
  rewrite chars_app in Hv. rewrite !chars_app.
  set (s := list_ascii_of_string stem) in *.
  set (e := list_ascii_of_string (Ext name)) in *.
  set (t := list_ascii_of_string ts) in *.
  change (list_ascii_of_string ".") with ["."%char]. cbn [app].
  destruct (validChars_spec _ Hv) as (_ & Hsep & _ & _).
  apply Forall_app in Hsep as [Hs He].
  apply sepfree_valid.
  - apply Forall_app. split; [done|]. constructor; [done|].
    apply Forall_app. split; [|done].
    eapply Forall_impl; [exact Hts|]. by intros c [? _].
  - by destruct s.
  - intros H. apply (f_equal length) in H.
    rewrite length_app in H. cbn [length] in H. rewrite length_app in H.
    destruct t; [done|]. cbn [length] in H. lia.
  - intros H. unfold dotdot in H. pose proof (f_equal length H) as Hlen.
    rewrite length_app in Hlen. cbn [length] in Hlen. rewrite length_app in Hlen.
    destruct t as [|c t]; [done|]. cbn [length] in Hlen.
    destruct s; [|cbn [length] in Hlen; lia].
    cbn [app] in H. injection H as H.
    destruct t; [|cbn [length] in Hlen; lia].
    cbn [app] in H. destruct e; [|cbn [length] in Hlen; lia].
    inversion Hts as [|?? [_ Hc] _]. congruence.
Qed.

Lemma fromSepRev_sepfree n r :
  Forall (λ c, isSep c = false) n → fromSepRev (n ++ r) = fromSepRev r.
Proof. induction 1 as [|c n Hc _ IH]; [done|]. cbn. by rewrite Hc. Qed.

(** What [filepath.Dir] cleans: what comes before the last element. *)
Lemma before_last_element q n :
  Forall (λ c, isSep c = false) n →
  (q = [] ∨ ∃ q', q = q' ++ ["/"%char]) →
  rev (fromSepRev (rev (q ++ n))) = q.
Proof.
  intros Hn Hq. rewrite rev_app_distr, fromSepRev_sepfree.
  - destruct Hq as [->|[q' ->]]; [done|].
    rewrite rev_app_distr. cbn [rev app fromSepRev].
    change (isSep "/"%char) with true. cbv iota.
    change ("/"%char :: rev q') with (rev ["/"%char] ++ rev q').
    by rewrite <- rev_app_distr, rev_involutive.
  - apply Forall_forall. intros c Hc%list_elem_of_In%in_rev%list_elem_of_In.
    rewrite Forall_forall in Hn. auto.
Qed.

Lemma fold_cleanStep_then_empty rooted comps :
  normalStack rooted (rev comps) →
  rev (fold_left (cleanStep rooted) (comps ++ [[]]) []) = comps.
Proof.
  intros Hs. rewrite fold_left_app. cbn [fold_left].
  pose proof (fold_cleanStep_rev rooted (rev comps) Hs) as H.
  rewrite rev_involutive in H. rewrite H.
  unfold cleanStep. rewrite decide_True by done. apply rev_involutive.
Qed.

(** The directory of a normal path with one more name is the path. *)
Lemma dir_render rooted comps n :
  normalStack rooted (rev comps) → validChars n = true →
  cleanChars (rev (fromSepRev (rev (render rooted (comps ++ [n]))))) =
  render rooted comps.
Proof.
  intros Hs Hn.
  pose proof (valid_sepfree _ Hn) as Hsep.
  pose proof (valid_nonempty _ Hn) as Hne.
  assert (Hall : Forall (λ c, Forall (λ x, isSep x = false) c ∧ c ≠ []) comps).
  { pose proof (normalStack_sepfree _ _ Hs) as H.
    apply Forall_forall. intros c Hc%list_elem_of_In.
    rewrite Forall_forall in H. apply H.
    apply list_elem_of_In. by apply in_rev in Hc. }
  assert (Hsf : Forall (Forall (λ x, isSep x = false)) comps).
  { eapply Forall_impl; [exact Hall|]. by intros c [? _]. }
  destruct comps as [|c comps].
  - destruct rooted.
    + unfold render. cbn [app joinSep].
      change ("/"%char :: n) with (["/"%char] ++ n).
      rewrite before_last_element; [done|done|]. right. by exists [].
    + cbn [app]. rewrite render_false_cons by done. cbn [joinSep].
      rewrite <- (app_nil_l n) at 1.
      rewrite before_last_element; [done|done|by left].
  - inversion Hall as [|?? [Hcsep Hcne] _]; subst.
    assert (Hjoin : joinSep ((c :: comps) ++ [n]) =
                    (joinSep (c :: comps) ++ ["/"%char]) ++ n).
    { rewrite joinSep_app by done. by rewrite <- app_assoc. }
    destruct (joinSep_head c comps Hcne) as (x & rest & Hx & Hhd).
    assert (Hxs : isSep x = false).
    { destruct c as [|y c]; [done|]. injection Hhd as <-. by inversion Hcsep. }
    destruct rooted.
    + unfold render. rewrite Hjoin.
      change ("/"%char :: (joinSep (c :: comps) ++ ["/"%char]) ++ n)
        with (("/"%char :: joinSep (c :: comps) ++ ["/"%char]) ++ n).
      rewrite before_last_element; [|done|].
      2:{ right. by exists ("/"%char :: joinSep (c :: comps)). }
      rewrite cleanChars_cons. change (isSep "/"%char) with true. cbv zeta iota.
      f_equal. f_equal.
      cbn [splitSep]. change (isSep "/"%char) with true. cbv iota.
      change (joinSep (c :: comps) ++ ["/"%char])
        with (joinSep (c :: comps) ++ "/"%char :: []).
      rewrite splitSep_app, splitSep_joinSep by done.
      change (splitSep []) with [@nil ascii].
      change (fold_left (cleanStep true) ([] :: (c :: comps) ++ [[]]) [])
        with (fold_left (cleanStep true) ((c :: comps) ++ [[]])
                (cleanStep true [] [])).
      change (cleanStep true [] []) with (@nil chars).
      by apply fold_cleanStep_then_empty.
    + change ((c :: comps) ++ [n]) with (c :: (comps ++ [n])).
      rewrite !render_false_cons by done.
      change (c :: (comps ++ [n])) with ((c :: comps) ++ [n]).
      rewrite Hjoin.
      rewrite before_last_element; [|done|].
      2:{ right. by exists (joinSep (c :: comps)). }
      rewrite cleanChars_render.
      assert (Hnf : normalForm (joinSep (c :: comps) ++ ["/"%char]) =
                    (false, c :: comps)).
      { rewrite Hx. cbn [app normalForm]. rewrite Hxs. f_equal.
        change (x :: rest ++ ["/"%char]) with ((x :: rest) ++ "/"%char :: []).
        rewrite <- Hx, splitSep_app, splitSep_joinSep by done.
        change (splitSep []) with [@nil ascii].
        by apply fold_cleanStep_then_empty. }
      rewrite Hnf. cbn [fst snd]. by rewrite render_false_cons.
Qed.

Lemma Clean_chars path :
  list_ascii_of_string (Clean path) =
  render (normalForm (list_ascii_of_string path)).1
         (normalForm (list_ascii_of_string path)).2.
Proof.
  unfold Clean. by rewrite list_ascii_of_string_of_list_ascii, cleanChars_render.
Qed.

(** [filepath.Dir] of a path joined with a name is the path, cleaned. *)
Lemma Dir_Join path name :
  validName name = true → Dir (Join [path; name]) = Clean path.
Proof.
  intros Hv. unfold Dir.
  pose proof (Join_joined path [name] ltac:(done) ltac:(by constructor)) as Hj.
  rewrite joined_singleton in Hj. cbn [fmap list_fmap] in Hj.
  rewrite Hj, dir_render; [|apply normalForm_normal|done].
  by rewrite <- Clean_chars, string_of_list_ascii_of_string.
Qed.

(** Cleaning a cleaned path changes nothing. *)
Lemma Clean_Clean path : Clean (Clean path) = Clean path.
Proof.
  apply chars_inj. rewrite (Clean_chars (Clean path)), Clean_chars.
  rewrite normalForm_render; [done|]. apply normalForm_normal.
Qed.

Lemma Clean_Join path name : name ≠ "" → Clean (Join [path; name]) = Join [path; name].
Proof.
  intros Hname. unfold Join. case_decide.
  - rewrite decide_False by done. apply Clean_Clean.
  - apply Clean_Clean.
Qed.

End TrashDirLemmas.

(** X15.  Every file moved to the trash lands in the trash directory
    itself: for a file whose name is a name of a directory entry, the
    directory of the new path, the one [createIfNotExist] is called on
    before the move, is the trash path that [main] created at its start,
    and the last element of the new path is the new name; in both
    programs. *)
Theorem trash_moves_land_in_the_trash_directory
    config processStart (output : Incremental.filesData)
    (simpleOutput : Simple.filesData) :
  validName (Incremental.Name output) = true →
  validName (Simple.Name simpleOutput) = true →
  let trashPath := filepath.Join [OutputPath config; "trash"] in
  filepath.Dir (Incremental.trashNewPath trashPath processStart output) = trashPath ∧
  filepath.Base (Incremental.trashNewPath trashPath processStart output) =
    Incremental.trashNewName processStart output ∧
  filepath.Dir (Simple.trashNewPath trashPath processStart simpleOutput) = trashPath ∧
  filepath.Base (Simple.trashNewPath trashPath processStart simpleOutput) =
    Simple.trashNewName processStart simpleOutput.
Proof.
  intros Hv Hsv trashPath.
  destruct (Format_plain processStart) as [Hplain Hne].
  pose proof (newName_valid _ _ Hv Hplain Hne) as Hnew.
  pose proof (newName_valid _ _ Hsv Hplain Hne) as Hsnew.
  unfold Incremental.trashNewPath, Simple.trashNewPath.
  unfold Incremental.trashNewName, Simple.trashNewName. cbv zeta.
  rewrite !Dir_Join, !Base_Join by done.
  subst trashPath. by rewrite Clean_Join.
Qed.

(** * The directories a run creates *)

Lemma mkdirs_app t1 t2 : mkdirs (t1 ++ t2) = mkdirs t1 ++ mkdirs t2.
Proof. apply omap_app. Qed.

Lemma mkdirs_printed (printed : list event) :
  Forall (λ e, ∃ p err, e = Printf_FailedAccessing p err) printed →
  mkdirs printed = [].
Proof. induction 1 as [|e l (p & err & ->) _ IH]; done. Qed.

(** The name of a scanned file is a name of a directory entry, and its
    location ends with it, below the directory that holds it. *)
Lemma scanned_file_parent root tree lastRun f :
  wfNode tree = true → isDirNode tree = true →
  f ∈ (Incremental.gatherFiles root tree lastRun).1.1 →
  validName (Incremental.Name f) = true ∧
  ∃ parents mt,
    Forall (λ n, validName n = true) parents ∧
    reaches tree (parents ++ [Incremental.Name f]) (File mt) ∧
    Incremental.Location f =
      filepath.Join [joinAll root parents; Incremental.Name f].
Proof.
  intros Hwf Hdir Hin.
  destruct (scanned_file_names _ _ _ _ Hwf Hdir Hin)
    as (names & Hne & Hv & _ & [mt Hr] & Hloc).
  assert (Hname : Incremental.Name f = filepath.Base (Incremental.Location f)).
  { destruct (gatherFiles_exact root tree lastRun Hwf) as [Heq _].
    rewrite Heq in Hin. case_decide; cbn [fst] in Hin.
    - by apply elem_of_nil in Hin.
    - apply list_elem_of_fmap in Hin as ([p t] & -> & _). done. }
  destruct names as [|n names _] using rev_ind; [done|].
  apply Forall_app in Hv as [Hparents Hn]. inversion Hn as [|?? Hvn _]; subst.
  rewrite joinAll_snoc in Hloc.
  assert (Hbase : Incremental.Name f = n).
  { by rewrite Hname, Hloc, Base_Join. }
  rewrite Hbase. split; [done|]. exists names, mt. done.
Qed.

Section DirectoriesMade.
Import Incremental IncrementalLemmas.
Context {World Handle : Type} `{os : OS World Handle}.

(** What holds of the trace of every round of the two loops and of the
    saving of the run state, and is kept by putting traces one after the
    other, holds of the trace of the phases. *)
Lemma mainPhases_trace (P : list event → Prop)
    config trashPath processStart inFilesMap f
    (outputs inputs : list filesData) :
  P [] →
  (∀ t1 t2, P t1 → P t2 → P (t1 ++ t2)) →
  (∀ o w, o ∈ outputs →
     P (trace_of (trashBody config trashPath processStart inFilesMap f o w))) →
  (∀ i w, i ∈ inputs → P (trace_of (copyBody config f i w))) →
  (∀ w, P (trace_of (saveRunTime processStart w))) →
  ∀ w, P (trace_of (mainPhases config trashPath processStart inFilesMap f
                      outputs inputs w)).
Proof.
  intros Hnil Happ Htrash Hcopy Hsave w. unfold mainPhases.
  destruct (bind_trace_cases (forRange outputs
              (trashBody config trashPath processStart inFilesMap f))
              (λ _, forRange inputs (copyBody config f) ;;;
                    saveRunTime processStart ;;; modifies (file_Close f)) w)
    as [->|[[] ->]]; [by apply forRange_trace|].
  apply Happ; [by apply forRange_trace|]. set (w1 := world_of _).
  destruct (bind_trace_cases (forRange inputs (copyBody config f))
              (λ _, saveRunTime processStart ;;; modifies (file_Close f)) w1)
    as [->|[[] ->]]; [by apply forRange_trace|].
  apply Happ; [by apply forRange_trace|]. set (w2 := world_of _).
  destruct (bind_trace_cases (saveRunTime processStart)
              (λ _, modifies (file_Close f)) w2)
    as [->|[[] ->]]; [apply Hsave|].
  apply Happ; [apply Hsave|]. done.
Qed.

Lemma trashNewPath_dir config processStart (output : filesData) :
  validName (Name output) = true →
  filepath.Dir (trashNewPath (filepath.Join [OutputPath config; "trash"])
                             processStart output) =
  filepath.Join [OutputPath config; "trash"].
Proof.
  intros Hv. destruct (Format_plain processStart) as [Hplain Hne].
  pose proof (newName_valid _ _ Hv Hplain Hne) as Hnew.
  unfold trashNewPath, trashNewName. cbv zeta.
  rewrite Dir_Join by done. by rewrite Clean_Join.
Qed.

(** X16.  A run of [main] from the scans on creates directories in the
    output tree only: every directory handed to [os.MkdirAll] is the
    trash directory, or the directory below the output root at the names
    of a directory of the input tree that holds a file. *)
Theorem directories_are_made_in_the_output_tree_only
    processStart config lastRun (w : World) :
  let trashPath := filepath.Join [OutputPath config; "trash"] in
  let inTree := fs_tree (InputPath config) w in
  let outTree := fs_tree (OutputPath config) w in
  wfNode inTree = true → isDirNode inTree = true →
  wfNode outTree = true → isDirNode outTree = true →
  Forall (λ dir,
            dir = trashPath ∨
            ∃ parents name mt,
              reaches inTree (parents ++ [name]) (File mt) ∧
              dir = filepath.Clean (joinAll (OutputPath config) parents))
         (mkdirs (trace_of (mainFrom processStart config trashPath lastRun w))).
Proof.
  intros trashPath inTree outTree Hwi Hdi Hwo Hdo.
  set (Q := λ dir : string,
         dir = trashPath ∨
         ∃ parents name mt,
           reaches inTree (parents ++ [name]) (File mt) ∧
           dir = filepath.Clean (joinAll (OutputPath config) parents)).
  set (P := λ tr : list event, Forall Q (mkdirs tr)).
  assert (Hnil : P []) by constructor.
  assert (Happ : ∀ t1 t2, P t1 → P t2 → P (t1 ++ t2)).
  { intros t1 t2 H1 H2. unfold P. rewrite mkdirs_app. by apply Forall_app. }
  rewrite mainFrom_run. cbv zeta.
  fold inTree outTree.
  set (scanIn := gatherFiles (InputPath config) inTree lastRun).
  set (scanOut := gatherFiles (OutputPath config) outTree None).
  assert (Hpre : ∀ tr, P tr → P (scanIn.2 ++ scanOut.2 ++ tr)).
  { intros tr Htr. apply Happ; [|apply Happ; [|done]]; unfold P.
    - by rewrite (mkdirs_printed scanIn.2 (gatherFiles_printed _ _ _)).
    - by rewrite (mkdirs_printed scanOut.2 (gatherFiles_printed _ _ _)). }
  destruct (os_OpenFile_append "file_error.log" perm0644 w) as [w1 [f|e]];
    cbn [fst snd trace_of].
  2:{ apply (Hpre [_]). by constructor. }
  apply Hpre. apply mainPhases_trace; try done.
  - intros o w' Ho.
    destruct (scanned_file_parent _ _ _ _ Hwo Hdo Ho) as [Hv _].
    pose proof (trashBody_cases config trashPath processStart
                  (buildInFilesMap config scanIn.1.1) f o w') as H.
    cbv zeta in H. destruct (_ !! _).
    + by rewrite H.
    + unfold trashPath in H. rewrite (trashNewPath_dir _ _ _ Hv) in H.
      fold trashPath in H.
      destruct H as [(e & _ & ->)|(mk & err & _ & Hmk & ->)].
      * repeat constructor.
      * destruct Hmk as [-> | ->], err; repeat constructor.
  - intros i w' Hi.
    destruct (scanned_file_parent _ _ _ _ Hwi Hdi Hi)
      as (Hv & parents & mt & Hparents & Hr & Hloc).
    assert (Hnames : Forall (λ n, validName n = true) (parents ++ [Name i])).
    { apply Forall_app. split; [done|by constructor]. }
    assert (Hne : parents ++ [Name i] ≠ []) by (by destruct parents).
    rewrite <- joinAll_snoc in Hloc.
    assert (Hdir : filepath.Dir (filepath.Join
                     [OutputPath config;
                      (filepath.Rel (InputPath config) (Location i)).1]) =
                   filepath.Clean (joinAll (OutputPath config) parents)).
    { rewrite Hloc, Rel_joinAll by done. cbn [fst].
      rewrite Join_joined_joinAll, joinAll_snoc by done. by apply Dir_Join. }
    pose proof (copyBody_cases config f i w') as H.
    cbv zeta in H. rewrite Hdir in H. destruct (New i).
    + assert (HQ : Q (filepath.Clean (joinAll (OutputPath config) parents))).
      { right. by exists parents, (Name i), mt. }
      destruct H as [(e & _ & ->)|(mk & err & _ & Hmk & ->)].
      * unfold P. cbn. by constructor.
      * destruct Hmk as [-> | ->], err; unfold P; cbn;
          first [by apply Forall_nil | by constructor].
    + by rewrite H.
  - intros w'. destruct (saveRunTime_cases processStart w') as (res & _ & _ & Htr).
    cbv zeta in Htr. rewrite Htr. by destruct res.
Qed.

End DirectoriesMade.
